(** * Live-state extraction and capture orchestration: a shallow embedding

    The development follows the JavaScript sources of the repository:

    - the live-status route  (checks whether an account is broadcasting),
    - the user-info route    (profile lookup behind a six-hour cache),
    - the start-comments route and [getLogs.js] (bounded per-account log),
    - [record.js]            (quality selection and the two ffmpeg stages).

    The page component [index.js] only calls these routes and shows their
    answers; it is not part of the model.

    The texts that come from outside (the names in the requests, the
    pages) are modelled by [string]; a character stands for one code unit
    below 256.  JavaScript values that come out of [JSON.parse] are
    modelled by the inductive type [value]: a string value may hold any
    code unit, since an escape of a JSON text denotes any of them; numbers
    are IEEE-754 doubles given by an integer mantissa and a binary
    exponent. *)

From Stdlib Require Import ZArith String Ascii List Bool Lia DecimalString.
From stdpp Require Import gmap strings.

Local Open Scope Z_scope.
Set Warnings "-register-all".

(** ** JavaScript strings *)

Module JsString.

(** The quotation mark, written by its code so that no literal has to
    escape it. *)
Definition quote : ascii := "034"%char.

Definition code (c : ascii) : Z := Z.of_nat (nat_of_ascii c).

(** [dq s] is [s] with every apostrophe replaced by a quotation mark; it
    is only a way of writing markup and JSON texts as literals. *)
Fixpoint dq (s : string) : string :=
  match s with
  | EmptyString => EmptyString
  | String c r => String (if Ascii.eqb c "'"%char then quote else c) (dq r)
  end.

(** [strip_prefix p s] is the rest of [s] after the prefix [p]. *)
Fixpoint strip_prefix (p s : string) : option string :=
  match p with
  | EmptyString => Some s
  | String a p' =>
      match s with
      | EmptyString => None
      | String b s' => if Ascii.eqb a b then strip_prefix p' s' else None
      end
  end.

Definition is_empty (s : string) : bool :=
  match s with EmptyString => true | _ => false end.

(** White space of [String.prototype.trim] among the code units below 256:
    TAB, LF, VT, FF, CR, SP and NBSP. *)
Definition is_white_space (c : ascii) : bool :=
  let n := code c in
  ((9 <=? n) && (n <=? 13)) || (n =? 32) || (n =? 160).

(** Line terminators of the regular-expression dot among the code units
    below 256: LF and CR. *)
Definition is_line_terminator (c : ascii) : bool :=
  let n := code c in (n =? 10) || (n =? 13).

Fixpoint trimStart (s : string) : string :=
  match s with
  | EmptyString => EmptyString
  | String c r => if is_white_space c then trimStart r else s
  end.

Fixpoint trimEnd (s : string) : string :=
  match s with
  | EmptyString => EmptyString
  | String c r =>
      let r' := trimEnd r in
      if is_white_space c && is_empty r' then EmptyString else String c r'
  end.

(** [s.trim()] *)
Definition trim (s : string) : string := trimEnd (trimStart s).

(** [s.replace(/^@/, '')] *)
Definition strip_at (s : string) : string :=
  match s with
  | String c r => if Ascii.eqb c "@"%char then r else s
  | EmptyString => EmptyString
  end.

(** [toLowerCase] on one code unit below 256: A-Z, and the Latin-1
    capitals 192-222 except the multiplication sign 215. *)
Definition lower_char (c : ascii) : ascii :=
  let n := code c in
  if ((65 <=? n) && (n <=? 90)) || ((192 <=? n) && (n <=? 222) && negb (n =? 215))
  then ascii_of_nat (Z.to_nat (n + 32)) else c.

Fixpoint toLowerCase (s : string) : string :=
  match s with
  | EmptyString => EmptyString
  | String c r => String (lower_char c) (toLowerCase r)
  end.

Definition is_digit (c : ascii) : bool :=
  let n := code c in (48 <=? n) && (n <=? 57).

Definition digit_val (c : ascii) : Z := code c - 48.

(** Decimal digits of a non-negative integer. *)
Definition of_Z (z : Z) : string := NilZero.string_of_uint (N.to_uint (Z.to_N z)).

(** The decimal text of an integer (the text JavaScript gives an integer
    below [10^21] in absolute value). *)
Definition of_int (z : Z) : string :=
  if z <? 0 then String "-"%char (of_Z (- z)) else of_Z z.

Fixpoint repeat_char (c : ascii) (n : nat) : string :=
  match n with O => EmptyString | S k => String c (repeat_char c k) end.

Fixpoint take (n : nat) (s : string) : string :=
  match n, s with
  | S k, String c r => String c (take k r)
  | _, _ => EmptyString
  end.

Fixpoint drop (n : nat) (s : string) : string :=
  match n, s with
  | S k, String _ r => drop k r
  | _, _ => s
  end.

Definition len (s : string) : Z := Z.of_nat (String.length s).

(** The hexadecimal digit of a value below 16, in capitals. *)
Definition hex_digit (n : Z) : ascii :=
  ascii_of_nat (Z.to_nat (if n <? 10 then 48 + n else 55 + n)).

Definition percent (b : Z) : string :=
  String "%"%char (String (hex_digit (b / 16)) (String (hex_digit (b mod 16)) EmptyString)).

(** Characters that [encodeURIComponent] leaves alone. *)
Definition uri_unreserved (c : ascii) : bool :=
  let n := code c in
  ((65 <=? n) && (n <=? 90)) || ((97 <=? n) && (n <=? 122)) || is_digit c
  || existsb (Ascii.eqb c)
       ("-"%char :: "_"%char :: "."%char :: "!"%char :: "~"%char
        :: "*"%char :: "'"%char :: "("%char :: ")"%char :: nil).

(** [encodeURIComponent]: other code units are written as the percent
    escapes of their UTF-8 bytes (one byte below 128, two bytes from 128
    to 255). *)
Fixpoint encodeURIComponent (s : string) : string :=
  match s with
  | EmptyString => EmptyString
  | String c r =>
      let n := code c in
      (if uri_unreserved c then String c EmptyString
       else if n <? 128 then percent n
       else percent (192 + n / 64) +:+ percent (128 + n mod 64))
      +:+ encodeURIComponent r
  end.

(** The code units of a string, and the string of code units that are
    all below 256. *)
Fixpoint units (s : string) : list Z :=
  match s with
  | EmptyString => nil
  | String c r => code c :: units r
  end.

Fixpoint of_units (l : list Z) : string :=
  match l with
  | nil => EmptyString
  | u :: r => String (ascii_of_nat (Z.to_nat u)) (of_units r)
  end.

Definition narrow (l : list Z) : bool := forallb (fun u => u <? 256) l.

Fixpoint units_eqb (a b : list Z) : bool :=
  match a, b with
  | nil, nil => true
  | x :: a', y :: b' => (x =? y) && units_eqb a' b'
  | _, _ => false
  end.

Fixpoint strip_units (p s : list Z) : option (list Z) :=
  match p with
  | nil => Some s
  | a :: p' =>
      match s with
      | nil => None
      | b :: s' => if a =? b then strip_units p' s' else None
      end
  end.

(** [toLowerCase] on a code unit above 255 whose lower case is a code unit
    below 256: the capital Y with diaeresis (0178, to 00ff), the capital
    sharp s (1e9e, to 00df), the Kelvin sign (212a, to k) and the Angstrom
    sign (212b, to 00e5).  The lower case of every other code unit above
    255, alone or in a surrogate pair, has a code unit above 255. *)
Definition lower_wide_unit (u : Z) : option ascii :=
  if u =? 376 then Some (ascii_of_nat 255)
  else if u =? 7838 then Some (ascii_of_nat 223)
  else if u =? 8490 then Some "k"%char
  else if u =? 8491 then Some (ascii_of_nat 229)
  else None.

(** [toLowerCase] on a list of code units, when the result has only code
    units below 256; [None] when it has one above 255. *)
Fixpoint lower_units (l : list Z) : option string :=
  match l with
  | nil => Some EmptyString
  | u :: r =>
      let c := if u <? 256 then Some (lower_char (ascii_of_nat (Z.to_nat u)))
               else lower_wide_unit u in
      match c, lower_units r with
      | Some c', Some s => Some (String c' s)
      | _, _ => None
      end
  end.

End JsString.

(** ** JavaScript numbers

    A number is an IEEE-754 double.  A finite double is [m * 2^e] with
    [0 <= m < 2^53]; it is kept normalised: either [2^52 <= m] and
    [-1074 <= e <= 971], or [m < 2^52] and [e = -1074] (zero and the
    subnormals).  [JSON.parse] never produces NaN. *)

Module JsNumber.

Inductive number : Type :=
| Finite (neg : bool) (m : Z) (e : Z)
| Infinite (neg : bool).

(** The double nearest to the rational [n / d] (with [0 <= n], [0 < d]),
    ties to the even mantissa. *)
Definition round_ratio (neg : bool) (n d : Z) : number :=
  if n =? 0 then Finite neg 0 (-1074)
  else
    let e0 := Z.log2 n - Z.log2 d - 53 in
    let scaled (e : Z) : Z * Z :=
      if 0 <=? e then (n, d * 2 ^ e) else (n * 2 ^ (- e), d) in
    let e1 := let '(a, b) := scaled e0 in if 2 ^ 53 * b <=? a then e0 + 1 else e0 in
    let e2 := Z.max e1 (-1074) in
    let '(a, b) := scaled e2 in
    let q := a / b in
    let r := a mod b in
    let m := if 2 * r <? b then q
             else if b <? 2 * r then q + 1
             else if Z.even q then q else q + 1 in
    let '(m', e') := if m =? 2 ^ 53 then (2 ^ 52, e2 + 1) else (m, e2) in
    if 971 <? e' then Infinite neg else Finite neg m' e'.

(** The double denoted by the decimal [m * 10^e10], [0 <= m]. *)
Definition of_decimal (neg : bool) (m e10 : Z) : number :=
  if 0 <=? e10 then round_ratio neg (m * 10 ^ e10) 1
  else round_ratio neg m (10 ^ (- e10)).

Definition of_Z (z : Z) : number := of_decimal (z <? 0) (Z.abs z) 0.

Definition is_zero (x : number) : bool :=
  match x with Finite _ m _ => m =? 0 | Infinite _ => false end.

(** [x === y] on numbers: the two zeros are equal. *)
Definition eqb (x y : number) : bool :=
  match x, y with
  | Finite s m e, Finite s' m' e' =>
      (m =? 0) && (m' =? 0) || Bool.eqb s s' && (m =? m') && (e =? e')
  | Infinite s, Infinite s' => Bool.eqb s s'
  | _, _ => false
  end.

(** *** Number::toString, radix 10 *)

(** [ratio_lt_pow10 n d j]: [n / d < 10^j]. *)
Definition ratio_lt_pow10 (n d j : Z) : bool :=
  if 0 <=? j then n <? d * 10 ^ j else n * 10 ^ (- j) <? d.

(** The least [j >= j0] with [n / d < 10^j], looking at most [fuel] steps
    ahead. *)
Fixpoint pow10_above (fuel : nat) (n d j0 : Z) : Z :=
  match fuel with
  | O => j0
  | S f => if ratio_lt_pow10 n d j0 then j0 else pow10_above f n d (j0 + 1)
  end.

(** The double nearest to [s * 10^j]. *)
Definition of_scaled (s j : Z) : number := of_decimal false s j.

(** For [k] digits: the integer [s] with [s * 10^(n-k)] nearest to
    [num / den] among those that denote the double [x], if there is one. *)
Definition digits_for (x : number) (num den n k : Z) : option Z :=
  let j := n - k in
  let '(a, b) := if 0 <=? j then (num, den * 10 ^ j) else (num * 10 ^ (- j), den) in
  let lo := a / b in
  let hi := lo + 1 in
  let r := a mod b in
  let ok_lo := (10 ^ (k - 1) <=? lo) && eqb (of_scaled lo j) x in
  let ok_hi := eqb (of_scaled hi j) x in
  match ok_lo, ok_hi with
  | true, true =>
      if 2 * r <? b then Some lo
      else if b <? 2 * r then Some hi
      else if Z.even lo then Some lo else Some hi
  | true, false => Some lo
  | false, true => Some hi
  | false, false => None
  end.

Fixpoint shortest (fuel : nat) (x : number) (num den n k : Z) : Z * Z :=
  match fuel with
  | O => (0, k)
  | S f =>
      match digits_for x num den n k with
      | Some s => (s, k)
      | None => shortest f x num den n (k + 1)
      end
  end.

(** The text of a positive finite double [m * 2^e]. *)
Definition positive_toString (m e : Z) : string :=
  let '(num, den) := if 0 <=? e then (m * 2 ^ e, 1) else (m, 2 ^ (- e)) in
  let n0 := pow10_above 640 num den (-324) in
  let '(s0, k) := shortest 17 (Finite false m e) num den n0 1 in
  (* the upper neighbour may be [10^k]: one digit more before the point *)
  let '(s, n) := if s0 =? 10 ^ k then (10 ^ (k - 1), n0 + 1) else (s0, n0) in
  let ds := JsString.of_Z s in
  let zeros (z : Z) := JsString.repeat_char "0"%char (Z.to_nat z) in
  let exponent := (if 0 <? n - 1 then "e+" else "e-") +:+ JsString.of_Z (Z.abs (n - 1)) in
  if (k <=? n) && (n <=? 21) then ds +:+ zeros (n - k)
  else if (0 <? n) && (n <=? 21) then
    JsString.take (Z.to_nat n) ds +:+ "." +:+ JsString.drop (Z.to_nat n) ds
  else if (-6 <? n) && (n <=? 0) then "0." +:+ zeros (- n) +:+ ds
  else if k =? 1 then ds +:+ exponent
  else JsString.take 1 ds +:+ "." +:+ JsString.drop 1 ds +:+ exponent.

Definition toString (x : number) : string :=
  match x with
  | Infinite neg => if neg then "-Infinity" else "Infinity"
  | Finite neg m e =>
      if m =? 0 then "0"
      else (if neg then "-" else EmptyString) +:+ positive_toString m e
  end.

End JsNumber.

(** ** JavaScript values

    The values that [JSON.parse] returns, together with [undefined] and one
    more constructor, [VBuiltin], for what a property read finds on a
    prototype (a built-in method, or [Object.prototype] itself under the
    name [__proto__]): such a value is truthy and is not a JSON value.

    A string value is [VStr s] when all its code units are below 256, and
    [VWide l], with the list [l] of its code units, when one of them is
    above 255.  An object is [VObj o] when the names of all its properties
    are strings of the first kind, and [VObjW o] when one of them is of the
    second. *)

Module Js.

(** A JavaScript string: of code units below 256, or with one above. *)
Inductive text : Type :=
| Narrow (s : string)
| Wide (units : list Z).

Definition units_of (t : text) : list Z :=
  match t with
  | Narrow s => JsString.units s
  | Wide l => l
  end.

Definition text_of_units (l : list Z) : text :=
  if JsString.narrow l then Narrow (JsString.of_units l) else Wide l.

Definition text_eqb (a b : text) : bool := JsString.units_eqb (units_of a) (units_of b).

(** The string of code units below 256 that [t] is, if it is one. *)
Definition name_of (t : text) : option string :=
  match t with
  | Narrow s => Some s
  | Wide l => if JsString.narrow l then Some (JsString.of_units l) else None
  end.

(** [a + b] on strings *)
Definition text_app (a b : text) : text :=
  match a, b with
  | Narrow x, Narrow y => Narrow (x +:+ y)
  | _, _ => text_of_units (units_of a ++ units_of b)
  end.

Inductive value : Type :=
| VUndefined
| VNull
| VBool (b : bool)
| VNum (n : JsNumber.number)
| VStr (s : string)
| VArr (elems : list value)
| VObj (props : list (string * value))
| VBuiltin
| VWide (units : list Z)
| VObjW (props : list (text * value)).

(** The string value that [t] is. *)
Definition of_text (t : text) : value :=
  match t with
  | Narrow s => VStr s
  | Wide l => VWide l
  end.

(** [Boolean(v)] *)
Definition truthy (v : value) : bool :=
  match v with
  | VUndefined | VNull => false
  | VBool b => b
  | VNum n => negb (JsNumber.is_zero n)
  | VStr s => negb (JsString.is_empty s)
  | VWide l => match l with nil => false | _ => true end
  | VArr _ | VObj _ | VObjW _ | VBuiltin => true
  end.

Definition nullish (v : value) : bool :=
  match v with VUndefined | VNull => true | _ => false end.

(** [a || b] *)
Definition or (a b : value) : value := if truthy a then a else b.

(** [v === 2] and the like *)
Definition strict_eq_num (v : value) (n : JsNumber.number) : bool :=
  match v with VNum x => JsNumber.eqb x n | _ => false end.

(** [v === s] for a string [s] of code units below 256 *)
Definition strict_eq_str (v : value) (s : string) : bool :=
  match v with
  | VStr x => String.eqb x s
  | VWide l => JsString.units_eqb l (JsString.units s)
  | _ => false
  end.

(** *** Own properties: an object keeps them in the order of
    [OrdinaryOwnPropertyKeys]: array indices ascending, then the other names
    in the order of their creation. *)

Fixpoint digits_value (s : string) (acc : Z) : option Z :=
  match s with
  | EmptyString => Some acc
  | String c r =>
      if JsString.is_digit c then digits_value r (10 * acc + JsString.digit_val c)
      else None
  end.

(** A canonical numeric string below [2^32 - 1] is an array index. *)
Definition array_index (k : string) : option Z :=
  match k with
  | EmptyString => None
  | String c r =>
      if Ascii.eqb c "0"%char && negb (JsString.is_empty r) then None
      else match digits_value k 0 with
           | Some i => if i <? 2 ^ 32 - 1 then Some i else None
           | None => None
           end
  end.

Fixpoint assoc {V : Type} (k : string) (o : list (string * V)) : option V :=
  match o with
  | nil => None
  | (k', v) :: r => if String.eqb k k' then Some v else assoc k r
  end.

Fixpoint replace {V : Type} (k : string) (v : V) (o : list (string * V)) : list (string * V) :=
  match o with
  | nil => nil
  | (k', v') :: r => if String.eqb k k' then (k', v) :: r else (k', v') :: replace k v r
  end.

(** Where a new index [i] goes: before the first name that is not an index
    or is a larger one. *)
Fixpoint insert_index {V : Type} (i : Z) (k : string) (v : V) (o : list (string * V))
  : list (string * V) :=
  match o with
  | nil => (k, v) :: nil
  | (k', v') :: r =>
      match array_index k' with
      | Some j => if j <? i then (k', v') :: insert_index i k v r else (k, v) :: o
      | None => (k, v) :: o
      end
  end.

(** [o[k] = v] on own properties (CreateDataProperty). *)
Definition obj_set {V : Type} (o : list (string * V)) (k : string) (v : V) : list (string * V) :=
  match assoc k o with
  | Some _ => replace k v o
  | None =>
      match array_index k with
      | Some i => insert_index i k v o
      | None => o ++ (k, v) :: nil
      end
  end.

(** The same on properties whose names may have a code unit above 255
    (such a name is no array index). *)

Definition index_of (k : text) : option Z :=
  match name_of k with
  | Some s => array_index s
  | None => None
  end.

Fixpoint assoc_text {V : Type} (k : text) (o : list (text * V)) : option V :=
  match o with
  | nil => None
  | (k', v) :: r => if text_eqb k k' then Some v else assoc_text k r
  end.

Fixpoint replace_text {V : Type} (k : text) (v : V) (o : list (text * V)) : list (text * V) :=
  match o with
  | nil => nil
  | (k', v') :: r => if text_eqb k k' then (k', v) :: r else (k', v') :: replace_text k v r
  end.

Fixpoint insert_index_text {V : Type} (i : Z) (k : text) (v : V) (o : list (text * V))
  : list (text * V) :=
  match o with
  | nil => (k, v) :: nil
  | (k', v') :: r =>
      match index_of k' with
      | Some j => if j <? i then (k', v') :: insert_index_text i k v r else (k, v) :: o
      | None => (k, v) :: o
      end
  end.

Definition text_set {V : Type} (o : list (text * V)) (k : text) (v : V) : list (text * V) :=
  match assoc_text k o with
  | Some _ => replace_text k v o
  | None =>
      match index_of k with
      | Some i => insert_index_text i k v o
      | None => o ++ (k, v) :: nil
      end
  end.

(** The names of [o] as strings of code units below 256, when all of them
    are. *)
Fixpoint narrow_props {V : Type} (o : list (text * V)) : option (list (string * V)) :=
  match o with
  | nil => Some nil
  | (k, v) :: r =>
      match name_of k, narrow_props r with
      | Some s, Some r' => Some ((s, v) :: r')
      | _, _ => None
      end
  end.

(** The object with the properties [o]. *)
Definition make_object (o : list (text * value)) : value :=
  match narrow_props o with
  | Some o' => VObj o'
  | None => VObjW o
  end.

(** *** Inherited members (ECMAScript 2023) *)

Definition Object_prototype : list string :=
  "constructor" :: "__defineGetter__" :: "__defineSetter__" :: "hasOwnProperty"
  :: "__lookupGetter__" :: "__lookupSetter__" :: "isPrototypeOf"
  :: "propertyIsEnumerable" :: "toString" :: "valueOf" :: "__proto__"
  :: "toLocaleString" :: nil.

Definition Array_prototype : list string :=
  "at" :: "concat" :: "copyWithin" :: "entries" :: "every" :: "fill" :: "filter"
  :: "find" :: "findIndex" :: "findLast" :: "findLastIndex" :: "flat" :: "flatMap"
  :: "forEach" :: "includes" :: "indexOf" :: "join" :: "keys" :: "lastIndexOf"
  :: "map" :: "pop" :: "push" :: "reduce" :: "reduceRight" :: "reverse" :: "shift"
  :: "slice" :: "some" :: "sort" :: "splice" :: "toReversed" :: "toSorted"
  :: "toSpliced" :: "unshift" :: "values" :: "with" :: nil.

Definition String_prototype : list string :=
  "anchor" :: "at" :: "big" :: "blink" :: "bold" :: "charAt" :: "charCodeAt"
  :: "codePointAt" :: "concat" :: "endsWith" :: "fixed" :: "fontcolor"
  :: "fontsize" :: "includes" :: "indexOf" :: "isWellFormed" :: "italics"
  :: "lastIndexOf" :: "link" :: "localeCompare" :: "match" :: "matchAll"
  :: "normalize" :: "padEnd" :: "padStart" :: "repeat" :: "replace"
  :: "replaceAll" :: "search" :: "slice" :: "small" :: "split" :: "startsWith"
  :: "strike" :: "sub" :: "substr" :: "substring" :: "sup"
  :: "toLocaleLowerCase" :: "toLocaleUpperCase" :: "toLowerCase"
  :: "toUpperCase" :: "toWellFormed" :: "trim" :: "trimEnd" :: "trimLeft"
  :: "trimRight" :: "trimStart" :: nil.

Definition Number_prototype : list string :=
  "toExponential" :: "toFixed" :: "toPrecision" :: nil.

Definition member (names : list string) (k : string) : bool :=
  existsb (String.eqb k) names.

Definition inherited (own_proto : list string) (k : string) : value :=
  if member own_proto k || member Object_prototype k then VBuiltin else VUndefined.

Definition char_at (s : string) (i : Z) : value :=
  match String.get (Z.to_nat i) s with
  | Some c => VStr (String c EmptyString)
  | None => VUndefined
  end.

(** The string of the one code unit at [i]. *)
Definition unit_at (l : list Z) (i : Z) : value :=
  match nth_error l (Z.to_nat i) with
  | Some u => of_text (text_of_units (u :: nil))
  | None => VUndefined
  end.

(** [v[k]] on a value that is neither [null] nor [undefined] (on those the
    read throws; the callers test [nullish] first), for a name [k] of code
    units below 256.  No member of a built-in is modelled: the program
    reads from one only the names [id], [idStr], [region] and [country],
    which no built-in defines. *)
Definition get (v : value) (k : string) : value :=
  match v with
  | VObj o =>
      match assoc k o with
      | Some x => x
      | None => inherited nil k
      end
  | VObjW o =>
      match assoc_text (Narrow k) o with
      | Some x => x
      | None => inherited nil k
      end
  | VArr l =>
      match array_index k with
      | Some i => match nth_error l (Z.to_nat i) with Some x => x | None => VUndefined end
      | None =>
          if String.eqb k "length" then VNum (JsNumber.of_Z (Z.of_nat (length l)))
          else inherited Array_prototype k
      end
  | VStr s =>
      match array_index k with
      | Some i => char_at s i
      | None =>
          if String.eqb k "length" then VNum (JsNumber.of_Z (JsString.len s))
          else inherited String_prototype k
      end
  | VWide l =>
      match array_index k with
      | Some i => unit_at l i
      | None =>
          if String.eqb k "length" then VNum (JsNumber.of_Z (Z.of_nat (length l)))
          else inherited String_prototype k
      end
  | VNum _ => inherited Number_prototype k
  | VBool _ => inherited nil k
  | VBuiltin | VUndefined | VNull => VUndefined
  end.

(** [v[k]] for any name: a name with a code unit above 255 is found among
    the own properties of an object or nowhere. *)
Definition get_text (v : value) (k : text) : value :=
  match name_of k with
  | Some s => get v s
  | None =>
      match v with
      | VObjW o => match assoc_text k o with Some x => x | None => VUndefined end
      | _ => VUndefined
      end
  end.

(** [v?.k] *)
Definition opt_get (v : value) (k : string) : value :=
  if nullish v then VUndefined else get v k.

Definition indices (n : nat) : list text :=
  map (fun i => Narrow (JsString.of_Z (Z.of_nat i))) (seq 0 n).

(** [Object.keys(v)] for a value that is neither [null] nor [undefined]. *)
Definition keys (v : value) : list text :=
  match v with
  | VObj o => map (fun p => Narrow (fst p)) o
  | VObjW o => map fst o
  | VArr l => indices (length l)
  | VStr s => indices (String.length s)
  | VWide l => indices (length l)
  | _ => nil
  end.

Fixpoint join (sep : string) (l : list string) : string :=
  match l with
  | nil => EmptyString
  | x :: nil => x
  | x :: r => x +:+ sep +:+ join sep r
  end.

Fixpoint join_text (sep : string) (l : list text) : text :=
  match l with
  | nil => Narrow EmptyString
  | x :: nil => x
  | x :: r => text_app x (text_app (Narrow sep) (join_text sep r))
  end.

Fixpoint all_some {A : Type} (l : list (option A)) : option (list A) :=
  match l with
  | nil => Some nil
  | Some x :: r => match all_some r with Some r' => Some (x :: r') | None => None end
  | None :: _ => None
  end.

(** [String(v)], or [None] where the conversion throws a TypeError: an
    object whose own [toString] is a JSON value has no callable [toString],
    and [Object.prototype.valueOf] returns no primitive.  The text of a
    built-in is not modelled (the program never converts one). *)
Fixpoint ToString (v : value) : option text :=
  match v with
  | VUndefined => Some (Narrow "undefined")
  | VNull => Some (Narrow "null")
  | VBool b => Some (Narrow (if b then "true" else "false"))
  | VNum n => Some (Narrow (JsNumber.toString n))
  | VStr s => Some (Narrow s)
  | VWide l => Some (Wide l)
  | VArr l =>
      match all_some (map (fun x => if nullish x then Some (Narrow EmptyString) else ToString x) l)
      with
      | Some parts => Some (join_text "," parts)
      | None => None
      end
  | VObj o =>
      match assoc "toString" o with
      | Some _ => None
      | None => Some (Narrow "[object Object]")
      end
  | VObjW o =>
      match assoc_text (Narrow "toString") o with
      | Some _ => None
      | None => Some (Narrow "[object Object]")
      end
  | VBuiltin => Some (Narrow "function () { [native code] }")
  end.

End Js.

(** ** [JSON.parse]

    A recursive-descent reader of the JSON grammar, on the code units of
    the text.  [None] stands for the SyntaxError that [JSON.parse]
    throws. *)

Module Json.
Import Js.

(** The code unit of a character of the grammar. *)
Definition is_char (c : ascii) (u : Z) : bool := u =? JsString.code c.

Definition is_ws (u : Z) : bool := (u =? 32) || (u =? 9) || (u =? 10) || (u =? 13).

Fixpoint skip_ws (s : list Z) : list Z :=
  match s with
  | u :: r => if is_ws u then skip_ws r else s
  | nil => nil
  end.

Definition is_digit (u : Z) : bool := (48 <=? u) && (u <=? 57).

Definition digit_val (u : Z) : Z := u - 48.

Definition hex_val (u : Z) : option Z :=
  if (48 <=? u) && (u <=? 57) then Some (u - 48)
  else if (65 <=? u) && (u <=? 70) then Some (u - 55)
  else if (97 <=? u) && (u <=? 102) then Some (u - 87)
  else None.

Definition hex4 (a b c d : Z) : option Z :=
  match hex_val a, hex_val b, hex_val c, hex_val d with
  | Some x, Some y, Some z, Some w => Some (((x * 16 + y) * 16 + z) * 16 + w)
  | _, _, _, _ => None
  end.

Definition cons_unit (u : Z) (p : option (list Z * list Z)) : option (list Z * list Z) :=
  match p with
  | Some (s, rest) => Some (u :: s, rest)
  | None => None
  end.

(** The code units of a string literal after its opening quotation mark,
    and the text after the closing one.  An escape [\uXXXX] denotes the
    code unit [XXXX], whatever it is. *)
Fixpoint parse_string_body (s : list Z) : option (list Z * list Z) :=
  match s with
  | nil => None
  | u :: r =>
      if u =? JsString.code JsString.quote then Some (nil, r)
      else if is_char "\" u then
        match r with
        | e :: r' =>
            if e =? JsString.code JsString.quote
            then cons_unit (JsString.code JsString.quote) (parse_string_body r')
            else if is_char "\" e then cons_unit (JsString.code "\") (parse_string_body r')
            else if is_char "/" e then cons_unit (JsString.code "/") (parse_string_body r')
            else if is_char "b" e then cons_unit 8 (parse_string_body r')
            else if is_char "f" e then cons_unit 12 (parse_string_body r')
            else if is_char "n" e then cons_unit 10 (parse_string_body r')
            else if is_char "r" e then cons_unit 13 (parse_string_body r')
            else if is_char "t" e then cons_unit 9 (parse_string_body r')
            else if is_char "u" e then
              match r' with
              | h1 :: h2 :: h3 :: h4 :: r'' =>
                  match hex4 h1 h2 h3 h4 with
                  | Some n => cons_unit n (parse_string_body r'')
                  | None => None
                  end
              | _ => None
              end
            else None
        | nil => None
        end
      else if u <? 32 then None
      else cons_unit u (parse_string_body r)
  end.

(** A run of digits: its value after [acc], the number of digits, the rest. *)
Fixpoint parse_digits (s : list Z) (acc count : Z) : Z * Z * list Z :=
  match s with
  | u :: r =>
      if is_digit u then parse_digits r (10 * acc + digit_val u) (count + 1)
      else (acc, count, s)
  | nil => (acc, count, s)
  end.

(** A number literal: an optional minus sign; a zero, or a non-zero digit
    and further digits; an optional fraction (a point and one digit or
    more); an optional exponent ([e] or [E], an optional sign, one digit
    or more). *)
Definition parse_number (s : list Z) : option (JsNumber.number * list Z) :=
  let '(neg, s1) :=
    match s with
    | u :: r => if is_char "-" u then (true, r) else (false, s)
    | nil => (false, s)
    end in
  let int_part :=
    match s1 with
    | u :: r =>
        if is_char "0" u then Some (0, r)
        else if is_digit u then
          let '(v, _, rest) := parse_digits s1 0 0 in Some (v, rest)
        else None
    | nil => None
    end in
  match int_part with
  | None => None
  | Some (i, s2) =>
      let frac_part :=
        match s2 with
        | u :: r =>
            if is_char "." u then
              let '(v, n, rest) := parse_digits r i 0 in
              if n =? 0 then None else Some (v, n, rest)
            else Some (i, 0, s2)
        | nil => Some (i, 0, s2)
        end in
      match frac_part with
      | None => None
      | Some (m, fcount, s3) =>
          let exp_part :=
            match s3 with
            | u :: r =>
                if is_char "e" u || is_char "E" u then
                  let '(eneg, r1) :=
                    match r with
                    | sg :: r' =>
                        if is_char "-" sg then (true, r')
                        else if is_char "+" sg then (false, r')
                        else (false, r)
                    | nil => (false, r)
                    end in
                  let '(v, n, rest) := parse_digits r1 0 0 in
                  if n =? 0 then None else Some ((if eneg then - v else v), rest)
                else Some (0, s3)
            | nil => Some (0, s3)
            end in
          match exp_part with
          | None => None
          | Some (ex, s4) => Some (JsNumber.of_decimal neg m (ex - fcount), s4)
          end
      end
  end.

Definition literal (word : string) (v : value) (s : list Z) : option (value * list Z) :=
  match JsString.strip_units (JsString.units word) s with
  | Some rest => Some (v, rest)
  | None => None
  end.

Definition is_nil (s : list Z) : bool :=
  match s with nil => true | _ => false end.

(** [parse_value] reads one value at the head of [s] (white space already
    skipped); [parse_elements] and [parse_members] read what follows an
    opening bracket or brace, up to the closing one.  The fuel bounds the
    number of values read along one chain; the length of the text is
    enough. *)
Fixpoint parse_value (fuel : nat) (s : list Z) : option (value * list Z) :=
  match fuel with
  | O => None
  | S f =>
      match s with
      | nil => None
      | u :: r =>
          if is_char "{" u then
            match skip_ws r with
            | u' :: r' =>
                if is_char "}" u' then Some (VObj nil, r')
                else parse_members f (u' :: r') nil
            | nil => None
            end
          else if is_char "[" u then
            match skip_ws r with
            | u' :: r' =>
                if is_char "]" u' then Some (VArr nil, r')
                else parse_elements f (u' :: r') nil
            | nil => None
            end
          else if u =? JsString.code JsString.quote then
            match parse_string_body r with
            | Some (str, rest) => Some (of_text (text_of_units str), rest)
            | None => None
            end
          else if is_char "t" u then literal "true" (VBool true) s
          else if is_char "f" u then literal "false" (VBool false) s
          else if is_char "n" u then literal "null" VNull s
          else
            match parse_number s with
            | Some (n, rest) => Some (VNum n, rest)
            | None => None
            end
      end
  end
with parse_elements (fuel : nat) (s : list Z) (acc : list value) : option (value * list Z) :=
  match fuel with
  | O => None
  | S f =>
      match parse_value f s with
      | Some (v, rest) =>
          match skip_ws rest with
          | u :: r =>
              if is_char "," u then parse_elements f (skip_ws r) (acc ++ v :: nil)
              else if is_char "]" u then Some (VArr (acc ++ v :: nil), r)
              else None
          | nil => None
          end
      | None => None
      end
  end
with parse_members (fuel : nat) (s : list Z) (acc : list (text * value))
  : option (value * list Z) :=
  match fuel with
  | O => None
  | S f =>
      match s with
      | q :: r =>
          if q =? JsString.code JsString.quote then
            match parse_string_body r with
            | Some (key, rest) =>
                match skip_ws rest with
                | u :: r1 =>
                    if is_char ":" u then
                      match parse_value f (skip_ws r1) with
                      | Some (v, rest') =>
                          match skip_ws rest' with
                          | u' :: r2 =>
                              if is_char "," u'
                              then parse_members f (skip_ws r2)
                                                 (text_set acc (text_of_units key) v)
                              else if is_char "}" u'
                              then Some (make_object (text_set acc (text_of_units key) v), r2)
                              else None
                          | nil => None
                          end
                      | None => None
                      end
                    else None
                | nil => None
                end
            | None => None
            end
          else None
      | nil => None
      end
  end.

(** [JSON.parse] on the code units of a text. *)
Definition parse_units (l : list Z) : option value :=
  match parse_value (S (length l)) (skip_ws l) with
  | Some (v, rest) => if is_nil (skip_ws rest) then Some v else None
  | None => None
  end.

(** [JSON.parse(text)] for a text of code units below 256 *)
Definition parse (text : string) : option value := parse_units (JsString.units text).

(** [JSON.parse(t)] for any string *)
Definition parse_text (t : text) : option value := parse_units (units_of t).

End Json.

(** ** [Date.prototype.toISOString] on a time value in milliseconds *)

Module JsDate.

Definition pad (width : nat) (z : Z) : string :=
  let ds := JsString.of_Z z in
  JsString.repeat_char "0"%char (width - String.length ds) +:+ ds.

(** Year, month and day of the day number [days] counted from 1970-01-01
    (proleptic Gregorian calendar). *)
Definition civil_from_days (days : Z) : Z * Z * Z :=
  let z := days + 719468 in
  let era := z / 146097 in
  let doe := z - era * 146097 in
  let yoe := (doe - doe / 1460 + doe / 36524 - doe / 146096) / 365 in
  let doy := doe - (365 * yoe + yoe / 4 - yoe / 100) in
  let mp := (5 * doy + 2) / 153 in
  let d := doy - (153 * mp + 2) / 5 + 1 in
  let m := if mp <? 10 then mp + 3 else mp - 9 in
  let y := yoe + era * 400 + (if m <=? 2 then 1 else 0) in
  (y, m, d).

Definition year_text (y : Z) : string :=
  if (0 <=? y) && (y <=? 9999) then pad 4 y
  else (if y <? 0 then "-" else "+") +:+ pad 6 (Z.abs y).

Definition toISOString (ms : Z) : string :=
  let '(y, m, d) := civil_from_days (ms / 86400000) in
  let t := ms mod 86400000 in
  year_text y +:+ "-" +:+ pad 2 m +:+ "-" +:+ pad 2 d +:+ "T"
  +:+ pad 2 (t / 3600000) +:+ ":" +:+ pad 2 (t mod 3600000 / 60000) +:+ ":"
  +:+ pad 2 (t mod 60000 / 1000) +:+ "." +:+ pad 3 (t mod 1000) +:+ "Z".

End JsDate.

(** ** The two regular expressions that look for the state document

    Both are specialised by hand; each function below names the piece of
    the pattern it runs.  [html.match(re)] tries the start positions from
    left to right and keeps the first match; only the capture group is
    used by the callers, so the matchers return it. *)

Module Markup.

(** [<script id="SIGI_STATE"] *)
Definition marker : string := JsString.dq "<script id='SIGI_STATE'".

(** [<script id="SIGI_STATE" type="application/json">] *)
Definition json_open_tag : string :=
  JsString.dq "<script id='SIGI_STATE' type='application/json'>".

(** [</script>] *)
Definition close_tag : string := "</script>".

(** [[^>]*>]: the greedy run stops at the first [>], and giving characters
    back cannot help, since none of them is a [>]. *)
Fixpoint after_attributes (s : string) : option string :=
  match s with
  | EmptyString => None
  | String c r => if Ascii.eqb c ">"%char then Some r else after_attributes r
  end.

(** [(X*?)</script>] for a character class [X]: the lazy star takes one more
    character only when the closing tag does not follow. *)
Fixpoint lazy_until_close (class : ascii -> bool) (s : string) : option string :=
  match JsString.strip_prefix close_tag s with
  | Some _ => Some EmptyString
  | None =>
      match s with
      | EmptyString => None
      | String c r =>
          if class c then
            match lazy_until_close class r with
            | Some body => Some (String c body)
            | None => None
            end
          else None
      end
  end.

(** The class of the dot: any character but a line terminator. *)
Definition dot (c : ascii) : bool := negb (JsString.is_line_terminator c).

(** The class [[\s\S]]: any character. *)
Definition any (c : ascii) : bool := true.

(** The first start position at which [at_position] matches. *)
Fixpoint search (at_position : string -> option string) (s : string) : option string :=
  match at_position s with
  | Some body => Some body
  | None =>
      match s with
      | EmptyString => None
      | String _ r => search at_position r
      end
  end.

(** [/<script id="SIGI_STATE"[^>]*>(.*?)<\/script>/] at one position. *)
Definition live_pattern_at (s : string) : option string :=
  match JsString.strip_prefix marker s with
  | Some r =>
      match after_attributes r with
      | Some r' => lazy_until_close dot r'
      | None => None
      end
  | None => None
  end.

(** [/<script id="SIGI_STATE" type="application\/json">([\s\S]*?)<\/script>/]
    at one position. *)
Definition info_pattern_at (s : string) : option string :=
  match JsString.strip_prefix json_open_tag s with
  | Some r => lazy_until_close any r
  | None => None
  end.

(** Group 1 of the match of the live-status and [record.js] pattern. *)
Definition match_live (html : string) : option string := search live_pattern_at html.

(** Group 1 of the match of the user-info pattern. *)
Definition match_info (html : string) : option string := search info_pattern_at html.

End Markup.

(** ** [path.join] (POSIX) *)

Module Path.

(** The segments of [s] between slashes; [cur] is the segment being read,
    reversed. *)
Fixpoint split_rev (s : string) (cur : string) (acc : list string) : list string :=
  match s with
  | EmptyString => rev (cur :: acc)
  | String c r =>
      if Ascii.eqb c "/"%char then split_rev r EmptyString (cur :: acc)
      else split_rev r (cur +:+ String c EmptyString) acc
  end.

Definition split (s : string) : list string := split_rev s EmptyString nil.

(** One step of [normalize]: [stack] holds the kept segments, last first. *)
Definition push_segment (absolute : bool) (stack : list string) (seg : string) : list string :=
  if JsString.is_empty seg || String.eqb seg "." then stack
  else if String.eqb seg ".." then
    match stack with
    | top :: rest => if String.eqb top ".." then seg :: stack else rest
    | nil => if absolute then nil else seg :: nil
    end
  else seg :: stack.

Definition ends_with_slash (s : string) : bool :=
  match rev (split s) with
  | last :: _ :: _ => JsString.is_empty last
  | _ => false
  end.

Definition normalize (p : string) : string :=
  if JsString.is_empty p then "."
  else
    let absolute := match p with String c _ => Ascii.eqb c "/"%char | _ => false end in
    let kept := rev (fold_left (push_segment absolute) (split p) nil) in
    let body := Js.join "/" kept in
    let body :=
      if JsString.is_empty body then (if absolute then EmptyString else ".")
      else if ends_with_slash p then body +:+ "/" else body in
    if absolute then "/" +:+ body else body.

(** [path.join(a, b)] *)
Definition join (a b : string) : string :=
  match JsString.is_empty a, JsString.is_empty b with
  | true, true => "."
  | true, false => normalize b
  | false, true => normalize a
  | false, false => normalize (a +:+ "/" +:+ b)
  end.

End Path.

(** ** Requests and responses *)

Module Http.

(** [req.query.username]: absent, one string, or the array the query parser
    builds when the parameter is repeated. *)
Inductive query_value : Type :=
| QAbsent
| QString (s : string)
| QArray (l : list string).

Record request : Type := Request {
  method : string;
  query_username : query_value }.

(** What [res.status(code).json(obj)] sends: [body] is the object handed to
    [json], before serialisation; [None] is the empty body of [end()]. *)
Record response : Type := Response {
  status : Z;
  headers : list (string * string);
  body : option (list (string * Js.value)) }.

Definition json (code : Z) (obj : list (string * Js.value)) : response :=
  Response code nil (Some obj).

(** A handler either sends a response or lets an exception escape. *)
Inductive outcome : Type :=
| Sent (r : response)
| Uncaught (message : string).

End Http.

(** ** The world the handlers run in

    [Outside] holds the answers of everything the process does not decide:
    the clock, the upstream site, the ffmpeg runs, the chat connection and
    the directory creation.  [World] adds what the process holds between
    requests (the module-level cache, the two [global] dictionaries), the
    files on disk, and a record of the calls made so far; the n-th call of
    a kind receives the n-th answer. *)

Module Sys.

Inductive fetch_result : Type :=
| NetworkError (name message : string)    (* the promise rejects *)
| Page (status : Z) (text : string).      (* [r.status] and [await r.text()] *)

(** How a spawned process ends: the [close] event with its exit code
    ([None] when a signal killed it), or the [error] event. *)
Inductive exit : Type :=
| Closed (code : option Z)
| SpawnFailed (message : string).

(** [partial_output]: a run that fails may still leave its output file. *)
Record process_outcome : Type := ProcessOutcome {
  ended : exit;
  partial_output : bool }.

Record Outside : Type := {
  now : nat -> Z;
  upstream : nat -> string -> fetch_result;
  ffmpeg : nat -> list Js.value -> process_outcome;
  connect : nat -> string -> option string;      (* [Some message]: it rejects *)
  mkdir : string -> option string;               (* [Some message]: it throws *)
  cwd : string }.

(** [{ ts, data }] *)
Record cache_entry : Type := CacheEntry {
  ts : Z;
  data : list (string * Js.value) }.

(** [{ timestamp, user, comment }] *)
Record log_entry : Type := LogEntry {
  timestamp : string;
  user : Js.value;
  comment : Js.value }.

(** A [WebcastPushConnection] that is connected and has its chat listener. *)
Record connection : Type := Connection { account : string }.

Record World : Type := {
  outside : Outside;
  clock_reads : nat;
  fetched : list string;
  spawned : list (list Js.value);
  connects : list string;
  files : gset string;
  cache : gmap string cache_entry;
  commentWatchers : option (gmap string connection);
  commentLogs : option (gmap string (list log_entry)) }.

Definition with_clock_reads (n : nat) (w : World) : World :=
  {| outside := outside w; clock_reads := n; fetched := fetched w;
     spawned := spawned w; connects := connects w; files := files w;
     cache := cache w; commentWatchers := commentWatchers w;
     commentLogs := commentLogs w |}.

Definition with_fetched (l : list string) (w : World) : World :=
  {| outside := outside w; clock_reads := clock_reads w; fetched := l;
     spawned := spawned w; connects := connects w; files := files w;
     cache := cache w; commentWatchers := commentWatchers w;
     commentLogs := commentLogs w |}.

Definition with_spawned (l : list (list Js.value)) (w : World) : World :=
  {| outside := outside w; clock_reads := clock_reads w; fetched := fetched w;
     spawned := l; connects := connects w; files := files w;
     cache := cache w; commentWatchers := commentWatchers w;
     commentLogs := commentLogs w |}.

Definition with_connects (l : list string) (w : World) : World :=
  {| outside := outside w; clock_reads := clock_reads w; fetched := fetched w;
     spawned := spawned w; connects := l; files := files w;
     cache := cache w; commentWatchers := commentWatchers w;
     commentLogs := commentLogs w |}.

Definition with_files (f : gset string) (w : World) : World :=
  {| outside := outside w; clock_reads := clock_reads w; fetched := fetched w;
     spawned := spawned w; connects := connects w; files := f;
     cache := cache w; commentWatchers := commentWatchers w;
     commentLogs := commentLogs w |}.

Definition with_cache (c : gmap string cache_entry) (w : World) : World :=
  {| outside := outside w; clock_reads := clock_reads w; fetched := fetched w;
     spawned := spawned w; connects := connects w; files := files w;
     cache := c; commentWatchers := commentWatchers w;
     commentLogs := commentLogs w |}.

Definition with_commentWatchers (m : option (gmap string connection)) (w : World) : World :=
  {| outside := outside w; clock_reads := clock_reads w; fetched := fetched w;
     spawned := spawned w; connects := connects w; files := files w;
     cache := cache w; commentWatchers := m;
     commentLogs := commentLogs w |}.

Definition with_commentLogs (m : option (gmap string (list log_entry))) (w : World) : World :=
  {| outside := outside w; clock_reads := clock_reads w; fetched := fetched w;
     spawned := spawned w; connects := connects w; files := files w;
     cache := cache w; commentWatchers := commentWatchers w;
     commentLogs := m |}.

(** A computation that reads and changes the world. *)
Definition M (A : Type) : Type := World -> A * World.

#[export] Instance M_ret : MRet M := fun A (x : A) w => (x, w).

#[export] Instance M_bind : MBind M := fun A B (f : A -> M B) (m : M A) w =>
  let '(x, w') := m w in f x w'.

(** [Date.now()], and the instant of [new Date()] *)
Definition Date_now : M Z := fun w =>
  (now (outside w) (clock_reads w), with_clock_reads (S (clock_reads w)) w).

(** [await fetch(url, ...)] followed, on a response, by [await r.text()] *)
Definition fetch (url : string) : M fetch_result := fun w =>
  (upstream (outside w) (length (fetched w)) url, with_fetched (fetched w ++ url :: nil) w).

(** [fs.existsSync(p)] *)
Definition existsSync (p : string) : M bool := fun w =>
  (bool_decide (p ∈ files w), w).

(** [fs.mkdirSync(p, { recursive: true })]: [Some message] when it throws. *)
Definition mkdirSync (p : string) : M (option string) := fun w =>
  match mkdir (outside w) p with
  | Some message => (Some message, w)
  | None => (None, with_files ({[ p ]} ∪ files w) w)
  end.

(** [spawn('ffmpeg', args)] up to the end of the process.  ffmpeg reads its
    input and writes the file named last in [args]: a run that ends with
    code 0 has written it, another run may have left a part of it. *)
Definition spawn_ffmpeg (args : list Js.value) (output : string) : M exit := fun w =>
  let o := ffmpeg (outside w) (length (spawned w)) args in
  let written :=
    match ended o with
    | Closed (Some 0) => true
    | _ => partial_output o
    end in
  let w1 := with_spawned (spawned w ++ args :: nil) w in
  (ended o, if written then with_files ({[ output ]} ∪ files w1) w1 else w1).

(** [new WebcastPushConnection(user)] and [await connection.connect()]:
    [Some message] when the promise rejects. *)
Definition connect_chat (user : string) : M (option string) := fun w =>
  (connect (outside w) (length (connects w)) user, with_connects (connects w ++ user :: nil) w).

(** *** Plain objects used as dictionaries

    [d[k]] finds an own property, or else what [Object.prototype] has under
    that name. *)
Inductive found (V : Type) : Type :=
| Own (v : V)
| Inherited
| Missing.
Arguments Own {V} v.
Arguments Inherited {V}.
Arguments Missing {V}.

Definition dict_get {V : Type} (d : gmap string V) (k : string) : found V :=
  match d !! k with
  | Some v => Own v
  | None => if Js.member Js.Object_prototype k then Inherited else Missing
  end.

(** Every own value stored in the two dictionaries is truthy (an object or
    an array), and so is every inherited member. *)
Definition found_truthy {V : Type} (f : found V) : bool :=
  match f with Own _ | Inherited => true | Missing => false end.

End Sys.

(** ** Account names as the routes read them *)

Module Account.
Import Http.

(** [!username || typeof username !== 'string' || username.trim() === '']:
    the test of the live-status, start-comments, get-logs and record
    routes; [Some username] when the request passes it. *)
Definition valid_username (q : query_value) : option string :=
  match q with
  | QString username =>
      if JsString.is_empty (JsString.trim username) then None else Some username
  | QAbsent | QArray _ => None
  end.

(** [username.replace(/^@/, '').trim()] *)
Definition user_of (username : string) : string :=
  JsString.trim (JsString.strip_at username).

Definition bad_request : response :=
  json 400 (("error", Js.VStr "Missing or invalid username") :: nil).

End Account.

(** ** The live-status route *)

Module CheckLive.
Import Js Http Sys.

(** [data?.LiveRoom?.liveRoomUserInfo?.liveRoom] *)
Definition liveRoom (data : value) : value :=
  opt_get (opt_get (opt_get data "LiveRoom") "liveRoomUserInfo") "liveRoom".

(** The platform's code for a room that is live. *)
Definition LIVE : JsNumber.number := JsNumber.of_Z 2.

Record resolved : Type := Resolved {
  live : bool;
  status : value;
  roomId : value }.

(** The three variables [live], [status] and [roomId] after the match on
    the markup and the [try] around [JSON.parse]. *)
Definition resolve (html : string) : resolved :=
  let unresolved := Resolved false VNull VNull in
  match Markup.match_live html with
  | Some text =>
      if negb (JsString.is_empty text) then
        match Json.parse text with
        | Some data =>
            let status := opt_get (liveRoom data) "status" in
            Resolved (strict_eq_num status LIVE) status (opt_get (liveRoom data) "roomId")
        | None => unresolved
        end
      else unresolved
  | None => unresolved
  end.

Definition live_url (user : string) : string :=
  "https://www.tiktok.com/@" +:+ JsString.encodeURIComponent user +:+ "/live".

Definition handler (req : request) : M response :=
  match Account.valid_username (query_username req) with
  | None => mret Account.bad_request
  | Some username =>
      let user := Account.user_of username in
      r ← fetch (live_url user);
      match r with
      | NetworkError _ message => mret (json 500 (("error", VStr message) :: nil))
      | Page _ html =>
          let s := resolve html in
          mret (json 200 (("username", VStr user) :: ("live", VBool (live s))
                          :: ("status", status s) :: ("roomId", roomId s) :: nil))
      end
  end.

End CheckLive.

(** ** The user-info route *)

Module UserInfo.
Import Js Http Sys.

(** [const TTL_MS = 6 * 60 * 60 * 1000] *)
Definition TTL_MS : Z := 6 * 60 * 60 * 1000.

(** [pickCountryFromText] *)
Definition pickCountryFromText (text : string) : value := VNull.

(** [safeJsonParse] *)
Definition safeJsonParse (str : string) : value :=
  match Json.parse str with
  | Some v => v
  | None => VNull
  end.

(** The three headers set before anything else. *)
Definition cors : list (string * string) :=
  ("Access-Control-Allow-Origin", "*")
  :: ("Access-Control-Allow-Methods", "GET, OPTIONS")
  :: ("Access-Control-Allow-Headers", "Content-Type") :: nil.

(** [(req.query.username || "").toString().trim()] *)
Definition usernameRaw (q : query_value) : string :=
  JsString.trim
    match q with
    | QAbsent => EmptyString
    | QString s => s
    | QArray l => join "," l
    end.

(** [usernameRaw.replace(/^@/, "")] *)
Definition username_of (q : query_value) : string := JsString.strip_at (usernameRaw q).

(** [username.toLowerCase()], the cache key *)
Definition key_of (username : string) : string := JsString.toLowerCase username.

(** A thrown exception, as [String(e)] shows it. *)
Definition exn : Type := string.

Definition not_a_function : exn :=
  "TypeError: u?.uniqueId?.toLowerCase is not a function".

Definition not_primitive : exn :=
  "TypeError: Cannot convert object to primitive value".

(** [u?.uniqueId?.toLowerCase?.() === username.toLowerCase()]: the
    comparison of the lower-cased text of a string; [false] where a link of
    the chain is missing; a [toLowerCase] that is present and is no
    function (an own property read from JSON) throws.  The name has only
    code units below 256, so a string whose lower case has one above 255
    differs from it. *)
Definition uniqueId_is (u : value) (username : string) : exn + bool :=
  match opt_get u "uniqueId" with
  | VStr s => inr (String.eqb (JsString.toLowerCase s) (JsString.toLowerCase username))
  | VWide l =>
      inr match JsString.lower_units l with
          | Some s => String.eqb s (JsString.toLowerCase username)
          | None => false
          end
  | uid => if nullish (opt_get uid "toLowerCase") then inr false else inl not_a_function
  end.

(** [x.id || x.idStr || null] and [x.region || x.country || null] *)
Definition id_of (x : value) : value := or (or (get x "id") (get x "idStr")) VNull.
Definition region_of (x : value) : value := or (or (get x "region") (get x "country")) VNull.

(** The [for (const k of keys)] loop: the first entry whose [uniqueId]
    matches gives [userId] and [country] and ends the loop. *)
Fixpoint scan (maybe : value) (username : string) (keys : list text)
  : exn + option (value * value) :=
  match keys with
  | nil => inr None
  | k :: rest =>
      let u := get_text maybe k in
      match uniqueId_is u username with
      | inl e => inl e
      | inr true => inr (Some (id_of u, region_of u))
      | inr false => scan maybe username rest
      end
  end.

(** [userId] and [country] after the block that reads the state document. *)
Definition lookup (html username : string) : exn + (value * value) :=
  match Markup.match_info html with
  | Some text =>
      if negb (JsString.is_empty text) then
        let data := safeJsonParse text in
        let maybe :=
          or (or (opt_get (opt_get data "UserModule") "users")
                 (opt_get (opt_get data "UserPage") "users")) VNull in
        let found : exn + (value * value) :=
          if truthy maybe then
            let direct := or (get maybe username) (get maybe ("@" +:+ username)) in
            if truthy direct then inr (id_of direct, region_of direct)
            else
              match scan maybe username (keys maybe) with
              | inl e => inl e
              | inr (Some p) => inr p
              | inr None => inr (VNull, VNull)
              end
          else inr (VNull, VNull) in
        match found with
        | inl e => inl e
        | inr (userId, country) =>
            inr (userId, if truthy country then country else pickCountryFromText text)
        end
      else inr (VNull, VNull)
  | None => inr (VNull, VNull)
  end.

(** [x ? String(x) : null] *)
Definition text_or_null (x : value) : exn + value :=
  if truthy x then
    match ToString x with
    | Some t => inr (of_text t)
    | None => inl not_primitive
    end
  else inr VNull.

(** [dataOut] *)
Definition dataOut (username : string) (userId country : value)
  : exn + list (string * value) :=
  match text_or_null userId, text_or_null country with
  | inr i, inr c =>
      inr (("username", VStr username) :: ("userId", i) :: ("country", c)
           :: ("source", VStr "SIGI_STATE") :: nil)
  | inl e, _ => inl e
  | _, inl e => inl e
  end.

Definition server_error (detail : exn) : response :=
  Response 500 cors (Some (("error", VStr "Server error") :: ("detail", VStr detail) :: nil)).

(** [String(e)] for an error with that name and message. *)
Definition error_text (name message : string) : exn :=
  if JsString.is_empty name then message
  else if JsString.is_empty message then name
  else name +:+ ": " +:+ message.

(** The cache read: the entry under [key] when it is there and fresh.  The
    clock is read only when an entry is there. *)
Definition cache_get (key : string) : M (option cache_entry) := fun w =>
  match cache w !! key with
  | Some hit =>
      let '(t, w') := Date_now w in
      (if t - ts hit <? TTL_MS then Some hit else None, w')
  | None => (None, w)
  end.

(** [cache.set(key, { ts: Date.now(), data })] *)
Definition cache_set (key : string) (d : list (string * value)) : M unit := fun w =>
  let '(t, w') := Date_now w in
  (tt, with_cache (<[ key := CacheEntry t d ]> (cache w')) w').

Definition profile_url (username : string) : string :=
  "https://www.tiktok.com/@" +:+ JsString.encodeURIComponent username.

(** The answer from the cache: [{ ...hit.data, cached: true }]. *)
Definition hit_response (h : cache_entry) : response :=
  Response 200 cors (Some (obj_set (data h) "cached" (VBool true))).

(** The rest of the route after the cache gave nothing: the fetch, the
    lookup, the write to the cache and the answer. *)
Definition after_miss (username : string) : M response :=
  r ← fetch (profile_url username);
  match r with
  | NetworkError name message => mret (server_error (error_text name message))
  | Page code html =>
      if negb ((200 <=? code) && (code <=? 299)) then
        mret (Response code cors
                (Some (("username", VStr username)
                       :: ("error", VStr ("TikTok HTTP " +:+ JsString.of_int code))
                       :: ("userId", VNull) :: ("country", VNull)
                       :: ("source", VStr "tiktok") :: nil)))
      else
        match lookup html username with
        | inl e => mret (server_error e)
        | inr (userId, country) =>
            match dataOut username userId country with
            | inl e => mret (server_error e)
            | inr d =>
                _ ← cache_set (key_of username) d;
                mret (Response 200
                        (cors ++ ("Cache-Control", "s-maxage=3600, stale-while-revalidate=86400") :: nil)
                        (Some d))
            end
        end
  end.

Definition handler (req : request) : M response :=
  if String.eqb (method req) "OPTIONS" then mret (Response 204 cors None)
  else
    let username := username_of (query_username req) in
    if JsString.is_empty username
    then mret (Response 400 cors (Some (("error", VStr "Missing username") :: nil)))
    else
      hit ← cache_get (key_of username);
      match hit with
      | Some h => mret (hit_response h)
      | None => after_miss username
      end.

(** A request that gets past the method and the name tests, with the name
    the route works with. *)
Definition asks_for (req : request) (username : string) : Prop :=
  String.eqb (method req) "OPTIONS" = false
  /\ username_of (query_username req) = username
  /\ username <> EmptyString.

End UserInfo.

(** ** The start-comments route and its chat listener *)

Module StartComments.
Import Js Http Sys.

(** The largest number of entries a log keeps. *)
Definition LOG_CAP : Z := 10000.

(** [data] of a chat event, as far as the listener reads it. *)
Record chat_data : Type := ChatData {
  uniqueId : value;
  nickname : value;
  chat_comment : value }.

(** [arr.shift()] *)
Definition shift {A : Type} (l : list A) : list A := tl l.

(** The three statements of the listener on the array it found:
    [push], then one [shift] when the length exceeds 10000. *)
Definition push_capped (l : list log_entry) (e : log_entry) : list log_entry :=
  let l' := l ++ e :: nil in
  if LOG_CAP <? Z.of_nat (length l') then shift l' else l'.

(** The object pushed for the event [d] when the clock shows [t]. *)
Definition entry_of (t : Z) (d : chat_data) : log_entry :=
  LogEntry (JsDate.toISOString t) (or (uniqueId d) (nickname d)) (chat_comment d).

(** The function given to [connection.on('chat', ...)] for [user].  [None]
    stands for a TypeError inside the listener: [global.commentLogs] is
    undefined, or [global.commentLogs[user]] is an inherited member, which
    has no [push]. *)
Definition listener (user : string) (d : chat_data) (w : World) : option World :=
  match commentLogs w with
  | None => None
  | Some logs =>
      match dict_get logs user with
      | Inherited => None
      | found =>
          let l := match found with Own l => l | _ => nil end in
          let '(t, w1) := Date_now w in
          Some (with_commentLogs (Some (<[ user := push_capped l (entry_of t d) ]> logs)) w1)
      end
  end.

(** A chat event of the connection stored for [user]: its listener runs.
    Without a stored connection there is no listener and nothing happens. *)
Definition chat (user : string) (d : chat_data) (w : World) : option World :=
  match commentWatchers w with
  | Some watchers =>
      match watchers !! user with
      | Some _ => listener user d w
      | None => Some w
      end
  | None => Some w
  end.

(** The chat events [ds] of that connection, one after the other. *)
Fixpoint chats (user : string) (ds : list chat_data) (w : World) : option World :=
  match ds with
  | nil => Some w
  | d :: rest =>
      match chat user d w with
      | Some w' => chats user rest w'
      | None => None
      end
  end.

(** The entries these events give when the clock has been read [n] times
    before the first of them. *)
Fixpoint entries_from (o : Outside) (n : nat) (ds : list chat_data) : list log_entry :=
  match ds with
  | nil => nil
  | d :: rest => entry_of (now o n) d :: entries_from o (S n) rest
  end.

(** [if (!global.commentWatchers) ...; if (!global.commentLogs) ...] *)
Definition init_globals : M (gmap string connection * gmap string (list log_entry)) := fun w =>
  let watchers := match commentWatchers w with Some m => m | None => ∅ end in
  let logs := match commentLogs w with Some m => m | None => ∅ end in
  ((watchers, logs), with_commentLogs (Some logs) (with_commentWatchers (Some watchers) w)).

Definition set_log (user : string) (l : list log_entry) : M unit := fun w =>
  (tt, with_commentLogs (Some (<[ user := l ]> (default ∅ (commentLogs w)))) w).

Definition set_watcher (user : string) (c : connection) : M unit := fun w =>
  (tt, with_commentWatchers (Some (<[ user := c ]> (default ∅ (commentWatchers w)))) w).

(** [global.commentWatchers[user]] as a condition: the route takes a
    watcher to exist for [user]. *)
Definition watcher_exists (w : World) (user : string) : bool :=
  found_truthy (dict_get (default ∅ (commentWatchers w)) user).

Definition message (code : Z) (text : string) : response :=
  json code (("message", VStr text) :: nil).

Definition handler (req : request) : M response :=
  match Account.valid_username (query_username req) with
  | None => mret Account.bad_request
  | Some username =>
      let user := Account.user_of username in
      '(watchers, _) ← init_globals;
      if found_truthy (dict_get watchers user)
      then mret (message 200 "Listener already running")
      else
        _ ← set_log user nil;
        failure ← connect_chat user;
        match failure with
        | Some msg => mret (json 500 (("error", VStr ("Failed to connect: " +:+ msg)) :: nil))
        | None =>
            _ ← set_watcher user (Connection user);
            mret (message 200 "Comment listener started")
        end
  end.

End StartComments.

(** ** [getLogs.js] *)

Module GetLogs.
Import Js Http Sys.

Definition entry_value (e : log_entry) : value :=
  VObj (("timestamp", VStr (timestamp e)) :: ("user", user e) :: ("comment", comment e) :: nil).

(** [(global.commentLogs && global.commentLogs[user]) || []] *)
Definition logs_of (user : string) (w : World) : value :=
  match commentLogs w with
  | Some logs =>
      match dict_get logs user with
      | Own l => VArr (map entry_value l)
      | Inherited => VBuiltin
      | Missing => VArr nil
      end
  | None => VArr nil
  end.

Definition handler (req : request) : M response :=
  match Account.valid_username (query_username req) with
  | None => mret Account.bad_request
  | Some username =>
      let user := Account.user_of username in
      fun w => (json 200 (("logs", logs_of user w) :: nil), w)
  end.

End GetLogs.

(** ** [record.js] *)

Module Record.
Import Js Http Sys.

(** [['uhd', 'hd', 'sd', 'ld']] *)
Definition qualities : list string := "uhd" :: "hd" :: "sd" :: "ld" :: nil.

(** [streams[quality] && streams[quality].main && streams[quality].main.flv]
    as a condition, for [streams] that is neither [null] nor [undefined]. *)
Definition usable (streams : value) (quality : string) : bool :=
  truthy (get streams quality)
  && truthy (get (get streams quality) "main")
  && truthy (get (get (get streams quality) "main") "flv").

(** [streams[quality].main.flv] *)
Definition flv_of (streams : value) (quality : string) : value :=
  get (get (get streams quality) "main") "flv".

(** The [for (const quality of ...)] loop: the quality at which it breaks
    and the value then held by [flvUrl]; [None] when it runs to its end. *)
Fixpoint select_from (streams : value) (tiers : list string) : option (string * value) :=
  match tiers with
  | nil => None
  | quality :: rest =>
      if usable streams quality then Some (quality, flv_of streams quality)
      else select_from streams rest
  end.

Definition select (streams : value) : option (string * value) :=
  select_from streams qualities.

(** [flvUrl] after the loop. *)
Definition flvUrl_of (streams : value) : value :=
  match select streams with
  | Some (_, url) => url
  | None => VNull
  end.

Definition failed (reason : string) : outcome :=
  Sent (json 500 (("error", VStr reason) :: nil)).

(** [data?.LiveRoom?.liveRoomUserInfo?.liveRoom?.streamData?.pull_data?.stream_data] *)
Definition stream_data (data : value) : value :=
  opt_get (opt_get (opt_get (CheckLive.liveRoom data) "streamData") "pull_data") "stream_data".

(** [JSON.parse(raw).data] inside its [try]: [None] when the conversion of
    [raw] to a string, the parse, or the read of [data] from [null] throws. *)
Definition streams_of (raw : value) : option value :=
  match ToString raw with
  | Some text =>
      match Json.parse_text text with
      | Some parsed => if nullish parsed then None else Some (get parsed "data")
      | None => None
      end
  | None => None
  end.

(** The message of the TypeError of [streams[quality]] on a missing
    [streams]. *)
Definition cannot_read (streams : value) : string :=
  "Cannot read properties of "
  +:+ (match streams with VNull => "null" | _ => "undefined" end)
  +:+ " (reading 'uhd')".

(** [err.message] of the rejection of [runFfmpeg], [None] when it resolves. *)
Definition ffmpeg_error (e : exit) : option string :=
  match e with
  | Closed (Some 0) => None
  | Closed (Some code) => Some ("ffmpeg exited with code " +:+ JsString.of_int code)
  | Closed None => Some "ffmpeg exited with code null"
  | SpawnFailed message => Some message
  end.

(** [runFfmpeg(args)], [output] being the path named last in [args]. *)
Definition runFfmpeg (args : list value) (output : string) : M (option string) :=
  e ← spawn_ffmpeg args output;
  mret (ffmpeg_error e).

Definition download_args (flvUrl : value) (videoPath : string) : list value :=
  VStr "-y" :: VStr "-i" :: flvUrl :: VStr "-c" :: VStr "copy" :: VStr videoPath :: nil.

Definition audio_args (videoPath audioPath : string) : list value :=
  VStr "-y" :: VStr "-i" :: VStr videoPath :: VStr "-vn" :: VStr "-acodec"
  :: VStr "pcm_s16le" :: VStr "-ar" :: VStr "44100" :: VStr "-ac" :: VStr "2"
  :: VStr audioPath :: nil.

(** [if (!fs.existsSync(dir)) fs.mkdirSync(dir, { recursive: true })] *)
Definition ensure_dir (dir : string) : M (option string) :=
  present ← existsSync dir;
  match present with
  | true => mret None
  | false => mkdirSync dir
  end.

(** The two ffmpeg stages and the final response. *)
Definition capture (user : string) (flvUrl : value) (recordingsDir audioDir : string)
  : M outcome :=
  timestamp ← Date_now;
  let name := user +:+ "_" +:+ JsString.of_int timestamp in
  let videoPath := Path.join recordingsDir (name +:+ ".mp4") in
  let audioPath := Path.join audioDir (name +:+ ".wav") in
  download ← runFfmpeg (download_args flvUrl videoPath) videoPath;
  match download with
  | Some message => mret (failed ("Download failed: " +:+ message))
  | None =>
      audio ← runFfmpeg (audio_args videoPath audioPath) audioPath;
      match audio with
      | Some message => mret (failed ("Audio extraction failed: " +:+ message))
      | None =>
          mret (Sent (json 200 (("message", VStr "Recording complete")
                                :: ("flvUrl", flvUrl) :: ("videoPath", VStr videoPath)
                                :: ("audioPath", VStr audioPath) :: nil)))
      end
  end.

(** From the markup to [streams]: the match, the two parses and the tests
    between them; [inl reason] where the route answers 500 with [reason]. *)
Definition resolve_streams (html : string) : string + value :=
  match Markup.match_live html with
  | None => inl "SIGI_STATE missing"
  | Some text =>
      if JsString.is_empty text then inl "SIGI_STATE missing"
      else
        match Json.parse text with
        | None => inl "Failed to parse SIGI_STATE"
        | Some data =>
            let raw := stream_data data in
            if negb (truthy raw) then inl "No stream data found"
            else
              match streams_of raw with
              | None => inl "Failed to parse stream data"
              | Some streams => inr streams
              end
        end
  end.

(** The body of the outer [try], after the two directories exist. *)
Definition record (user recordingsDir audioDir : string) : M outcome :=
  r ← fetch (CheckLive.live_url user);
  match r with
  | NetworkError _ message => mret (failed message)
  | Page _ html =>
      match resolve_streams html with
      | inl reason => mret (failed reason)
      | inr streams =>
          if nullish streams then mret (failed (cannot_read streams))
          else
            let flvUrl := flvUrl_of streams in
            if negb (truthy flvUrl) then mret (failed "No FLV stream available")
            else capture user flvUrl recordingsDir audioDir
      end
  end.

Definition handler (req : request) : M outcome :=
  if negb (String.eqb (method req) "POST")
  then mret (Sent (json 405 (("error", VStr "Method not allowed") :: nil)))
  else
    match Account.valid_username (query_username req) with
    | None => mret (Sent Account.bad_request)
    | Some username =>
        let user := Account.user_of username in
        fun w =>
          let recordingsDir := Path.join (cwd (outside w)) "recordings" in
          let audioDir := Path.join (cwd (outside w)) "audio" in
          let '(e1, w1) := ensure_dir recordingsDir w in
          match e1 with
          | Some message => (Uncaught message, w1)
          | None =>
              let '(e2, w2) := ensure_dir audioDir w1 in
              match e2 with
              | Some message => (Uncaught message, w2)
              | None => record user recordingsDir audioDir w2
              end
          end
    end.

End Record.

(** ** Notions of the specification *)

Module Spec.

(** The cap of a log as a number of elements. *)
Definition cap : nat := Z.to_nat StartComments.LOG_CAP.

(** The last [n] elements of a sequence, in their order. *)
Definition last_n {A : Type} (n : nat) (l : list A) : list A :=
  skipn (length l - n) l.

(** The offsets at which [p] occurs in [s], counted from [i]. *)
Fixpoint positions_from (p s : string) (i : nat) : list nat :=
  let here :=
    match JsString.strip_prefix p s with
    | Some _ => i :: nil
    | None => nil
    end in
  match s with
  | EmptyString => here
  | String _ r => here ++ positions_from p r (S i)
  end.

(** The offsets at which [p] occurs in [s]. *)
Definition positions (p s : string) : list nat := positions_from p s 0.


(** The [username] field of an answer. *)
Definition username_field (r : Http.response) : option Js.value :=
  match Http.body r with
  | Some o => Js.assoc "username" o
  | None => None
  end.

(** Two names with one cache key are answered with one [username]. *)
Definition same_key_same_username (handler : Http.request -> Sys.M Http.response) : Prop :=
  forall (q1 q2 : Http.query_value) (w : Sys.World),
    UserInfo.key_of (UserInfo.username_of q1) = UserInfo.key_of (UserInfo.username_of q2) ->
    username_field (fst (handler (Http.Request "GET" q1) w))
    = username_field (fst (handler (Http.Request "GET" q2) w)).



(** The stages of a capture. *)
Inductive stage : Type := Fetch | Resolve | Selection | Download | Audio.


(** The stage that a reason written by the capture route names: one of the
    four reasons of the resolve stage; the reason of a selection that finds
    no tier, or the message of the TypeError of a selection from a missing
    manifest; the prefix of a failed download or of a failed audio
    extraction.  [None] for every other text. *)
Definition stage_of_reason (reason : string) : option stage :=
  if existsb (String.eqb reason)
             ("SIGI_STATE missing" :: "Failed to parse SIGI_STATE"
              :: "No stream data found" :: "Failed to parse stream data" :: nil)
  then Some Resolve
  else if existsb (String.eqb reason)
                  ("No FLV stream available" :: Record.cannot_read Js.VUndefined
                   :: Record.cannot_read Js.VNull :: nil)
  then Some Selection
  else
    match JsString.strip_prefix "Download failed: " reason with
    | Some _ => Some Download
    | None =>
        match JsString.strip_prefix "Audio extraction failed: " reason with
        | Some _ => Some Audio
        | None => None
        end
    end.

(** The characters of a string. *)
Fixpoint chars (s : string) : list ascii :=
  match s with
  | EmptyString => nil
  | String c r => c :: chars r
  end.

End Spec.

(** ** Sample worlds for the scenarios *)

Module Scenario.
Import Js Http Sys.

(** A page whose state document is on one line: the room is live, the
    manifest offers the tiers uhd and hd, the user table knows [foo]. *)
Definition live_page : string := JsString.dq
  "<html><script id='SIGI_STATE' type='application/json'>{'LiveRoom':{'liveRoomUserInfo':{'liveRoom':{'status':2,'roomId':'123','streamData':{'pull_data':{'stream_data':'{\'data\':{\'uhd\':{\'main\':{\'flv\':\'u\'}},\'hd\':{\'main\':{\'flv\':\'h\'}}}}'}}}}},'UserModule':{'users':{'foo':{'id':'42','region':'FR','uniqueId':'foo'}}}}</script></html>".


(** A state document written on several lines, and a page that embeds it. *)
Definition multiline_document : string := JsString.dq
  "{
 'LiveRoom':{'liveRoomUserInfo':{'liveRoom':{'status':2,'roomId':'123'}}},
 'UserModule':{'users':{'foo':{'id':'42','region':'FR','uniqueId':'foo'}}}
}".

Definition multiline_page : string :=
  "<html>" +:+ Markup.json_open_tag +:+ multiline_document +:+ Markup.close_tag +:+ "</html>".

(** A page whose state document writes two texts with escapes of code
    units above 255. *)
Definition escaped_page : string := JsString.dq
  "<html><script id='SIGI_STATE' type='application/json'>{'LiveRoom':{'liveRoomUserInfo':{'liveRoom':{'status':2,'roomId':'123','title':'\u4e2d\u6587'}}},'UserModule':{'users':{'foo':{'id':'42','region':'\u4e2d','uniqueId':'foo'}}}}</script></html>".

(** A page without a state document. *)
Definition plain_page : string := "<html><body>offline</body></html>".

Definition succeeds : process_outcome := ProcessOutcome (Closed (Some 0)) false.
Definition exits_1 : process_outcome := ProcessOutcome (Closed (Some 1)) false.

(** An outside that serves [page] for every URL; its n-th ffmpeg run ends
    as [runs] says (and succeeds beyond the list); the clock starts at
    2023-11-14T22:13:20Z and advances by one second per reading. *)
Definition serving (page : string) (runs : list process_outcome) : Outside :=
  {| now := fun n => 1700000000000 + 1000 * Z.of_nat n;
     upstream := fun _ _ => Page 200 page;
     ffmpeg := fun n _ => nth n runs succeeds;
     connect := fun _ _ => None;
     mkdir := fun _ => None;
     cwd := "/app" |}.

(** The same outside with a clock that advances by seven hours per
    reading. *)
Definition seven_hours_apart (o : Outside) : Outside :=
  {| now := fun n => 1700000000000 + 25200000 * Z.of_nat n;
     upstream := upstream o; ffmpeg := ffmpeg o; connect := connect o;
     mkdir := mkdir o; cwd := cwd o |}.


(** The [dataOut] of the account [foo] of [live_page]. *)
Definition foo_data : list (string * value) :=
  ("username", VStr "foo") :: ("userId", VStr "42") :: ("country", VStr "FR")
  :: ("source", VStr "SIGI_STATE") :: nil.

(** A fresh process in front of that outside. *)
Definition fresh (o : Outside) : World :=
  {| outside := o; clock_reads := 0; fetched := nil; spawned := nil;
     connects := nil; files := ∅; cache := ∅;
     commentWatchers := None; commentLogs := None |}.

(** Fresh processes in front of the live page and of the page whose
    manifest has the tier hd only. *)
Definition live_world : World := fresh (serving live_page nil).

Definition get_request (username : string) : request := Request "GET" (QString username).
Definition post_request (username : string) : request := Request "POST" (QString username).

Definition hello : StartComments.chat_data :=
  StartComments.ChatData (VStr "bob") VUndefined (VStr "hi").

End Scenario.


(** ** Notions used to state further properties of the routes *)

Module Props.
Import Js Http Sys.

(** A string made of white space only. *)
Definition white (s : string) : bool :=
  forallb JsString.is_white_space (Spec.chars s).

(** A character that keeps its meaning inside one segment of a URL path:
    an unreserved character, or the percent sign of an escape. *)
Definition segment_char (c : ascii) : bool :=
  JsString.uri_unreserved c || Ascii.eqb c "%"%char.

(** The value is [null] or a string. *)
Definition null_or_text (v : value) : Prop :=
  v = VNull \/ (exists s : string, v = VStr s) \/ (exists l : list Z, v = VWide l).

(** [d] is a [dataOut] object for [username]. *)
Definition result_of (username : string) (d : list (string * value)) : Prop :=
  exists userId country : value,
    d = ("username", VStr username) :: ("userId", userId) :: ("country", country)
        :: ("source", VStr "SIGI_STATE") :: nil
    /\ null_or_text userId /\ null_or_text country.

(** Every entry of the cache holds a [dataOut] object for a name whose
    lower-cased form is the key of the entry. *)
Definition cache_consistent (c : gmap string cache_entry) : Prop :=
  forall (k : string) (h : cache_entry),
    c !! k = Some h ->
    exists username : string, result_of username (data h) /\ UserInfo.key_of username = k.

(** Every log of the process holds at most 10000 entries. *)
Definition logs_bounded (w : World) : Prop :=
  forall (logs : gmap string (list log_entry)) (u : string) (l : list log_entry),
    commentLogs w = Some logs -> logs !! u = Some l ->
    Z.of_nat (length l) <= StartComments.LOG_CAP.

(** Every log that holds an entry belongs to an account with a stored
    connection. *)
Definition logs_have_listeners (w : World) : Prop :=
  forall (logs : gmap string (list log_entry)) (u : string) (l : list log_entry),
    commentLogs w = Some logs -> logs !! u = Some l -> l <> nil ->
    exists (watchers : gmap string connection) (c : connection),
      commentWatchers w = Some watchers /\ watchers !! u = Some c.

(** A string without a slash. *)
Definition no_slash (s : string) : bool :=
  forallb (fun c => negb (Ascii.eqb c "/"%char)) (Spec.chars s).

(** A segment that [path.normalize] keeps as it is. *)
Definition plain_segment (s : string) : bool :=
  no_slash s && negb (JsString.is_empty s) && negb (String.eqb s ".")
  && negb (String.eqb s "..").

(** The absolute path made of the segments [segs]. *)
Fixpoint absolute (segs : list string) : string :=
  match segs with
  | nil => EmptyString
  | s :: r => "/" +:+ s +:+ absolute r
  end.

(** Parts of the state of the process that a step leaves as they were:
    the cache of the user-info route; the logs, the stored connections and
    the connection attempts of the chat routes; the files and the ffmpeg
    runs of the record route; the pages fetched. *)
Definition keeps_cache (w w' : World) : Prop := cache w' = cache w.

Definition keeps_chat (w w' : World) : Prop :=
  commentLogs w' = commentLogs w /\ commentWatchers w' = commentWatchers w
  /\ connects w' = connects w.

Definition keeps_files (w w' : World) : Prop :=
  files w' = files w /\ spawned w' = spawned w.

Definition keeps_fetched (w w' : World) : Prop := fetched w' = fetched w.

(** What the steps of the record route keep: the cache, the chat logs and
    connections and the answers of the outside; and no file goes. *)
Definition steady (w w' : World) : Prop :=
  keeps_cache w w' /\ keeps_chat w w' /\ outside w' = outside w
  /\ files w ⊆ files w'.

End Props.

(** ** More sample worlds *)

Module Cases.
Import Js Http Sys.

(** The same outside on a disk that cannot be written: every
    [mkdirSync] throws. *)
Definition read_only (o : Outside) : Outside :=
  {| now := now o; upstream := upstream o; ffmpeg := ffmpeg o; connect := connect o;
     mkdir := fun _ => Some "EROFS: read-only file system"; cwd := cwd o |}.

(** A fresh process on such a disk, in front of the live page. *)
Definition read_only_world : World :=
  Scenario.fresh (read_only (Scenario.serving Scenario.live_page nil)).




End Cases.


(** * Properties *)

(** ** The bounded event log *)

Section EventLog.
Import Sys StartComments.
Local Abbreviation cap := Spec.cap.

Lemma cap_positive : (0 < cap)%nat.
Proof. unfold Spec.cap, LOG_CAP. lia. Qed.

Lemma cap_Z : Z.of_nat cap = LOG_CAP.
Proof. unfold Spec.cap, LOG_CAP. lia. Qed.

Lemma tl_skipn {A : Type} (k : nat) (l : list A) : tl (skipn k l) = skipn (S k) l.
Proof.
  revert l. induction k as [|k IH]; intros [|x l]; simpl; auto.
Qed.

Lemma tl_app_nonempty {A : Type} (l r : list A) : l <> nil -> tl (l ++ r) = tl l ++ r.
Proof. destruct l; [congruence | reflexivity]. Qed.

(** One append: below the cap the entry is added, at the cap the oldest
    entry leaves as well. *)
Lemma push_capped_cases (l : list log_entry) (e : log_entry) :
  push_capped l e =
  if LOG_CAP <=? Z.of_nat (length l) then tl l ++ e :: nil else l ++ e :: nil.
Proof.
  unfold push_capped, shift. rewrite length_app. simpl length.
  pose proof cap_Z as Hc. pose proof cap_positive as Hp.
  destruct (Z.ltb_spec LOG_CAP (Z.of_nat (length l + 1)));
    destruct (Z.leb_spec LOG_CAP (Z.of_nat (length l))); try lia; auto.
  apply tl_app_nonempty. destruct l; simpl in *; [lia | congruence].
Qed.

Lemma push_capped_length (l : list log_entry) (e : log_entry) :
  Z.of_nat (length l) <= LOG_CAP -> Z.of_nat (length (push_capped l e)) <= LOG_CAP.
Proof.
  intros H. rewrite push_capped_cases.
  pose proof cap_Z as Hc. pose proof cap_positive as Hp.
  destruct (Z.leb_spec LOG_CAP (Z.of_nat (length l))).
  - rewrite length_app. simpl. destruct l; simpl in *; lia.
  - rewrite length_app. simpl. lia.
Qed.

Lemma last_n_length {A : Type} (n : nat) (l : list A) :
  length (Spec.last_n n l) = Nat.min n (length l).
Proof. unfold Spec.last_n. rewrite length_skipn. lia. Qed.

Lemma last_n_short {A : Type} (n : nat) (l : list A) :
  (length l <= n)%nat -> Spec.last_n n l = l.
Proof. intros H. unfold Spec.last_n. replace (length l - n)%nat with 0%nat by lia. reflexivity. Qed.

(** The retained sequence after one more append is the last [cap] of
    everything appended. *)
Lemma push_capped_last_n (all : list log_entry) (e : log_entry) :
  push_capped (Spec.last_n cap all) e = Spec.last_n cap (all ++ e :: nil).
Proof.
  rewrite push_capped_cases. pose proof cap_Z as Hc. pose proof cap_positive as Hp.
  rewrite last_n_length.
  destruct (Z.leb_spec LOG_CAP (Z.of_nat (Nat.min cap (length all)))).
  - unfold Spec.last_n. rewrite tl_skipn, length_app. simpl length.
    replace (length all + 1 - cap)%nat with (S (length all - cap)) by lia.
    rewrite skipn_app.
    replace (S (length all - cap) - length all)%nat with 0%nat by lia.
    reflexivity.
  - rewrite last_n_short by lia. rewrite last_n_short; [reflexivity|].
    rewrite length_app. simpl. lia.
Qed.

Lemma fold_push_capped (es all : list log_entry) :
  fold_left push_capped es (Spec.last_n cap all) = Spec.last_n cap (all ++ es).
Proof.
  revert all. induction es as [|e es IH]; intros all; simpl.
  - rewrite app_nil_r. reflexivity.
  - rewrite push_capped_last_n, IH, <- app_assoc. reflexivity.
Qed.

Lemma listener_own (w : World) (logs : gmap string (list log_entry))
      (user : string) (l : list log_entry) (d : chat_data) :
  commentLogs w = Some logs -> logs !! user = Some l ->
  listener user d w =
  Some (with_commentLogs
          (Some (<[ user := push_capped l (entry_of (now (outside w) (clock_reads w)) d) ]> logs))
          (with_clock_reads (S (clock_reads w)) w)).
Proof.
  intros Hlogs Hl. unfold listener, dict_get. rewrite Hlogs, Hl. reflexivity.
Qed.

Lemma chats_run (user : string) (ds : list chat_data) :
  forall (w : World) (watchers : gmap string connection) (c : connection)
         (logs : gmap string (list log_entry)) (all : list log_entry),
    commentWatchers w = Some watchers -> watchers !! user = Some c ->
    commentLogs w = Some logs -> logs !! user = Some (Spec.last_n cap all) ->
    exists (w' : World) (logs' : gmap string (list log_entry)),
      chats user ds w = Some w'
      /\ commentLogs w' = Some logs'
      /\ logs' !! user
         = Some (Spec.last_n cap (all ++ entries_from (outside w) (clock_reads w) ds))
      /\ forall u : string, u <> user -> logs' !! u = logs !! u.
Proof.
  induction ds as [|d ds IH]; intros w watchers c logs all Hw Hc Hlogs Hl.
  - exists w, logs. simpl. rewrite app_nil_r. auto.
  - simpl. unfold chat. rewrite Hw, Hc.
    rewrite (listener_own w logs user _ d Hlogs Hl).
    rewrite push_capped_last_n.
    set (e := entry_of (now (outside w) (clock_reads w)) d).
    set (w1 := with_commentLogs _ _).
    destruct (IH w1 watchers c (<[ user := Spec.last_n cap (all ++ e :: nil) ]> logs)
                (all ++ e :: nil)) as (w' & logs' & Hrun & Hlogs' & Huser & Hother).
    + exact Hw.
    + exact Hc.
    + reflexivity.
    + apply lookup_insert_eq.
    + exists w', logs'. split; [exact Hrun|]. split; [exact Hlogs'|]. split.
      * rewrite Huser. simpl. rewrite <- app_assoc. reflexivity.
      * intros u Hu. rewrite Hother by exact Hu. apply lookup_insert_ne. congruence.
Qed.

Lemma entries_from_length (o : Outside) (ds : list chat_data) :
  forall n : nat, length (entries_from o n ds) = length ds.
Proof. induction ds as [|d ds IH]; intros n; simpl; [reflexivity | rewrite IH; reflexivity]. Qed.


(** C3.  For the account of a stored connection whose log holds at most
    10000 entries, any sequence of chat events leaves in that log exactly
    the last 10000 of the old entries followed by the new ones, in their
    order (so the oldest leave first and the log never holds more than
    10000); the other logs do not change.  From an empty log and more than
    10000 events, these are the last 10000 entries appended. *)
Theorem event_log_keeps_last_10000
    (w : World) (watchers : gmap string connection) (c : connection)
    (logs : gmap string (list log_entry)) (user : string)
    (l : list log_entry) (ds : list chat_data) :
  commentWatchers w = Some watchers -> watchers !! user = Some c ->
  commentLogs w = Some logs -> logs !! user = Some l ->
  Z.of_nat (length l) <= LOG_CAP ->
  let appended := entries_from (outside w) (clock_reads w) ds in
  let retained := Spec.last_n cap (l ++ appended) in
  exists (w' : World) (logs' : gmap string (list log_entry)),
    chats user ds w = Some w'
    /\ commentLogs w' = Some logs'
    /\ logs' !! user = Some retained
    /\ Z.of_nat (length retained) <= LOG_CAP
    /\ (l = nil -> LOG_CAP < Z.of_nat (length ds) ->
        retained = Spec.last_n cap appended /\ Z.of_nat (length retained) = LOG_CAP)
    /\ forall u : string, u <> user -> logs' !! u = logs !! u.
Proof.
  intros Hw Hc Hlogs Hl Hlen appended retained.
  pose proof cap_Z as HcZ.
  assert (Hlast : Spec.last_n cap l = l) by (apply last_n_short; lia).
  rewrite <- Hlast in Hl.
  destruct (chats_run user ds w watchers c logs l Hw Hc Hlogs Hl)
    as (w' & logs' & Hrun & Hlogs' & Huser & Hother).
  exists w', logs'. split; [exact Hrun|]. split; [exact Hlogs'|].
  split; [exact Huser|]. split.
  - subst retained. rewrite last_n_length. lia.
  - split; [|exact Hother].
    intros -> Hmany. subst retained. simpl. split; [reflexivity|].
    rewrite last_n_length. subst appended. rewrite entries_from_length. lia.
Qed.

(** After a successful start and three chat events the log holds the
    three entries. *)
Lemma event_log_keeps_last_10000_witness :
  let w := snd (handler (Scenario.get_request "@foo")
                        (Scenario.fresh (Scenario.serving Scenario.plain_page nil))) in
  let ds := Scenario.hello :: Scenario.hello :: Scenario.hello :: nil in
  exists (w' : World) (logs' : gmap string (list log_entry)),
    chats "foo" ds w = Some w'
    /\ commentLogs w' = Some logs'
    /\ logs' !! "foo" = Some (Spec.last_n cap (entries_from (outside w) (clock_reads w) ds))
    /\ Z.of_nat (length (Spec.last_n cap (entries_from (outside w) (clock_reads w) ds))) <= LOG_CAP.
Proof.
  intros w ds.
  destruct (event_log_keeps_last_10000 w {[ "foo" := Connection "foo" ]} (Connection "foo")
              {[ "foo" := nil ]} "foo" nil ds)
    as (w' & logs' & H1 & H2 & H3 & H4 & _).
  - vm_compute. reflexivity.
  - vm_compute. reflexivity.
  - vm_compute. reflexivity.
  - vm_compute. reflexivity.
  - unfold LOG_CAP. simpl. lia.
  - exists w', logs'. auto.
Defined.

End EventLog.


(** ** Quality selection *)

Section QualitySelection.
Import Js Record.

(** A read of [main] or [flv] that finds something comes from a truthy
    value: the falsy values have neither. *)
Lemma get_main_truthy (x : value) : truthy (get x "main") = true -> truthy x = true.
Proof. destruct x as [| |[|]|n|s|l|o| |[|u l]|o]; simpl; try discriminate; auto;
       destruct s; simpl; auto; discriminate. Qed.

Lemma get_flv_truthy (x : value) : truthy (get x "flv") = true -> truthy x = true.
Proof. destruct x as [| |[|]|n|s|l|o| |[|u l]|o]; simpl; try discriminate; auto;
       destruct s; simpl; auto; discriminate. Qed.

(** The three-part condition of the loop holds exactly when the [flv] it
    ends on is truthy. *)
Lemma usable_flv (streams : value) (quality : string) :
  usable streams quality = truthy (flv_of streams quality).
Proof.
  unfold usable, flv_of.
  destruct (truthy (get (get (get streams quality) "main") "flv")) eqn:Hf.
  - pose proof (get_flv_truthy _ Hf) as Hm.
    pose proof (get_main_truthy _ Hm) as Hv.
    rewrite Hm, Hv. reflexivity.
  - rewrite andb_false_r. reflexivity.
Qed.

Lemma truthy_string (s : string) : truthy (VStr s) = true <-> s <> EmptyString.
Proof. destruct s; simpl; split; congruence. Qed.

Lemma select_from_Some (streams : value) (tiers : list string) (q : string) (u : value) :
  select_from streams tiers = Some (q, u) <->
  exists before after : list string,
    tiers = before ++ q :: after
    /\ (forall t : string, In t before -> truthy (flv_of streams t) = false)
    /\ truthy u = true /\ u = flv_of streams q.
Proof.
  induction tiers as [|t tiers IH]; simpl.
  - split; [discriminate|]. intros (before & after & H & _). destruct before; discriminate.
  - rewrite usable_flv. destruct (truthy (flv_of streams t)) eqn:Ht.
    + split.
      * intros [= <- <-]. exists nil, tiers. simpl. repeat split; auto. intros ? [].
      * intros (before & after & Heq & Hb & Hu & ->).
        destruct before as [|b before]; simpl in Heq.
        -- injection Heq as -> _. reflexivity.
        -- injection Heq as <- _. rewrite (Hb t) in Ht by (left; reflexivity). discriminate.
    + rewrite IH. split.
      * intros (before & after & -> & Hb & Hu & ->).
        exists (t :: before), after. simpl. repeat split; auto.
        intros t' [<- | Hin]; auto.
      * intros (before & after & Heq & Hb & Hu & ->).
        destruct before as [|b before]; simpl in Heq.
        -- injection Heq as -> _. congruence.
        -- injection Heq as -> ->. exists before, after. repeat split; auto.
           intros t' Hin. apply Hb. right. exact Hin.
Qed.

Lemma select_from_None (streams : value) (tiers : list string) :
  select_from streams tiers = None <->
  forall t : string, In t tiers -> truthy (flv_of streams t) = false.
Proof.
  induction tiers as [|t tiers IH]; simpl.
  - split; [intros _ t [] | reflexivity].
  - rewrite usable_flv. destruct (truthy (flv_of streams t)) eqn:Ht.
    + split; [discriminate|]. intros H. rewrite (H t) in Ht by (left; reflexivity). discriminate.
    + rewrite IH. split.
      * intros H t' [<- | Hin]; auto.
      * intros H t' Hin. apply H. right. exact Hin.
Qed.

(** With distinct names, the value found under a name does not depend on
    the order of the properties. *)
Lemma assoc_Permutation (k : string) (o o' : list (string * value)) :
  NoDup (map fst o) -> Permutation o o' -> assoc k o' = assoc k o.
Proof.
  intros Hnd Hp. induction Hp as [|[k1 v1] l l' Hp IH|[k1 v1] [k2 v2] l|l l' l'' Hp1 IH1 Hp2 IH2].
  - reflexivity.
  - simpl. inversion Hnd; subst. rewrite IH by assumption. reflexivity.
  - simpl. destruct (String.eqb_spec k k1) as [<-|]; destruct (String.eqb_spec k k2) as [<-|];
      try reflexivity.
    simpl in Hnd. inversion Hnd as [|? ? Hnotin _]; subst. exfalso. apply Hnotin. left.
  - rewrite IH2, IH1; auto.
    assert (Hp' : Permutation (map fst l) (map fst l')) by (apply Permutation_map; exact Hp1).
    rewrite <- Hp'. exact Hnd.
Qed.

Lemma flv_of_Permutation (o o' : list (string * value)) (q : string) :
  NoDup (map fst o) -> Permutation o o' -> flv_of (VObj o') q = flv_of (VObj o) q.
Proof.
  intros Hnd Hp. unfold flv_of. simpl. rewrite (assoc_Permutation q o o' Hnd Hp). reflexivity.
Qed.

Lemma select_from_Permutation (o o' : list (string * value)) (tiers : list string) :
  NoDup (map fst o) -> Permutation o o' ->
  select_from (VObj o') tiers = select_from (VObj o) tiers.
Proof.
  intros Hnd Hp. induction tiers as [|t tiers IH]; simpl; [reflexivity|].
  rewrite !usable_flv, (flv_of_Permutation o o' t Hnd Hp), IH. reflexivity.
Qed.

(** C2.  The selection returns the [flv] of the first of uhd, hd, sd, ld
    whose variant carries one (a truthy [flv]; for a string: a non-empty
    one), and nothing when no tier has one; [flvUrl] is that value, or
    [null]; and for a manifest object the result is the same in whatever
    order its properties were inserted. *)
Theorem quality_selection_by_fixed_precedence :
  (forall (streams : value) (q : string) (u : value),
      select streams = Some (q, u) <->
      exists before after : list string,
        "uhd" :: "hd" :: "sd" :: "ld" :: nil = before ++ q :: after
        /\ (forall t : string, In t before -> truthy (flv_of streams t) = false)
        /\ truthy u = true /\ u = flv_of streams q)
  /\ (forall streams : value,
        select streams = None <->
        forall t : string, In t ("uhd" :: "hd" :: "sd" :: "ld" :: nil) ->
                           truthy (flv_of streams t) = false)
  /\ (forall streams : value,
        flvUrl_of streams = match select streams with Some (_, u) => u | None => VNull end)
  /\ (forall s : string, truthy (VStr s) = true <-> s <> EmptyString)
  /\ (forall o o' : list (string * value),
        NoDup (map fst o) -> Permutation o o' -> select (VObj o') = select (VObj o)).
Proof.
  split; [|split; [|split; [|split]]].
  - intros streams q u. apply select_from_Some.
  - intros streams. apply select_from_None.
  - reflexivity.
  - apply truthy_string.
  - intros o o'. apply select_from_Permutation.
Qed.

(** Scenario C with its two tiers in either order: uhd wins. *)
Lemma quality_selection_by_fixed_precedence_witness :
  let flv (u : string) := VObj (("main", VObj (("flv", VStr u) :: nil)) :: nil) in
  let o := ("uhd", flv "u") :: ("hd", flv "h") :: nil in
  let o' := ("hd", flv "h") :: ("uhd", flv "u") :: nil in
  select (VObj o') = select (VObj o) /\ select (VObj o) = Some ("uhd", VStr "u").
Proof.
  intros flv o o'. split.
  - apply (proj2 (proj2 (proj2 (proj2 quality_selection_by_fixed_precedence)))).
    + apply (bool_decide_unpack _). vm_compute. exact I.
    + apply perm_swap.
  - reflexivity.
Defined.

End QualitySelection.


(** ** The cache of the user-info route *)

Section Cache.
Import Js Http Sys UserInfo.

Lemma cache_get_world (k : string) (w : World) :
  let w' := snd (cache_get k w) in
  cache w' = cache w /\ fetched w' = fetched w /\ outside w' = outside w
  /\ (clock_reads w <= clock_reads w')%nat.
Proof.
  unfold cache_get. destruct (cache w !! k); simpl; repeat split; auto.
Qed.

Lemma cache_get_entry (k : string) (w : World) (h : cache_entry) :
  cache w !! k = Some h ->
  cache_get k w =
  ((if now (outside w) (clock_reads w) - ts h <? TTL_MS then Some h else None),
   with_clock_reads (S (clock_reads w)) w).
Proof. intros H. unfold cache_get. rewrite H. reflexivity. Qed.

Lemma cache_get_absent (k : string) (w : World) :
  cache w !! k = None -> cache_get k w = (None, w).
Proof. intros H. unfold cache_get. rewrite H. reflexivity. Qed.

Lemma cache_set_world (k : string) (d : list (string * value)) (w : World) :
  let w' := snd (cache_set k d w) in
  cache w' = <[ k := CacheEntry (now (outside w) (clock_reads w)) d ]> (cache w)
  /\ fetched w' = fetched w /\ outside w' = outside w
  /\ clock_reads w' = S (clock_reads w).
Proof. unfold cache_set. simpl. auto. Qed.

Lemma handler_hit (req : request) (username : string) (w : World) (h : cache_entry) :
  asks_for req username ->
  fst (cache_get (key_of username) w) = Some h ->
  handler req w = (hit_response h, snd (cache_get (key_of username) w)).
Proof.
  intros (Hm & Hu & Hne) Hhit. unfold handler. rewrite Hm, Hu.
  destruct username as [|c r]; [congruence|].
  change (JsString.is_empty (String c r)) with false. cbv iota.
  unfold mbind, M_bind.
  destruct (cache_get (key_of (String c r)) w) as [o w1]. simpl in Hhit. subst o.
  reflexivity.
Qed.

Lemma handler_miss (req : request) (username : string) (w : World) :
  asks_for req username ->
  fst (cache_get (key_of username) w) = None ->
  handler req w = after_miss username (snd (cache_get (key_of username) w)).
Proof.
  intros (Hm & Hu & Hne) Hmiss. unfold handler. rewrite Hm, Hu.
  destruct username as [|c r]; [congruence|].
  change (JsString.is_empty (String c r)) with false. cbv iota.
  unfold mbind at 1. unfold M_bind at 1.
  destruct (cache_get (key_of (String c r)) w) as [o w1]. simpl in Hmiss. subst o.
  reflexivity.
Qed.

Lemma after_miss_fetches (username : string) (w : World) :
  let w' := snd (after_miss username w) in
  fetched w' = fetched w ++ profile_url username :: nil /\ outside w' = outside w.
Proof.
  unfold after_miss, mbind, M_bind, fetch, mret, M_ret, cache_set. simpl.
  destruct (upstream _ _ _) as [name msg|code html]; simpl; auto.
  destruct (negb _); simpl; auto.
  destruct (lookup _ _) as [e|[userId country]]; simpl; auto.
  destruct (dataOut _ _ _) as [e|d]; simpl; auto.
Qed.


(** C4.  [cache.set(k, v)] stores [v] with the reading of the clock.  While
    that entry is the one under [k], a read at a time [t] with
    [t - ts < TTL_MS] gives the entry, and the route answers with [v] and
    [cached: true]; a read with [t - ts >= TTL_MS] gives nothing.  The read
    never changes the cache, and the next [cache.set(k, v')] replaces the
    entry. *)
Theorem cache_put_then_get (w : World) (k : string) (v : list (string * value)) :
  let t0 := now (outside w) (clock_reads w) in
  cache (snd (cache_set k v w)) !! k = Some (CacheEntry t0 v)
  /\ forall w2 : World,
       cache w2 !! k = Some (CacheEntry t0 v) ->
       let t := now (outside w2) (clock_reads w2) in
       (t - t0 < TTL_MS ->
        fst (cache_get k w2) = Some (CacheEntry t0 v)
        /\ forall (req : request) (username : string),
             asks_for req username -> key_of username = k ->
             fst (handler req w2)
             = Response 200 cors (Some (obj_set v "cached" (VBool true))))
       /\ (TTL_MS <= t - t0 -> fst (cache_get k w2) = None)
       /\ cache (snd (cache_get k w2)) = cache w2
       /\ forall v' : list (string * value),
            cache (snd (cache_set k v' (snd (cache_get k w2)))) !! k
            = Some (CacheEntry (now (outside w2) (S (clock_reads w2))) v').
Proof.
  intros t0. split.
  - unfold cache_set. simpl. apply lookup_insert_eq.
  - intros w2 Hentry t.
    rewrite (cache_get_entry k w2 _ Hentry). simpl.
    split; [|split; [|split]].
    + intros Hfresh.
      assert (Hlt : (t - t0 <? TTL_MS) = true) by (apply Z.ltb_lt; exact Hfresh).
      fold t. rewrite Hlt. split; [reflexivity|].
      intros req username Hreq <-.
      rewrite (handler_hit req username w2 (CacheEntry t0 v) Hreq).
      * reflexivity.
      * rewrite (cache_get_entry _ w2 _ Hentry). simpl. fold t. rewrite Hlt. reflexivity.
    + intros Hstale.
      assert (Hge : (t - t0 <? TTL_MS) = false) by (apply Z.ltb_ge; exact Hstale).
      fold t. rewrite Hge. reflexivity.
    + reflexivity.
    + intros v'. unfold cache_set. simpl. apply lookup_insert_eq.
Qed.

(** A put followed by a get one second later, and by a get seven hours
    later. *)
Lemma cache_put_then_get_witness :
  let soon := Scenario.fresh (Scenario.serving Scenario.live_page nil) in
  let late := Scenario.fresh (Scenario.seven_hours_apart (Scenario.serving Scenario.live_page nil)) in
  let put (w : World) := snd (cache_set "foo" Scenario.foo_data w) in
  fst (cache_get "foo" (put soon)) = Some (CacheEntry 1700000000000 Scenario.foo_data)
  /\ fst (handler (Scenario.get_request "FOO") (put soon))
     = Response 200 cors (Some (obj_set Scenario.foo_data "cached" (VBool true)))
  /\ fst (cache_get "foo" (put late)) = None
  /\ cache (snd (cache_get "foo" (put late))) = cache (put late).
Proof.
  intros soon late put.
  pose proof (proj2 (cache_put_then_get soon "foo" Scenario.foo_data) (put soon)) as Hsoon.
  pose proof (proj2 (cache_put_then_get late "foo" Scenario.foo_data) (put late)) as Hlate.
  cbv zeta in Hsoon, Hlate.
  assert (Hs : cache (put soon) !! "foo" = Some (CacheEntry 1700000000000 Scenario.foo_data))
    by (vm_compute; reflexivity).
  assert (Hl : cache (put late) !! "foo" = Some (CacheEntry 1700000000000 Scenario.foo_data))
    by (vm_compute; reflexivity).
  destruct (Hsoon Hs) as (Hfresh & _ & _ & _).
  destruct (Hlate Hl) as (_ & Hstale & Hkept & _).
  destruct Hfresh as [Hget Hanswer]; [vm_compute; reflexivity|].
  split; [exact Hget|]. split.
  - apply (Hanswer (Scenario.get_request "FOO") "FOO").
    + split; [vm_compute; reflexivity | split; [vm_compute; reflexivity | discriminate]].
    + vm_compute. reflexivity.
  - split; [|exact Hkept]. apply Hstale. vm_compute. discriminate.
Defined.

End Cache.


(** ** Which route consults the cache *)

Section CacheControlFlow.
Import Js Http Sys UserInfo.







End CacheControlFlow.


(** ** Account names, cache keys and the [username] of the answer *)

Section Normalization.
Import Js Http Sys UserInfo.

Lemma lower_char_idempotent (c : ascii) :
  JsString.lower_char (JsString.lower_char c) = JsString.lower_char c.
Proof. destruct c as [[|] [|] [|] [|] [|] [|] [|] [|]]; vm_compute; reflexivity. Qed.

Lemma toLowerCase_idempotent (s : string) :
  JsString.toLowerCase (JsString.toLowerCase s) = JsString.toLowerCase s.
Proof.
  induction s as [|c s IH]; simpl; [reflexivity|].
  rewrite lower_char_idempotent, IH. reflexivity.
Qed.

Lemma dataOut_username (username : string) (userId country : value)
      (d : list (string * value)) :
  dataOut username userId country = inr d -> assoc "username" d = Some (VStr username).
Proof.
  unfold dataOut.
  destruct (text_or_null userId); destruct (text_or_null country); try discriminate.
  intros [= <-]. reflexivity.
Qed.

Lemma after_miss_username (username : string) (w : World) :
  status (fst (after_miss username w)) = 200 ->
  Spec.username_field (fst (after_miss username w)) = Some (VStr username).
Proof.
  unfold after_miss, mbind, M_bind, fetch, mret, M_ret, cache_set. simpl.
  destruct (upstream _ _ _) as [name msg|code html]; simpl; [discriminate|].
  destruct (negb _) eqn:Hok; simpl.
  - intros ->. discriminate.
  - destruct (lookup _ _) as [e|[userId country]]; simpl; [discriminate|].
    destruct (dataOut _ _ _) as [e|d] eqn:Hd; simpl; [discriminate|].
    intros _. unfold Spec.username_field. simpl. exact (dataOut_username _ _ _ _ Hd).
Qed.

Lemma assoc_replace_other (k k' : string) (v : value) (o : list (string * value)) :
  k' <> k -> assoc k' (replace k v o) = assoc k' o.
Proof.
  intros Hne. induction o as [|[k0 v0] o IH]; simpl; [reflexivity|].
  destruct (String.eqb_spec k k0) as [<-|Hk]; simpl.
  - destruct (String.eqb_spec k' k); [congruence | reflexivity].
  - rewrite IH. reflexivity.
Qed.

Lemma assoc_app_other (k k' : string) (v : value) (o : list (string * value)) :
  k' <> k -> assoc k' (o ++ (k, v) :: nil) = assoc k' o.
Proof.
  intros Hne. induction o as [|[k0 v0] o IH]; simpl.
  - destruct (String.eqb_spec k' k); [congruence | reflexivity].
  - rewrite IH. reflexivity.
Qed.

(** The spread with [cached: true] keeps the [username] of the entry. *)
Lemma hit_response_username (h : cache_entry) :
  Spec.username_field (hit_response h) = assoc "username" (data h).
Proof.
  unfold Spec.username_field, hit_response, obj_set. simpl.
  destruct (assoc "cached" (data h)).
  - apply assoc_replace_other. discriminate.
  - apply assoc_app_other. discriminate.
Qed.

(** C8 as stated fails: the names [foo] and [FOO] have one key and two
    different [username] fields in the answers of a fresh process. *)
Lemma username_field_keeps_the_case : ~ Spec.same_key_same_username handler.
Proof.
  intros H.
  specialize (H (QString "foo") (QString "FOO")
                (Scenario.fresh (Scenario.serving Scenario.live_page nil))).
  assert (Hkey : key_of (username_of (QString "foo")) = key_of (username_of (QString "FOO")))
    by (vm_compute; reflexivity).
  specialize (H Hkey). vm_compute in H. discriminate.
Qed.

(** C8, amended.  The name is trimmed, loses one leading [@], and is
    lower-cased for the cache key: the inputs ["@Foo "], ["foo"] and
    ["FOO"] have the key ["foo"], and lower-casing a key changes nothing.
    The [username] of the answer is not lower-cased: a result read from
    upstream carries the name as the caller wrote it, and an answer from
    the cache carries the name stored with the entry. *)
Theorem account_names_share_the_cache_key :
  (key_of (username_of (QString "@Foo ")) = "foo"
   /\ key_of (username_of (QString "foo")) = "foo"
   /\ key_of (username_of (QString "FOO")) = "foo")
  /\ (forall s : string,
        username_of (QString s) = JsString.strip_at (JsString.trim s)
        /\ key_of (key_of (username_of (QString s))) = key_of (username_of (QString s)))
  /\ (forall (req : request) (username : string) (w : World),
        asks_for req username ->
        fst (cache_get (key_of username) w) = None ->
        status (fst (handler req w)) = 200 ->
        Spec.username_field (fst (handler req w)) = Some (VStr username))
  /\ (forall (req : request) (username : string) (w : World) (h : cache_entry),
        asks_for req username ->
        fst (cache_get (key_of username) w) = Some h ->
        Spec.username_field (fst (handler req w)) = assoc "username" (data h)).
Proof.
  split; [|split; [|split]].
  - repeat split; vm_compute; reflexivity.
  - intros s. split; [reflexivity|]. apply toLowerCase_idempotent.
  - intros req username w Hreq Hget.
    rewrite (handler_miss req username w Hreq Hget). apply after_miss_username.
  - intros req username w h Hreq Hget.
    rewrite (handler_hit req username w h Hreq Hget). simpl. apply hit_response_username.
Qed.

(** On a fresh process the three inputs are answered with [Foo], [foo]
    and [FOO]; once [foo] has filled the cache, [FOO] is answered [foo]. *)
Lemma account_names_share_the_cache_key_witness :
  let w := Scenario.fresh (Scenario.serving Scenario.live_page nil) in
  let answer (u : string) (w : World) := fst (handler (Scenario.get_request u) w) in
  Spec.username_field (answer "@Foo " w) = Some (VStr "Foo")
  /\ Spec.username_field (answer "foo" w) = Some (VStr "foo")
  /\ Spec.username_field (answer "FOO" w) = Some (VStr "FOO")
  /\ Spec.username_field (answer "FOO" (snd (handler (Scenario.get_request "foo") w)))
     = Some (VStr "foo").
Proof.
  intros w answer.
  destruct account_names_share_the_cache_key as (_ & _ & Hfresh & Hhit).
  assert (Hreq : forall u n : string,
             username_of (QString u) = n -> n <> EmptyString ->
             asks_for (Scenario.get_request u) n).
  { intros u n Hu Hn. split; [reflexivity | split; [exact Hu | exact Hn]]. }
  split; [|split; [|split]].
  - apply (Hfresh (Scenario.get_request "@Foo ") "Foo" w).
    + apply Hreq; [vm_compute; reflexivity | discriminate].
    + vm_compute. reflexivity.
    + vm_compute. reflexivity.
  - apply (Hfresh (Scenario.get_request "foo") "foo" w).
    + apply Hreq; [vm_compute; reflexivity | discriminate].
    + vm_compute. reflexivity.
    + vm_compute. reflexivity.
  - apply (Hfresh (Scenario.get_request "FOO") "FOO" w).
    + apply Hreq; [vm_compute; reflexivity | discriminate].
    + vm_compute. reflexivity.
    + vm_compute. reflexivity.
  - unfold answer.
    rewrite (Hhit (Scenario.get_request "FOO") "FOO"
                  (snd (handler (Scenario.get_request "foo") w))
                  (CacheEntry 1700000000000 Scenario.foo_data)).
    + reflexivity.
    + apply Hreq; [vm_compute; reflexivity | discriminate].
    + vm_compute. reflexivity.
Defined.

End Normalization.


(** ** The live-status route *)

Section LiveStatus.
Import Js Http Sys CheckLive.

Lemma LIVE_value : LIVE = JsNumber.Finite false (2 ^ 52) (-51).
Proof. vm_compute. reflexivity. Qed.

(** [status === 2] holds for the number 2 and for nothing else. *)
Lemma status_is_LIVE (v : value) : strict_eq_num v LIVE = true <-> v = VNum LIVE.
Proof.
  rewrite LIVE_value. split.
  - destruct v as [| |b|[s m e|s]|s|l|o| |l|o]; simpl; try discriminate.
    intros H. apply orb_true_iff in H. destruct H as [H|H].
    + apply andb_true_iff in H. destruct H as [_ H]. discriminate.
    + apply andb_true_iff in H. destruct H as [H He].
      apply andb_true_iff in H. destruct H as [Hs Hm].
      apply Z.eqb_eq in He, Hm. destruct s; [discriminate|]. subst. reflexivity.
  - intros ->. reflexivity.
Qed.

Lemma parse_empty : Json.parse EmptyString = None.
Proof. reflexivity. Qed.

Lemma resolve_parsed (html text : string) (data : value) :
  Markup.match_live html = Some text -> Json.parse text = Some data ->
  resolve html
  = Resolved (strict_eq_num (opt_get (liveRoom data) "status") LIVE)
             (opt_get (liveRoom data) "status") (opt_get (liveRoom data) "roomId").
Proof.
  intros Hm Hp. unfold resolve. rewrite Hm.
  destruct text as [|c r]; [rewrite parse_empty in Hp; discriminate|].
  simpl JsString.is_empty. simpl negb. cbv iota. rewrite Hp. reflexivity.
Qed.

Lemma resolve_absent (html : string) :
  (forall (text : string) (data : value),
      Markup.match_live html = Some text -> Json.parse text <> Some data) ->
  resolve html = Resolved false VNull VNull.
Proof.
  intros H. unfold resolve. destruct (Markup.match_live html) as [text|]; [|reflexivity].
  destruct (negb (JsString.is_empty text)); [|reflexivity].
  destruct (Json.parse text) as [data|] eqn:Hp; [|reflexivity].
  exfalso. exact (H text data eq_refl Hp).
Qed.

(** What the route makes of the markup of the fetched page: [live] is true
    exactly when the pattern of the route finds a text, [JSON.parse] accepts
    it and the status read from it is the number 2.  A text that is found
    and parsed gives its status and room id (whatever the status is);
    without one, [live] is false and [status] and [roomId] are [null].  The
    route then answers 200 with these three values: nothing is thrown. *)
Lemma resolve_reads_the_matched_text (html : string) :
  let s := resolve html in
  (live s = true <->
   exists (text : string) (data : value),
     Markup.match_live html = Some text /\ Json.parse text = Some data
     /\ opt_get (liveRoom data) "status" = VNum (JsNumber.of_Z 2))
  /\ (forall (text : string) (data : value),
        Markup.match_live html = Some text -> Json.parse text = Some data ->
        status s = opt_get (liveRoom data) "status"
        /\ roomId s = opt_get (liveRoom data) "roomId"
        /\ (status s <> VNum (JsNumber.of_Z 2) -> live s = false))
  /\ ((forall (text : string) (data : value),
          Markup.match_live html = Some text -> Json.parse text <> Some data) ->
      s = Resolved false VNull VNull)
  /\ forall (req : request) (username : string) (w : World) (code : Z),
       Account.valid_username (query_username req) = Some username ->
       upstream (outside w) (length (fetched w)) (live_url (Account.user_of username))
       = Page code html ->
       fst (handler req w)
       = json 200 (("username", VStr (Account.user_of username)) :: ("live", VBool (live s))
                   :: ("status", status s) :: ("roomId", roomId s) :: nil).
Proof.
  intros s. split; [|split; [|split]].
  - split.
    + intros Hlive.
      destruct (Markup.match_live html) as [text|] eqn:Hm.
      * destruct (Json.parse text) as [data|] eqn:Hp.
        -- exists text, data. split; [reflexivity|]. split; [exact Hp|].
           subst s. rewrite (resolve_parsed html text data Hm Hp) in Hlive. simpl in Hlive.
           apply status_is_LIVE. exact Hlive.
        -- subst s. rewrite resolve_absent in Hlive; [discriminate|].
           intros t d Ht. rewrite Hm in Ht. injection Ht as <-. rewrite Hp. discriminate.
      * subst s. rewrite resolve_absent in Hlive; [discriminate|].
        intros t d Ht. rewrite Hm in Ht. discriminate.
    + intros (text & data & Hm & Hp & Hst).
      subst s. rewrite (resolve_parsed html text data Hm Hp). simpl.
      apply status_is_LIVE. exact Hst.
  - intros text data Hm Hp. subst s. rewrite (resolve_parsed html text data Hm Hp). simpl.
    split; [reflexivity|]. split; [reflexivity|].
    intros Hne. destruct (strict_eq_num _ LIVE) eqn:Heq; [|reflexivity].
    exfalso. apply Hne. apply status_is_LIVE. exact Heq.
  - apply resolve_absent.
  - intros req username w code Hv Hup. unfold handler. rewrite Hv.
    unfold mbind, M_bind, fetch, mret, M_ret. simpl. rewrite Hup. reflexivity.
Qed.

(** Scenarios A and B, and a live room whose document writes a title with
    escapes of code units above 255. *)
Example live_status_scenarios :
  resolve Scenario.live_page = Resolved true (VNum (JsNumber.of_Z 2)) (VStr "123")
  /\ resolve Scenario.plain_page = Resolved false VNull VNull
  /\ fst (handler (Scenario.get_request "@Foo ")
                  (Scenario.fresh (Scenario.serving Scenario.plain_page nil)))
     = json 200 (("username", VStr "Foo") :: ("live", VBool false)
                 :: ("status", VNull) :: ("roomId", VNull) :: nil)
  /\ resolve Scenario.escaped_page = Resolved true (VNum (JsNumber.of_Z 2)) (VStr "123")
  /\ option_map (fun data => opt_get (liveRoom data) "title")
                (mbind Json.parse (Markup.match_live Scenario.escaped_page))
     = Some (VWide (20013 :: 25991 :: nil)).
Proof.
  repeat split; vm_compute; reflexivity.
Qed.

(** C1.  The page [Scenario.multiline_page] embeds, between the opening
    tag of a state element and the closing tag, a document written on four
    lines; [JSON.parse] accepts the document and the status in it is the
    number 2.  The live-status route does not find it: it answers 200 with
    [live] false and with [status] and [roomId] [null], as for a page
    without a document.  The pattern of the user-info route finds the
    document in the same page. *)
Theorem live_status_misses_a_document_on_several_lines :
  Scenario.multiline_page
  = "<html>" +:+ Markup.json_open_tag +:+ Scenario.multiline_document
    +:+ Markup.close_tag +:+ "</html>"
  /\ option_map (fun data => (opt_get (liveRoom data) "status",
                              opt_get (liveRoom data) "roomId"))
                (Json.parse Scenario.multiline_document)
     = Some (VNum (JsNumber.of_Z 2), VStr "123")
  /\ Markup.match_live Scenario.multiline_page = None
  /\ resolve Scenario.multiline_page = Resolved false VNull VNull
  /\ fst (handler (Scenario.get_request "foo")
                  (Scenario.fresh (Scenario.serving Scenario.multiline_page nil)))
     = json 200 (("username", VStr "foo") :: ("live", VBool false)
                 :: ("status", VNull) :: ("roomId", VNull) :: nil)
  /\ Markup.match_info Scenario.multiline_page = Some Scenario.multiline_document.
Proof.
  split; [reflexivity|]. repeat split; vm_compute; reflexivity.
Qed.

End LiveStatus.


(** ** The start-comments route *)

Section StartCommentsRoute.
Import Js Http Sys StartComments.

(** The test of the route finds the connections stored in the dictionary;
    among the names without one it finds those that [Object.prototype]
    defines. *)
Lemma watcher_exists_stored (w : World) (watchers : gmap string connection)
      (user : string) (c : connection) :
  commentWatchers w = Some watchers -> watchers !! user = Some c ->
  watcher_exists w user = true.
Proof. intros Hw Hc. unfold watcher_exists, dict_get. rewrite Hw. simpl. rewrite Hc. reflexivity. Qed.

Lemma watcher_exists_none (w : World) (user : string) :
  default ∅ (commentWatchers w) !! user = None ->
  watcher_exists w user = member Object_prototype user.
Proof.
  intros Hc. unfold watcher_exists, dict_get. rewrite Hc.
  destruct (member Object_prototype user); reflexivity.
Qed.

(** What the route does by its test.  When the test finds no watcher for
    the account, the log of the account is the empty array afterwards,
    whatever it held and whether or not the connection succeeds (the
    listener, attached after the connection, starts from the empty log);
    the other logs are as they were.  When the test finds a watcher, the
    route answers that the listener is running and changes neither a log
    nor the watchers, and opens no connection. *)
Lemma start_comments_follows_its_test (req : request) (username : string) (w : World) :
  Account.valid_username (query_username req) = Some username ->
  let user := Account.user_of username in
  let watchers := default ∅ (commentWatchers w) in
  let logs := default ∅ (commentLogs w) in
  let r := fst (handler req w) in
  let w' := snd (handler req w) in
  (watcher_exists w user = false ->
   commentLogs w' = Some (<[ user := nil ]> logs)
   /\ (connect (outside w) (length (connects w)) user = None ->
       r = message 200 "Comment listener started"
       /\ commentWatchers w' = Some (<[ user := Connection user ]> watchers))
   /\ (forall msg : string,
         connect (outside w) (length (connects w)) user = Some msg ->
         r = json 500 (("error", VStr ("Failed to connect: " +:+ msg)) :: nil)
         /\ commentWatchers w' = Some watchers))
  /\ (watcher_exists w user = true ->
      r = message 200 "Listener already running"
      /\ commentLogs w' = Some logs
      /\ commentWatchers w' = Some watchers
      /\ connects w' = connects w).
Proof.
  intros Hv user watchers logs r w'. subst r w' watchers logs.
  unfold handler, watcher_exists. rewrite Hv. fold user.
  unfold mbind, M_bind, mret, M_ret, init_globals, set_log, connect_chat, set_watcher.
  destruct (commentWatchers w) as [ws|]; destruct (commentLogs w) as [ls|]; simpl;
    (destruct (found_truthy (dict_get _ user)); simpl;
     [ split; [discriminate|]; intros _; auto
     | split; [|discriminate]; intros _; split;
       [ destruct (connect _ _ _); reflexivity
       | split; [intros ->; simpl; auto | intros msg ->; simpl; auto] ] ]).
Qed.

(** A start for [foo] on a process that holds an old log of [foo] and no
    watcher; then a second start. *)
Example start_comments_twice :
  let old := LogEntry "2023-01-01T00:00:00.000Z" (VStr "bob") (VStr "old") in
  let w0 := Scenario.fresh (Scenario.serving Scenario.plain_page nil) in
  let w := with_commentLogs (Some {[ "foo" := old :: nil ]}) w0 in
  let w1 := snd (handler (Scenario.get_request "@foo") w) in
  commentLogs w1 = Some {[ "foo" := nil ]}
  /\ fst (handler (Scenario.get_request "@foo") w1) = message 200 "Listener already running"
  /\ commentLogs (snd (handler (Scenario.get_request "@foo") w1)) = commentLogs w1.
Proof.
  intros old w0 w w1.
  destruct (start_comments_follows_its_test (Scenario.get_request "@foo") "@foo" w eq_refl)
    as [Hreset _].
  destruct (start_comments_follows_its_test (Scenario.get_request "@foo") "@foo" w1 eq_refl)
    as [_ Hrunning].
  destruct Hreset as (Hlogs & _ & _); [vm_compute; reflexivity|].
  destruct Hrunning as (Hr & Hl & _ & _); [vm_compute; reflexivity|].
  split; [|split].
  - fold w1 in Hlogs. rewrite Hlogs. vm_compute. reflexivity.
  - exact Hr.
  - rewrite Hl. fold w1 in Hlogs. rewrite Hlogs. reflexivity.
Qed.

(** For a name that [Object.prototype] does not define, the test finds a
    watcher exactly when one is stored: a start for such a name without a
    stored watcher sets the log of the name to the empty array. *)
Lemma start_comments_resets_the_log_of_a_plain_name
      (req : request) (username : string) (w : World) :
  Account.valid_username (query_username req) = Some username ->
  let user := Account.user_of username in
  default ∅ (commentWatchers w) !! user = None ->
  member Object_prototype user = false ->
  commentLogs (snd (handler req w)) = Some (<[ user := nil ]> (default ∅ (commentLogs w))).
Proof.
  intros Hv user Hnone Hplain.
  destruct (start_comments_follows_its_test req username w Hv) as [Hreset _].
  apply Hreset. fold user. rewrite (watcher_exists_none w user Hnone). exact Hplain.
Qed.

(** C9.  A start for the account [constructor] on a process that has just
    started.  No watcher is registered, for this account or any other: the
    dictionary of the watchers does not exist yet, and the route creates it
    empty.  The test [global.commentWatchers[user]] reads the empty
    dictionary through its prototype and finds [Object.prototype.constructor],
    which is truthy.  So the route answers [Listener already running],
    opens no connection, stores no watcher, and does not set the log of
    the account to the empty array: no log is stored under the name, and a
    read of the log under it finds the inherited member, not an array.
    The same start for the account [foo] opens a connection, stores it and
    sets the log of [foo] to the empty array. *)
Theorem start_comments_takes_an_inherited_name_for_a_watcher :
  let w := Scenario.fresh (Scenario.serving Scenario.plain_page nil) in
  let after (name : string) := snd (handler (Scenario.get_request name) w) in
  commentWatchers w = None
  /\ Account.valid_username (QString "constructor") = Some "constructor"
  /\ fst (handler (Scenario.get_request "constructor") w)
     = message 200 "Listener already running"
  /\ commentWatchers (after "constructor") = Some ∅
  /\ commentLogs (after "constructor") = Some ∅
  /\ dict_get (default ∅ (commentLogs (after "constructor"))) "constructor" = Inherited
  /\ connects (after "constructor") = nil
  /\ fst (handler (Scenario.get_request "foo") w) = message 200 "Comment listener started"
  /\ commentWatchers (after "foo") = Some {[ "foo" := Connection "foo" ]}
  /\ commentLogs (after "foo") = Some {[ "foo" := nil ]}
  /\ connects (after "foo") = "foo" :: nil.
Proof. repeat split; vm_compute; reflexivity. Qed.

End StartCommentsRoute.


(** ** The capture route *)

Section Capture.
Import Js Http Sys Record.

Lemma length_snoc {A : Type} (l : list A) (x : A) : length (l ++ x :: nil) = S (length l).
Proof. rewrite length_app. simpl. lia. Qed.

(** The world after one ffmpeg run. *)
Lemma runFfmpeg_world (args : list value) (output : string) (w : World) :
  let w' := snd (runFfmpeg args output w) in
  fst (runFfmpeg args output w)
  = ffmpeg_error (ended (ffmpeg (outside w) (length (spawned w)) args))
  /\ spawned w' = spawned w ++ args :: nil
  /\ outside w' = outside w
  /\ files w ⊆ files w'
  /\ (ended (ffmpeg (outside w) (length (spawned w)) args) = Closed (Some 0) ->
      output ∈ files w').
Proof.
  unfold runFfmpeg, mbind, M_bind, mret, M_ret, spawn_ffmpeg. simpl.
  destruct (ffmpeg (outside w) (length (spawned w)) args) as [e p]. simpl.
  split; [reflexivity|].
  destruct e as [[[|c|c]|]|m]; destruct p; simpl; repeat split; auto;
    try set_solver; try discriminate.
Qed.

(** The two stages, written out on the world. *)
Lemma capture_eq (user : string) (flvUrl : value) (recordingsDir audioDir : string) (w : World) :
  capture user flvUrl recordingsDir audioDir w =
  let name := user +:+ "_" +:+ JsString.of_int (now (outside w) (clock_reads w)) in
  let videoPath := Path.join recordingsDir (name +:+ ".mp4") in
  let audioPath := Path.join audioDir (name +:+ ".wav") in
  let '(download, w1) :=
    runFfmpeg (download_args flvUrl videoPath) videoPath
              (with_clock_reads (S (clock_reads w)) w) in
  match download with
  | Some message => (failed ("Download failed: " +:+ message), w1)
  | None =>
      let '(audio, w2) := runFfmpeg (audio_args videoPath audioPath) audioPath w1 in
      match audio with
      | Some message => (failed ("Audio extraction failed: " +:+ message), w2)
      | None =>
          (Sent (json 200 (("message", VStr "Recording complete")
                           :: ("flvUrl", flvUrl) :: ("videoPath", VStr videoPath)
                           :: ("audioPath", VStr audioPath) :: nil)), w2)
      end
  end.
Proof.
  unfold capture, mbind, M_bind, Date_now, mret, M_ret. cbv zeta.
  destruct (runFfmpeg _ _ _) as [[m|] w1]; [reflexivity|].
  destruct (runFfmpeg _ _ _) as [[m|] w2]; reflexivity.
Qed.

(** C6.  When the download ends with code 0 and the audio run fails (an
    exit code other than 0, a signal, or a spawn error), the route answers
    500 with the reason [Audio extraction failed: ...], which no answer to
    a failed download and no answer to a complete capture equals; the video
    file is on disk afterwards, and no file that was there has gone. *)
Theorem audio_failure_keeps_the_video
    (user : string) (flvUrl : value) (recordingsDir audioDir : string)
    (w : World) (msg : string) :
  let name := user +:+ "_" +:+ JsString.of_int (now (outside w) (clock_reads w)) in
  let videoPath := Path.join recordingsDir (name +:+ ".mp4") in
  let audioPath := Path.join audioDir (name +:+ ".wav") in
  let n := length (spawned w) in
  ended (ffmpeg (outside w) n (download_args flvUrl videoPath)) = Closed (Some 0) ->
  ffmpeg_error (ended (ffmpeg (outside w) (S n) (audio_args videoPath audioPath))) = Some msg ->
  let out := fst (capture user flvUrl recordingsDir audioDir w) in
  let w' := snd (capture user flvUrl recordingsDir audioDir w) in
  out = failed ("Audio extraction failed: " +:+ msg)
  /\ videoPath ∈ files w'
  /\ files w ⊆ files w'
  /\ spawned w'
     = spawned w ++ download_args flvUrl videoPath :: audio_args videoPath audioPath :: nil
  /\ (forall m : string, out <> failed ("Download failed: " +:+ m))
  /\ (forall r : response, status r = 200 -> out <> Sent r).
Proof.
  intros name videoPath audioPath n Hdown Haudio out w'. subst out w'.
  rewrite capture_eq. cbv zeta. fold name. fold videoPath. fold audioPath.
  set (w0 := with_clock_reads (S (clock_reads w)) w).
  destruct (runFfmpeg_world (download_args flvUrl videoPath) videoPath w0)
    as (Hr1 & Hs1 & Ho1 & Hf1 & Hv1).
  destruct (runFfmpeg (download_args flvUrl videoPath) videoPath w0) as [r1 w1].
  simpl in Hr1, Hs1, Ho1, Hf1, Hv1.
  change (outside w0) with (outside w) in *. change (spawned w0) with (spawned w) in *.
  change (files w0) with (files w) in *. fold n in Hr1, Hv1.
  rewrite Hdown in Hr1. simpl in Hr1. subst r1.
  destruct (runFfmpeg_world (audio_args videoPath audioPath) audioPath w1)
    as (Hr2 & Hs2 & Ho2 & Hf2 & _).
  destruct (runFfmpeg (audio_args videoPath audioPath) audioPath w1) as [r2 w2].
  simpl in Hr2, Hs2, Ho2, Hf2.
  rewrite Ho1, Hs1, length_snoc in Hr2. fold n in Hr2. rewrite Haudio in Hr2. subst r2.
  simpl. split; [reflexivity|]. split; [|split; [|split; [|split]]].
  - apply Hf2. apply Hv1. exact Hdown.
  - set_solver.
  - rewrite Hs2, Hs1, <- app_assoc. reflexivity.
  - intros m H. unfold failed, json in H. discriminate.
  - intros r Hr H. unfold failed in H. injection H as <-. discriminate.
Qed.

(** The route up to the two stages, on a POST with a valid name, when both
    directories are there or can be made. *)
Lemma handler_record (req : request) (username : string) (w : World) :
  method req = "POST" ->
  Account.valid_username (query_username req) = Some username ->
  let recordingsDir := Path.join (cwd (outside w)) "recordings" in
  let audioDir := Path.join (cwd (outside w)) "audio" in
  forall w1 w2 : World,
    ensure_dir recordingsDir w = (None, w1) ->
    ensure_dir audioDir w1 = (None, w2) ->
    handler req w = record (Account.user_of username) recordingsDir audioDir w2.
Proof.
  intros Hm Hv rd ad w1 w2 H1 H2. unfold handler. rewrite Hm, Hv. simpl.
  fold rd. fold ad. rewrite H1, H2. reflexivity.
Qed.

(** The audio run of a capture of [Foo] exits with code 1. *)
Lemma audio_failure_keeps_the_video_witness :
  let w := Scenario.fresh (Scenario.serving Scenario.live_page
                             (Scenario.succeeds :: Scenario.exits_1 :: nil)) in
  let out := fst (handler (Scenario.post_request "@Foo ") w) in
  let w' := snd (handler (Scenario.post_request "@Foo ") w) in
  out = failed "Audio extraction failed: ffmpeg exited with code 1"
  /\ "/app/recordings/Foo_1700000000000.mp4" ∈ files w'.
Proof.
  intros w out w'.
  set (w_c := snd (fetch (CheckLive.live_url "Foo")
                     (snd (ensure_dir "/app/audio" (snd (ensure_dir "/app/recordings" w)))))).
  assert (Hout : out = fst (capture "Foo" (VStr "u") "/app/recordings" "/app/audio" w_c))
    by (vm_compute; reflexivity).
  assert (Hfiles : files w' = files (snd (capture "Foo" (VStr "u") "/app/recordings" "/app/audio" w_c)))
    by (vm_compute; reflexivity).
  destruct (audio_failure_keeps_the_video "Foo" (VStr "u") "/app/recordings" "/app/audio" w_c
              "ffmpeg exited with code 1") as (Hreason & Hvideo & _).
  - vm_compute. reflexivity.
  - vm_compute. reflexivity.
  - rewrite Hout, Hfiles. split; [exact Hreason|].
    change ("/app/recordings/Foo_1700000000000.mp4"
            ∈ files (snd (capture "Foo" (VStr "u") "/app/recordings" "/app/audio" w_c)))
      in Hvideo.
    exact Hvideo.
Defined.

End Capture.


(** ** What the answer to a capture carries *)

Section CaptureAnswer.
Import Js Http Sys Record.

(** The reasons of the resolve stage. *)
Lemma resolve_streams_reason (html reason : string) :
  resolve_streams html = inl reason ->
  In reason ("SIGI_STATE missing" :: "Failed to parse SIGI_STATE"
             :: "No stream data found" :: "Failed to parse stream data" :: nil).
Proof.
  unfold resolve_streams.
  destruct (Markup.match_live html) as [text|]; [|intros [= <-]; simpl; auto].
  destruct (JsString.is_empty text); [intros [= <-]; simpl; auto|].
  destruct (Json.parse text) as [data|]; [|intros [= <-]; simpl; auto].
  destruct (negb (truthy (stream_data data))); [intros [= <-]; simpl; auto|].
  destruct (streams_of (stream_data data)); [discriminate|intros [= <-]; simpl; auto 6].
Qed.

Lemma flvUrl_selected (streams : value) (q : string) (u : value) :
  select streams = Some (q, u) -> flvUrl_of streams = u /\ truthy u = true.
Proof.
  intros H. unfold flvUrl_of. rewrite H. split; [reflexivity|].
  apply select_from_Some in H. destruct H as (_ & _ & _ & _ & Hu & _). exact Hu.
Qed.

Lemma flvUrl_none (streams : value) : select streams = None -> flvUrl_of streams = VNull.
Proof. intros H. unfold flvUrl_of. rewrite H. reflexivity. Qed.

(** The two runs of the capture of a complete capture leave both files. *)
Lemma capture_cases (user : string) (flvUrl : value) (recordingsDir audioDir : string) (w : World) :
  let name := user +:+ "_" +:+ JsString.of_int (now (outside w) (clock_reads w)) in
  let videoPath := Path.join recordingsDir (name +:+ ".mp4") in
  let audioPath := Path.join audioDir (name +:+ ".wav") in
  let n := length (spawned w) in
  let download := ffmpeg_error (ended (ffmpeg (outside w) n (download_args flvUrl videoPath))) in
  let audio := ffmpeg_error (ended (ffmpeg (outside w) (S n) (audio_args videoPath audioPath))) in
  let out := fst (capture user flvUrl recordingsDir audioDir w) in
  let w' := snd (capture user flvUrl recordingsDir audioDir w) in
  match download, audio with
  | Some msg, _ =>
      out = failed ("Download failed: " +:+ msg)
      /\ spawned w' = spawned w ++ download_args flvUrl videoPath :: nil
  | None, Some msg =>
      out = failed ("Audio extraction failed: " +:+ msg)
      /\ spawned w'
         = spawned w ++ download_args flvUrl videoPath :: audio_args videoPath audioPath :: nil
  | None, None =>
      out = Sent (json 200 (("message", VStr "Recording complete")
                            :: ("flvUrl", flvUrl) :: ("videoPath", VStr videoPath)
                            :: ("audioPath", VStr audioPath) :: nil))
      /\ spawned w'
         = spawned w ++ download_args flvUrl videoPath :: audio_args videoPath audioPath :: nil
      /\ videoPath ∈ files w' /\ audioPath ∈ files w'
  end.
Proof.
  intros name videoPath audioPath n download audio out w'. subst out w' download audio.
  rewrite capture_eq. cbv zeta. fold name. fold videoPath. fold audioPath.
  set (w0 := with_clock_reads (S (clock_reads w)) w).
  destruct (runFfmpeg_world (download_args flvUrl videoPath) videoPath w0)
    as (Hr1 & Hs1 & Ho1 & Hf1 & Hv1).
  destruct (runFfmpeg (download_args flvUrl videoPath) videoPath w0) as [r1 w1].
  simpl in Hr1, Hs1, Ho1, Hf1, Hv1.
  change (outside w0) with (outside w) in *. change (spawned w0) with (spawned w) in *.
  change (files w0) with (files w) in *. fold n in Hr1, Hv1.
  rewrite <- Hr1. destruct r1 as [m|].
  - simpl. auto.
  - destruct (runFfmpeg_world (audio_args videoPath audioPath) audioPath w1)
      as (Hr2 & Hs2 & Ho2 & Hf2 & Hv2).
    destruct (runFfmpeg (audio_args videoPath audioPath) audioPath w1) as [r2 w2].
    simpl in Hr2, Hs2, Ho2, Hf2, Hv2.
    rewrite Ho1, Hs1, length_snoc in Hr2, Hv2. fold n in Hr2, Hv2.
    rewrite <- Hr2.
    assert (Hspawned : spawned w2 = spawned w ++ download_args flvUrl videoPath
                                      :: audio_args videoPath audioPath :: nil)
      by (rewrite Hs2, Hs1, <- app_assoc; reflexivity).
    destruct r2 as [m|]; simpl; [auto|].
    split; [reflexivity|]. split; [exact Hspawned|].
    assert (Hzero : forall e : exit, ffmpeg_error e = None -> e = Closed (Some 0)).
    { intros [[[|c|c]|]|m]; simpl; congruence. }
    split.
    + apply Hf2. apply Hv1. apply Hzero. symmetry. exact Hr1.
    + apply Hv2. apply Hzero. symmetry. exact Hr2.
Qed.

(** The route after the fetch, written out on the world. *)
Lemma record_eq (user recordingsDir audioDir : string) (w : World) :
  record user recordingsDir audioDir w =
  let wf := with_fetched (fetched w ++ CheckLive.live_url user :: nil) w in
  match upstream (outside w) (length (fetched w)) (CheckLive.live_url user) with
  | NetworkError _ message => (failed message, wf)
  | Page _ html =>
      match resolve_streams html with
      | inl reason => (failed reason, wf)
      | inr streams =>
          if nullish streams then (failed (cannot_read streams), wf)
          else if negb (truthy (flvUrl_of streams))
               then (failed "No FLV stream available", wf)
               else capture user (flvUrl_of streams) recordingsDir audioDir wf
      end
  end.
Proof.
  unfold record, mbind, M_bind, fetch, mret, M_ret. cbv zeta.
  destruct (upstream _ _ _) as [name message|code html]; [reflexivity|].
  destruct (resolve_streams html) as [reason|streams]; [reflexivity|].
  destruct (nullish streams); [reflexivity|].
  destruct (negb (truthy (flvUrl_of streams))); reflexivity.
Qed.

Lemma in_bigger (X Y : gset string) (x : string) : X ⊆ Y -> x ∈ X -> x ∈ Y.
Proof. set_solver. Qed.

Lemma in_added (X : gset string) (x : string) : x ∈ ({[ x ]} ∪ X).
Proof. set_solver. Qed.

Lemma not_in_added (X : gset string) (x y : string) : x ∉ X -> x <> y -> x ∉ ({[ y ]} ∪ X).
Proof.
  intros Hx Hne Hin. apply elem_of_union in Hin. destruct Hin as [Hin|Hin].
  - apply elem_of_singleton in Hin. contradiction.
  - contradiction.
Qed.

(** What [ensure_dir] does to the disk, and what it leaves alone. *)
Lemma ensure_dir_cases (dir : string) (w : World) :
  ((dir ∈ files w) /\ ensure_dir dir w = (None, w))
  \/ ((dir ∉ files w) /\ mkdir (outside w) dir = None
      /\ ensure_dir dir w = (None, with_files ({[ dir ]} ∪ files w) w))
  \/ ((dir ∉ files w) /\ exists msg : string,
        mkdir (outside w) dir = Some msg /\ ensure_dir dir w = (Some msg, w)).
Proof.
  unfold ensure_dir, mbind, M_bind, existsSync, mkdirSync, mret, M_ret.
  destruct (decide (dir ∈ files w)) as [Hin|Hout].
  - left. rewrite bool_decide_eq_true_2 by exact Hin. auto.
  - right. rewrite bool_decide_eq_false_2 by exact Hout.
    destruct (mkdir (outside w) dir) as [msg|]; [right; eauto | left; auto].
Qed.

(** The route on a POST with a valid name, by what becomes of the two
    directories. *)
Lemma record_handler_eq (req : request) (username : string) (w : World) :
  method req = "POST" ->
  Account.valid_username (query_username req) = Some username ->
  handler req w =
  let recordingsDir := Path.join (cwd (outside w)) "recordings" in
  let audioDir := Path.join (cwd (outside w)) "audio" in
  let '(e1, w1) := ensure_dir recordingsDir w in
  match e1 with
  | Some message => (Uncaught message, w1)
  | None =>
      let '(e2, w2) := ensure_dir audioDir w1 in
      match e2 with
      | Some message => (Uncaught message, w2)
      | None => record (Account.user_of username) recordingsDir audioDir w2
      end
  end.
Proof. intros Hm Hv. unfold handler. rewrite Hm, Hv. reflexivity. Qed.

(** A selection from a missing manifest finds nothing. *)
Lemma select_nullish (streams : value) : nullish streams = true -> select streams = None.
Proof. destruct streams; try discriminate; reflexivity. Qed.

(** The reasons the route writes itself name their stage. *)
Lemma resolve_reason_stage (reason : string) :
  In reason ("SIGI_STATE missing" :: "Failed to parse SIGI_STATE"
             :: "No stream data found" :: "Failed to parse stream data" :: nil) ->
  Spec.stage_of_reason reason = Some Spec.Resolve.
Proof. intros [<-|[<-|[<-|[<-|[]]]]]; reflexivity. Qed.

Lemma cannot_read_stage (streams : value) :
  Spec.stage_of_reason (cannot_read streams) = Some Spec.Selection.
Proof. destruct streams; reflexivity. Qed.

Lemma download_reason_stage (msg : string) :
  Spec.stage_of_reason ("Download failed: " +:+ msg) = Some Spec.Download.
Proof. vm_compute. reflexivity. Qed.

Lemma audio_reason_stage (msg : string) :
  Spec.stage_of_reason ("Audio extraction failed: " +:+ msg) = Some Spec.Audio.
Proof. vm_compute. reflexivity. Qed.


(** The capture after the directories, on a world [w2] that differs from
    [w] by its disk only. *)
Lemma record_cases (user recordingsDir audioDir : string) (w w2 : World) :
  outside w2 = outside w -> fetched w2 = fetched w -> spawned w2 = spawned w ->
  clock_reads w2 = clock_reads w ->
  let out := fst (record user recordingsDir audioDir w2) in
  let w' := snd (record user recordingsDir audioDir w2) in
  let answer := upstream (outside w) (length (fetched w)) (CheckLive.live_url user) in
  let n := length (spawned w) in
  let stem := user +:+ "_" +:+ JsString.of_int (now (outside w) (clock_reads w)) in
  let videoPath := Path.join recordingsDir (stem +:+ ".mp4") in
  let audioPath := Path.join audioDir (stem +:+ ".wav") in
  (exists name message : string,
      answer = NetworkError name message /\ out = failed message /\ spawned w' = spawned w)
  \/ (exists (code : Z) (html reason : string),
        answer = Page code html /\ resolve_streams html = inl reason
        /\ In reason ("SIGI_STATE missing" :: "Failed to parse SIGI_STATE"
                      :: "No stream data found" :: "Failed to parse stream data" :: nil)
        /\ out = failed reason /\ Spec.stage_of_reason reason = Some Spec.Resolve
        /\ spawned w' = spawned w)
  \/ (exists (code : Z) (html : string) (streams : value) (reason : string),
        answer = Page code html /\ resolve_streams html = inr streams
        /\ ((nullish streams = true /\ reason = cannot_read streams)
            \/ (nullish streams = false /\ select streams = None
                /\ reason = "No FLV stream available"))
        /\ out = failed reason /\ Spec.stage_of_reason reason = Some Spec.Selection
        /\ spawned w' = spawned w)
  \/ (exists (code : Z) (html : string) (streams : value) (q : string) (u : value),
        answer = Page code html /\ resolve_streams html = inr streams
        /\ select streams = Some (q, u)
        /\ let download :=
             ffmpeg_error (ended (ffmpeg (outside w) n (download_args u videoPath))) in
           let audio :=
             ffmpeg_error (ended (ffmpeg (outside w) (S n) (audio_args videoPath audioPath))) in
           (exists msg : string,
               download = Some msg
               /\ out = failed ("Download failed: " +:+ msg)
               /\ Spec.stage_of_reason ("Download failed: " +:+ msg) = Some Spec.Download
               /\ spawned w' = spawned w ++ download_args u videoPath :: nil)
           \/ (exists msg : string,
                 download = None /\ audio = Some msg
                 /\ out = failed ("Audio extraction failed: " +:+ msg)
                 /\ Spec.stage_of_reason ("Audio extraction failed: " +:+ msg)
                    = Some Spec.Audio
                 /\ spawned w' = spawned w ++ download_args u videoPath
                                    :: audio_args videoPath audioPath :: nil)
           \/ (download = None /\ audio = None
               /\ out = Sent (json 200 (("message", VStr "Recording complete")
                                        :: ("flvUrl", u) :: ("videoPath", VStr videoPath)
                                        :: ("audioPath", VStr audioPath) :: nil))
               /\ spawned w' = spawned w ++ download_args u videoPath
                                  :: audio_args videoPath audioPath :: nil
               /\ (videoPath ∈ files w') /\ (audioPath ∈ files w'))).
Proof.
  intros Ho Hf Hs Hc out w' answer n stem videoPath audioPath. subst out w'.
  rewrite record_eq. cbv zeta. rewrite Ho, Hf. fold answer. set (wf := with_fetched _ w2).
  destruct answer as [name message|code html] eqn:Hanswer.
  - left. exists name, message. auto.
  - right. destruct (resolve_streams html) as [reason|streams] eqn:Hres.
    + left. exists code, html, reason.
      pose proof (resolve_streams_reason html reason Hres) as Hin.
      repeat split; auto. exact (resolve_reason_stage reason Hin).
    + right. destruct (nullish streams) eqn:Hnull.
      * left. exists code, html, streams, (cannot_read streams).
        repeat split; auto. apply cannot_read_stage.
      * destruct (select streams) as [[q u]|] eqn:Hsel.
        -- right. destruct (flvUrl_selected streams q u Hsel) as [Hu Ht].
           rewrite Hu, Ht. simpl negb. cbv iota.
           pose proof (capture_cases user u recordingsDir audioDir wf) as Hcap.
           cbv zeta in Hcap.
           change (outside wf) with (outside w2) in Hcap.
           change (spawned wf) with (spawned w2) in Hcap.
           change (clock_reads wf) with (clock_reads w2) in Hcap.
           rewrite Ho, Hs, Hc in Hcap.
           fold n in Hcap. fold stem in Hcap. fold videoPath in Hcap. fold audioPath in Hcap.
           exists code, html, streams, q, u.
           split; [auto|]. split; [auto|]. split; [auto|]. cbv zeta.
           destruct (ffmpeg_error (ended (ffmpeg (outside w) n (download_args u videoPath))))
             as [m1|].
           ++ left. exists m1. destruct Hcap as [Hout Hsp].
              split; [reflexivity|]. split; [exact Hout|].
              split; [apply download_reason_stage | exact Hsp].
           ++ destruct (ffmpeg_error
                          (ended (ffmpeg (outside w) (S n) (audio_args videoPath audioPath))))
                as [m2|].
              ** right. left. exists m2. destruct Hcap as [Hout Hsp].
                 split; [reflexivity|]. split; [reflexivity|]. split; [exact Hout|].
                 split; [apply audio_reason_stage | exact Hsp].
              ** right. right. split; [reflexivity|]. split; [reflexivity|]. exact Hcap.
        -- left. rewrite (flvUrl_none streams Hsel). simpl.
           exists code, html, streams, "No FLV stream available".
           repeat split; auto.
Qed.

(** The answers of the capture after the fetch are failures 500 or the
    answer 200. *)
Lemma record_status (user recordingsDir audioDir : string) (w : World) :
  exists r : response,
    fst (record user recordingsDir audioDir w) = Sent r /\ (status r = 500 \/ status r = 200).
Proof.
  destruct (record_cases user recordingsDir audioDir w w eq_refl eq_refl eq_refl eq_refl)
    as [(? & ? & _ & -> & _)
       |[(? & ? & ? & _ & _ & _ & -> & _)
        |[(? & ? & ? & ? & _ & _ & _ & -> & _)
         |(? & ? & ? & ? & ? & _ & _ & _ & H)]]];
    try (eexists; split; [reflexivity | left; reflexivity]).
  cbv zeta in H.
  destruct H as [(? & _ & -> & _)|[(? & _ & _ & -> & _)|(_ & _ & -> & _)]];
    eexists; (split; [reflexivity|]); simpl; auto.
Qed.




End CaptureAnswer.


(** ** The two extractors of the state document *)

Section Extractors.
Import Js Markup.

Lemma append_nil_l (b : string) : EmptyString +:+ b = b.
Proof. reflexivity. Qed.

Lemma append_cons (x : ascii) (a b : string) : String x a +:+ b = String x (a +:+ b).
Proof. reflexivity. Qed.

Ltac unfold_append := rewrite ?append_cons, ?append_nil_l in *.

Lemma append_assoc (a b c : string) : (a +:+ b) +:+ c = a +:+ (b +:+ c).
Proof. induction a as [|x a IH]; unfold_append; [reflexivity | f_equal; exact IH]. Qed.

Lemma append_length (a b : string) :
  String.length (a +:+ b) = (String.length a + String.length b)%nat.
Proof. induction a as [|x a IH]; unfold_append; simpl; [reflexivity | f_equal; exact IH]. Qed.

(** Two splits of one string at the same offset are the same split. *)
Lemma append_same_length (a a' b b' : string) :
  a +:+ b = a' +:+ b' -> String.length a = String.length a' -> a = a' /\ b = b'.
Proof.
  revert a'. induction a as [|x a IH]; intros [|x' a'] H Hlen; unfold_append;
    simpl in Hlen; try discriminate; [auto|].
  injection H as -> H. injection Hlen as Hlen.
  destruct (IH a' H Hlen) as [-> ->]. auto.
Qed.

Lemma strip_prefix_Some (p s r : string) : JsString.strip_prefix p s = Some r <-> s = p +:+ r.
Proof.
  revert s. induction p as [|x p IH]; intros s; unfold_append; simpl.
  - split; congruence.
  - destruct s as [|y s]; [split; discriminate|].
    destruct (Ascii.eqb_spec x y) as [->|Hne].
    + rewrite IH. split; congruence.
    + split; [discriminate | congruence].
Qed.

Lemma strip_prefix_append (p r : string) : JsString.strip_prefix p (p +:+ r) = Some r.
Proof. apply strip_prefix_Some. reflexivity. Qed.

(** An occurrence is listed among the positions. *)
Lemma positions_from_In (p : string) (a b r : string) :
  forall i : nat,
    JsString.strip_prefix p b = Some r ->
    In (i + String.length a)%nat (Spec.positions_from p (a +:+ b) i).
Proof.
  induction a as [|x a IH]; intros i Hb; unfold_append; simpl.
  - rewrite Nat.add_0_r. destruct b as [|y b]; simpl; rewrite Hb; simpl; auto.
  - apply in_or_app. right. replace (i + S (String.length a))%nat
      with (S i + String.length a)%nat by lia. apply IH. exact Hb.
Qed.

Lemma positions_In (p a b r : string) :
  JsString.strip_prefix p b = Some r -> In (String.length a) (Spec.positions p (a +:+ b)).
Proof. intros H. exact (positions_from_In p a b r 0 H). Qed.

(** [search] with a pattern that matches nowhere, or at one offset only. *)
Lemma search_none (f : string -> option string) (s : string) :
  (forall a b : string, s = a +:+ b -> f b = None) -> search f s = None.
Proof.
  induction s as [|x s IH]; intros H; simpl.
  - rewrite (H EmptyString EmptyString eq_refl). reflexivity.
  - rewrite (H EmptyString (String x s) eq_refl). apply IH.
    intros a b ->. apply (H (String x a) b). reflexivity.
Qed.

Lemma search_only_at (f : string -> option string) (pre t : string) :
  (forall a b : string, pre +:+ t = a +:+ b -> a <> pre -> f b = None) ->
  search f (pre +:+ t) = f t.
Proof.
  induction pre as [|x pre IH]; intros H; unfold_append.
  - destruct t as [|y t]; simpl; destruct (f _) eqn:Hf; try reflexivity.
    apply search_none. intros a b ->. apply (H (String y a) b); [reflexivity | discriminate].
  - simpl. rewrite (H EmptyString (String x (pre +:+ t)) eq_refl) by discriminate.
    apply IH. intros a b Hab Hne. apply (H (String x a) b).
    + unfold_append. rewrite Hab. reflexivity.
    + congruence.
Qed.

Lemma search_Some (f : string -> option string) (s text : string) :
  search f s = Some text -> exists a b : string, s = a +:+ b /\ f b = Some text.
Proof.
  induction s as [|x s IH]; simpl.
  - destruct (f EmptyString) eqn:Hf; [|discriminate].
    intros [= <-]. exists EmptyString, EmptyString. auto.
  - destruct (f (String x s)) eqn:Hf.
    + intros [= <-]. exists EmptyString, (String x s). auto.
    + intros H. destruct (IH H) as (a & b & -> & Hb). exists (String x a), b. auto.
Qed.

(** A closing tag cannot begin inside [b] and end in the closing tag that
    follows [b]: it would have to overlap itself. *)
Lemma close_tag_inside (b rest r : string) :
  b <> EmptyString ->
  JsString.strip_prefix close_tag (b +:+ close_tag +:+ rest) = Some r ->
  exists b' : string, b = close_tag +:+ b'.
Proof.
  intros Hb H. apply strip_prefix_Some in H. unfold close_tag in *.
  destruct b as [|c1 b]; [congruence|]. unfold_append. injection H as -> H.
  do 8 (destruct b as [|? b]; unfold_append; [discriminate H | injection H as -> H]).
  exists b. reflexivity.
Qed.

Lemma no_position (p a b r : string) :
  Spec.positions p (a +:+ b) = nil -> JsString.strip_prefix p b = Some r -> False.
Proof.
  intros Hnone Hb. pose proof (positions_In p a b r Hb) as Hin.
  rewrite Hnone in Hin. destruct Hin.
Qed.

(** Inside a text without a closing tag, no closing tag begins. *)
Lemma close_tag_not_here (a b rest : string) :
  Spec.positions close_tag (a +:+ b) = nil -> b <> EmptyString ->
  JsString.strip_prefix close_tag (b +:+ close_tag +:+ rest) = None.
Proof.
  intros Hnone Hb.
  destruct (JsString.strip_prefix close_tag (b +:+ close_tag +:+ rest)) as [r|] eqn:H;
    [|reflexivity].
  exfalso. destruct (close_tag_inside b rest r Hb H) as [b' ->].
  exact (no_position close_tag a (close_tag +:+ b') b' Hnone (strip_prefix_append _ _)).
Qed.

Lemma lazy_until_close_cons (class : ascii -> bool) (c : ascii) (r : string) :
  lazy_until_close class (String c r) =
  match JsString.strip_prefix close_tag (String c r) with
  | Some _ => Some EmptyString
  | None =>
      if class c then
        match lazy_until_close class r with
        | Some body => Some (String c body)
        | None => None
        end
      else None
  end.
Proof. reflexivity. Qed.

Lemma lazy_until_close_here (class : ascii -> bool) (rest : string) :
  lazy_until_close class (close_tag +:+ rest) = Some EmptyString.
Proof. reflexivity. Qed.

(** The lazy star stops at the first closing tag: it captures a text that
    has no closing tag and is made of characters of the class. *)
Lemma lazy_until_close_body (class : ascii -> bool) (rest : string) :
  forall a b : string,
    Spec.positions close_tag (a +:+ b) = nil ->
    forallb class (Spec.chars b) = true ->
    lazy_until_close class (b +:+ close_tag +:+ rest) = Some b.
Proof.
  intros a b. revert a. induction b as [|c b IH]; intros a Hnone Hclass.
  - apply lazy_until_close_here.
  - simpl in Hclass. apply andb_true_iff in Hclass. destruct Hclass as [Hc Hclass].
    pose proof (close_tag_not_here a (String c b) rest Hnone) as Hhere.
    rewrite append_cons in *. rewrite lazy_until_close_cons, Hhere by discriminate.
    rewrite Hc. rewrite (IH (a +:+ String c EmptyString)); [reflexivity| |exact Hclass].
    rewrite append_assoc. exact Hnone.
Qed.

(** It fails when a character outside the class comes before the first
    closing tag. *)
Lemma lazy_until_close_fails (class : ascii -> bool) (rest : string) :
  forall a b : string,
    Spec.positions close_tag (a +:+ b) = nil ->
    forallb class (Spec.chars b) = false ->
    lazy_until_close class (b +:+ close_tag +:+ rest) = None.
Proof.
  intros a b. revert a. induction b as [|c b IH]; intros a Hnone Hclass.
  - discriminate.
  - simpl in Hclass.
    pose proof (close_tag_not_here a (String c b) rest Hnone) as Hhere.
    rewrite append_cons in *. rewrite lazy_until_close_cons, Hhere by discriminate.
    destruct (class c); [|reflexivity]. simpl in Hclass.
    rewrite (IH (a +:+ String c EmptyString)); [reflexivity| |exact Hclass].
    rewrite append_assoc. exact Hnone.
Qed.

Lemma lazy_until_close_class (class : ascii -> bool) (s text : string) :
  lazy_until_close class s = Some text -> forallb class (Spec.chars text) = true.
Proof.
  revert text. induction s as [|c s IH]; intros text.
  - discriminate.
  - rewrite lazy_until_close_cons.
    destruct (JsString.strip_prefix close_tag (String c s)); [intros [= <-]; reflexivity|].
    destruct (class c) eqn:Hc; [|discriminate].
    destruct (lazy_until_close class s) as [body|]; [|discriminate].
    intros [= <-]. simpl. rewrite Hc. apply IH. reflexivity.
Qed.

Lemma after_attributes_skips (attrs rest : string) :
  forallb (fun c => negb (Ascii.eqb c ">"%char)) (Spec.chars attrs) = true ->
  after_attributes (attrs +:+ ">" +:+ rest) = Some rest.
Proof.
  induction attrs as [|c attrs IH]; intros Hnone; unfold_append; simpl; [reflexivity|].
  simpl in Hnone. apply andb_true_iff in Hnone. destruct Hnone as [Hc Hnone].
  destruct (Ascii.eqb c ">"); [discriminate|]. apply IH. exact Hnone.
Qed.

(** When [p] occurs at one offset only, an occurrence is at that offset. *)
Lemma only_position (p pre t a b r : string) :
  Spec.positions p (pre +:+ t) = String.length pre :: nil ->
  pre +:+ t = a +:+ b -> JsString.strip_prefix p b = Some r -> a = pre.
Proof.
  intros Hone Hsplit Hb. pose proof (positions_In p a b r Hb) as Hin.
  rewrite <- Hsplit, Hone in Hin. destruct Hin as [Hlen|[]].
  symmetry in Hsplit. destruct (append_same_length a pre b t Hsplit) as [-> _]; auto.
Qed.

Lemma json_open_tag_marker :
  json_open_tag = marker +:+ JsString.dq " type='application/json'" +:+ ">".
Proof. reflexivity. Qed.

Lemma live_pattern_elsewhere (pre t a b : string) :
  Spec.positions marker (pre +:+ t) = String.length pre :: nil ->
  pre +:+ t = a +:+ b -> a <> pre -> live_pattern_at b = None.
Proof.
  intros Hone Hsplit Hne. unfold live_pattern_at.
  destruct (JsString.strip_prefix marker b) as [r|] eqn:Hb; [|reflexivity].
  exfalso. apply Hne. exact (only_position marker pre t a b r Hone Hsplit Hb).
Qed.

Lemma info_pattern_elsewhere (pre t a b : string) :
  Spec.positions marker (pre +:+ t) = String.length pre :: nil ->
  pre +:+ t = a +:+ b -> a <> pre -> info_pattern_at b = None.
Proof.
  intros Hone Hsplit Hne. unfold info_pattern_at.
  destruct (JsString.strip_prefix json_open_tag b) as [r|] eqn:Hb; [|reflexivity].
  exfalso. apply Hne. apply strip_prefix_Some in Hb.
  rewrite json_open_tag_marker, append_assoc in Hb.
  eapply (only_position marker pre t a b); [exact Hone | exact Hsplit |].
  apply strip_prefix_Some. exact Hb.
Qed.

(** C10.  What the pattern of the live-status route captures has no line
    terminator.  For a markup with one state element (the marker occurs
    once; the text of the element is what stands before the first closing
    tag): the live-status pattern captures the text when it has no line
    terminator; when it has one, the pattern finds nothing and the status
    query answers [live: false] with [status] and [roomId] null; the
    user-info pattern, given its [type] attribute, captures the text with
    or without line terminators, and [safeJsonParse] reads it.  On the
    sample page written on several lines the two extractors differ. *)
Theorem extractors_differ_on_line_breaks :
  (forall html text : string,
      match_live html = Some text -> forallb dot (Spec.chars text) = true)
  /\ (forall pre attrs body post : string,
        let html := pre +:+ marker +:+ attrs +:+ ">" +:+ body +:+ close_tag +:+ post in
        Spec.positions marker html = String.length pre :: nil ->
        forallb (fun c => negb (Ascii.eqb c ">"%char)) (Spec.chars attrs) = true ->
        Spec.positions close_tag body = nil ->
        (forallb dot (Spec.chars body) = true -> match_live html = Some body)
        /\ (forallb dot (Spec.chars body) = false ->
            match_live html = None
            /\ CheckLive.resolve html = CheckLive.Resolved false VNull VNull)
        /\ (attrs = JsString.dq " type='application/json'" ->
            match_info html = Some body
            /\ forall data : value,
                 Json.parse body = Some data -> UserInfo.safeJsonParse body = data))
  /\ match_live Scenario.multiline_page <> match_info Scenario.multiline_page.
Proof.
  split; [|split].
  - intros html text H. unfold match_live in H.
    destruct (search_Some _ _ _ H) as (a & b & _ & Hb). unfold live_pattern_at in Hb.
    destruct (JsString.strip_prefix marker b) as [r|]; [|discriminate].
    destruct (after_attributes r) as [r'|]; [|discriminate].
    exact (lazy_until_close_class dot r' text Hb).
  - intros pre attrs body post html Hone Hattrs Hclose.
    assert (Hlive : match_live html
                    = lazy_until_close dot (body +:+ close_tag +:+ post)).
    { unfold match_live, html. rewrite search_only_at.
      - unfold live_pattern_at. rewrite strip_prefix_append.
        rewrite (after_attributes_skips attrs _ Hattrs). reflexivity.
      - intros a b. apply live_pattern_elsewhere. exact Hone. }
    split; [|split].
    + intros Hdot. rewrite Hlive.
      exact (lazy_until_close_body dot post EmptyString body Hclose Hdot).
    + intros Hdot.
      assert (Hnone : match_live html = None).
      { rewrite Hlive. exact (lazy_until_close_fails dot post EmptyString body Hclose Hdot). }
      split; [exact Hnone|]. unfold CheckLive.resolve. rewrite Hnone. reflexivity.
    + intros ->.
      assert (Hinfo : match_info html = Some body).
      { unfold match_info, html. rewrite search_only_at.
        - unfold info_pattern_at.
          change (marker +:+ JsString.dq " type='application/json'" +:+ ">"
                  +:+ body +:+ close_tag +:+ post)
            with (json_open_tag +:+ body +:+ close_tag +:+ post).
          rewrite strip_prefix_append.
          apply (lazy_until_close_body any post EmptyString body Hclose).
          clear. induction (Spec.chars body); simpl; auto.
        - intros a b. apply info_pattern_elsewhere. exact Hone. }
      split; [exact Hinfo|].
      intros data Hparse. unfold UserInfo.safeJsonParse. rewrite Hparse. reflexivity.
  - vm_compute. discriminate.
Qed.

(** The sample page written on several lines: the live-status route finds
    no document, the user-info route reads it. *)
Lemma extractors_differ_on_line_breaks_witness :
  match_live Scenario.multiline_page = None
  /\ CheckLive.resolve Scenario.multiline_page = CheckLive.Resolved false VNull VNull
  /\ match_info Scenario.multiline_page = Some Scenario.multiline_document
  /\ UserInfo.lookup Scenario.multiline_page "foo" = inr (VStr "42", VStr "FR").
Proof.
  destruct (proj1 (proj2 extractors_differ_on_line_breaks)
              "<html>" (JsString.dq " type='application/json'")
              Scenario.multiline_document "</html>")
    as (_ & Hlive & Hinfo).
  - vm_compute. reflexivity.
  - vm_compute. reflexivity.
  - vm_compute. reflexivity.
  - destruct Hlive as [Hnone Hresolve]; [vm_compute; reflexivity|].
    destruct Hinfo as [Hsome _]; [reflexivity|].
    split; [exact Hnone|]. split; [exact Hresolve|]. split; [exact Hsome|].
    vm_compute. reflexivity.
Defined.

End Extractors.

(** ** White space around account names *)

Section WhiteSpace.
Import JsString.

Lemma trimStart_white (s : string) : Props.white s = true -> trimStart s = EmptyString.
Proof.
  unfold Props.white. induction s as [|c s IH]; simpl; [reflexivity|].
  intros H. apply andb_true_iff in H. destruct H as [Hc Hs]. rewrite Hc. auto.
Qed.

Lemma trimStart_empty (s : string) : trimStart s = EmptyString -> Props.white s = true.
Proof.
  unfold Props.white. induction s as [|c s IH]; simpl; [reflexivity|].
  destruct (is_white_space c); [simpl; auto | discriminate].
Qed.

Lemma trimStart_head (s : string) (c : ascii) (r : string) :
  trimStart s = String c r -> is_white_space c = false.
Proof.
  induction s as [|x s IH]; simpl; [discriminate|].
  destruct (is_white_space x) eqn:Hx; [exact IH|]. intros [= <- _]. exact Hx.
Qed.

Lemma trimStart_fixed (s : string) :
  (forall (c : ascii) (r : string), s = String c r -> is_white_space c = false) ->
  trimStart s = s.
Proof.
  destruct s as [|c r]; simpl; [reflexivity|].
  intros H. rewrite (H c r eq_refl). reflexivity.
Qed.

Lemma trimEnd_cons (c : ascii) (r : string) :
  trimEnd (String c r)
  = if is_white_space c && is_empty (trimEnd r) then EmptyString else String c (trimEnd r).
Proof. reflexivity. Qed.

Lemma is_empty_true (s : string) : is_empty s = true <-> s = EmptyString.
Proof. destruct s; simpl; split; congruence. Qed.

Lemma trimEnd_empty (s : string) : trimEnd s = EmptyString <-> Props.white s = true.
Proof.
  unfold Props.white. induction s as [|c s IH]; [simpl; tauto|].
  rewrite trimEnd_cons. simpl forallb. rewrite andb_true_iff, <- IH.
  destruct (is_white_space c); simpl.
  - destruct (trimEnd s); simpl; split; try tauto; try discriminate.
    intros [_ H]. discriminate.
  - split; [discriminate|]. intros [H _]. discriminate.
Qed.

Lemma trimEnd_head (c : ascii) (r : string) :
  is_white_space c = false -> trimEnd (String c r) = String c (trimEnd r).
Proof. intros H. rewrite trimEnd_cons, H. reflexivity. Qed.

Lemma trimEnd_idempotent (s : string) : trimEnd (trimEnd s) = trimEnd s.
Proof.
  induction s as [|c s IH]; [reflexivity|].
  rewrite trimEnd_cons.
  destruct (is_white_space c && is_empty (trimEnd s)) eqn:H; [reflexivity|].
  rewrite trimEnd_cons, IH, H. reflexivity.
Qed.

Lemma trimEnd_last (s r : string) (c : ascii) :
  trimEnd s = r +:+ String c EmptyString -> is_white_space c = false.
Proof.
  revert r. induction s as [|x s IH]; intros r.
  - destruct r; discriminate.
  - rewrite trimEnd_cons.
    destruct (is_white_space x && is_empty (trimEnd s)) eqn:H.
    + destruct r; discriminate.
    + destruct r as [|y r].
      * intros [= -> He]. rewrite He in H. simpl in H. rewrite andb_true_r in H. exact H.
      * intros [= _ He]. exact (IH r He).
Qed.

Lemma trim_head (s : string) (c : ascii) (r : string) :
  trim s = String c r -> is_white_space c = false.
Proof.
  unfold trim. destruct (trimStart s) as [|x t] eqn:Ht; [discriminate|].
  pose proof (trimStart_head s x t Ht) as Hx.
  rewrite (trimEnd_head x t Hx). intros [= <- _]. exact Hx.
Qed.

Lemma trim_last (s r : string) (c : ascii) :
  trim s = r +:+ String c EmptyString -> is_white_space c = false.
Proof. apply trimEnd_last. Qed.

Lemma trim_idempotent (s : string) : trim (trim s) = trim s.
Proof.
  unfold trim at 1. rewrite trimStart_fixed by apply trim_head.
  unfold trim. apply trimEnd_idempotent.
Qed.

Lemma trim_empty (s : string) : trim s = EmptyString <-> Props.white s = true.
Proof.
  unfold trim. split.
  - intros H. apply trimStart_empty.
    destruct (trimStart s) as [|x t] eqn:Ht; [reflexivity|].
    rewrite (trimEnd_head x t (trimStart_head s x t Ht)) in H. discriminate.
  - intros H. rewrite (trimStart_white s H). reflexivity.
Qed.

End WhiteSpace.

Section Refusals.
Import Js Http Sys.

(** The test of the four routes refuses a name that is absent, repeated
    or made of white space only, and no other. *)
Lemma valid_username_None (q : query_value) :
  Account.valid_username q = None <->
  match q with QString s => Props.white s = true | QAbsent | QArray _ => True end.
Proof.
  destruct q as [|s|l]; simpl; [tauto| |tauto].
  rewrite <- trim_empty, <- is_empty_true.
  destruct (JsString.is_empty (JsString.trim s)); split; congruence.
Qed.

Lemma valid_username_Some (q : query_value) (username : string) :
  Account.valid_username q = Some username ->
  q = QString username /\ Props.white username = false.
Proof.
  destruct q as [|s|l]; simpl; try discriminate.
  destruct (JsString.is_empty (JsString.trim s)) eqn:He; [discriminate|].
  intros [= <-]. split; [reflexivity|].
  destruct (Props.white s) eqn:Hw; [|reflexivity].
  apply trim_empty in Hw. rewrite Hw in He. discriminate.
Qed.

(** X1.  The live-status, start-comments, get-logs and record routes
    refuse a request exactly when its [username] is absent, is not one
    string, or is made of white space only.  The refusal is the answer 400
    [Missing or invalid username], and the process is left as it was:
    nothing is fetched, created or registered.  A request with another
    name is not refused: none of the four routes answers it 400.  The
    record route tests the method first: a request that is not a POST is
    answered 405, whatever its name is, and nothing else happens. *)
Theorem requests_without_a_name_are_refused (q : query_value) :
  (Account.valid_username q = None <->
   match q with QString s => Props.white s = true | QAbsent | QArray _ => True end)
  /\ (Account.valid_username q = None ->
      forall (m : string) (w : World),
        CheckLive.handler (Request m q) w = (Account.bad_request, w)
        /\ StartComments.handler (Request m q) w = (Account.bad_request, w)
        /\ GetLogs.handler (Request m q) w = (Account.bad_request, w)
        /\ Record.handler (Request "POST" q) w = (Sent Account.bad_request, w))
  /\ (forall username : string,
        Account.valid_username q = Some username ->
        forall (m : string) (w : World),
          status (fst (CheckLive.handler (Request m q) w)) <> 400
          /\ status (fst (StartComments.handler (Request m q) w)) <> 400
          /\ status (fst (GetLogs.handler (Request m q) w)) <> 400
          /\ forall r : response,
               fst (Record.handler (Request m q) w) = Sent r -> status r <> 400)
  /\ forall (m : string) (w : World),
       m <> "POST" ->
       Record.handler (Request m q) w
       = (Sent (json 405 (("error", VStr "Method not allowed") :: nil)), w).
Proof.
  split; [apply valid_username_None|]. split; [|split].
  - intros Hv m w.
    unfold CheckLive.handler, StartComments.handler, GetLogs.handler, Record.handler.
    simpl. rewrite Hv. auto.
  - intros username Hv m w. split; [|split; [|split]].
    + unfold CheckLive.handler. simpl. rewrite Hv.
      unfold mbind, M_bind, fetch, mret, M_ret.
      destruct (upstream _ _ _); simpl; discriminate.
    + unfold StartComments.handler. simpl. rewrite Hv.
      unfold mbind, M_bind, mret, M_ret, StartComments.init_globals,
        StartComments.set_log, connect_chat, StartComments.set_watcher.
      destruct (found_truthy _); [simpl; discriminate|].
      simpl. destruct (connect _ _ _); simpl; discriminate.
    + unfold GetLogs.handler. simpl. rewrite Hv. simpl. discriminate.
    + intros r. destruct (String.eqb_spec m "POST") as [->|Hm].
      * rewrite (record_handler_eq (Request "POST" q) username w eq_refl Hv). cbv zeta.
        destruct (Record.ensure_dir _ w) as [[m1|] w1]; [discriminate|].
        destruct (Record.ensure_dir _ w1) as [[m2|] w2]; [discriminate|].
        destruct (record_status (Account.user_of username)
                    (Path.join (cwd (outside w)) "recordings")
                    (Path.join (cwd (outside w)) "audio") w2) as (r' & -> & Hs).
        intros [= <-]. destruct Hs as [-> | ->]; discriminate.
      * unfold Record.handler. simpl. apply String.eqb_neq in Hm. rewrite Hm. simpl.
        intros [= <-]. simpl. discriminate.
  - intros m w Hm. unfold Record.handler. simpl.
    destruct (String.eqb_spec m "POST") as [->|_]; [congruence | reflexivity].
Qed.

End Refusals.

(** ** The account name a route works with *)

Section AccountNames.
Import Js Http Sys.

Lemma white_false_head (c : ascii) (r : string) :
  JsString.is_white_space c = false -> Props.white (String c r) = false.
Proof. intros H. unfold Props.white. simpl. rewrite H. reflexivity. Qed.

Lemma at_sign_is_no_white_space : JsString.is_white_space "@"%char = false.
Proof. reflexivity. Qed.

Lemma strip_at_cases (s : string) :
  (exists r : string, s = String "@"%char r /\ JsString.strip_at s = r)
  \/ ((forall r : string, s <> String "@"%char r) /\ JsString.strip_at s = s).
Proof.
  destruct s as [|c r]; [right; split; [discriminate | reflexivity]|].
  simpl. destruct (Ascii.eqb_spec c "@"%char) as [->|Hne].
  - left. exists r. auto.
  - right. split; [|reflexivity]. intros r' [= Hc _]. contradiction.
Qed.

(** X2.  The name that the live-status, start-comments, get-logs and
    record routes work with, [username.replace(/^@/, '').trim()], neither
    begins nor ends with white space, and trimming it again changes
    nothing.  It is empty exactly when what follows the leading [@] is
    white space only; so a name that passed the test of the route gives
    the empty account exactly when it is an [@] followed by nothing but
    white space. *)
Theorem account_name_has_no_outer_white_space (username : string) :
  let user := Account.user_of username in
  JsString.trim user = user
  /\ (forall (c : ascii) (r : string),
        user = String c r -> JsString.is_white_space c = false)
  /\ (forall (r : string) (c : ascii),
        user = r +:+ String c EmptyString -> JsString.is_white_space c = false)
  /\ (user = EmptyString <-> Props.white (JsString.strip_at username) = true)
  /\ (Account.valid_username (QString username) = Some username ->
      (user = EmptyString <->
       exists r : string, username = String "@"%char r /\ Props.white r = true)).
Proof.
  intros user. subst user. unfold Account.user_of.
  split; [apply trim_idempotent|]. split; [apply trim_head|]. split; [apply trim_last|].
  split; [apply trim_empty|].
  intros Hv. apply valid_username_Some in Hv. destruct Hv as [_ Hw].
  rewrite trim_empty.
  destruct (strip_at_cases username) as [(r & -> & ->)|[Hne ->]].
  - split.
    + intros H. exists r. auto.
    + intros (r' & [= <-] & H). exact H.
  - split.
    + intros H. congruence.
    + intros (r & -> & _). exfalso. exact (Hne r eq_refl).
Qed.

(** X3.  The user-info route trims first and then drops the [@]; the
    other routes drop the [@] first and then trim.  The two give the same
    account name for every input that does not begin with white space and
    in which no white space follows a leading [@]. *)
Theorem routes_agree_on_the_account_name (s : string) :
  (forall (c : ascii) (r : string), s = String c r -> JsString.is_white_space c = false) ->
  (forall (c : ascii) (r : string),
      s = String "@"%char (String c r) -> JsString.is_white_space c = false) ->
  UserInfo.username_of (QString s) = Account.user_of s.
Proof.
  intros Hhead Hnext.
  unfold UserInfo.username_of, UserInfo.usernameRaw, Account.user_of, JsString.trim.
  rewrite (trimStart_fixed s Hhead).
  destruct (strip_at_cases s) as [(r & -> & Hs)|[Hne Hs]]; rewrite Hs.
  - rewrite (trimEnd_head _ r at_sign_is_no_white_space). simpl.
    rewrite trimStart_fixed; [reflexivity|]. intros c t ->. exact (Hnext c t eq_refl).
  - rewrite (trimStart_fixed s Hhead).
    destruct s as [|c r]; [reflexivity|].
    rewrite (trimEnd_head c r (Hhead c r eq_refl)). simpl.
    destruct (Ascii.eqb_spec c "@"%char) as [->|_]; [|reflexivity].
    exfalso. exact (Hne r eq_refl).
Qed.

(** The name [@Foo ] is [Foo] for every route. *)
Lemma routes_agree_on_the_account_name_witness :
  UserInfo.username_of (QString "@Foo ") = Account.user_of "@Foo ".
Proof.
  apply (routes_agree_on_the_account_name "@Foo ").
  - intros c r [= <- _]. reflexivity.
  - intros c r [= <- _]. reflexivity.
Defined.

(** Where the hypotheses fail the two orders differ: white space before
    the [@] keeps it for the four routes and not for the user-info route;
    white space after it stays in the name of the user-info route. *)
Example routes_differ_around_white_space :
  UserInfo.username_of (QString " @foo") = "foo" /\ Account.user_of " @foo" = "@foo"
  /\ UserInfo.username_of (QString "@ foo") = " foo" /\ Account.user_of "@ foo" = "foo".
Proof. repeat split. Qed.

End AccountNames.

(** ** The URL of the upstream page *)

Section Urls.
Import Js Http Sys.

Lemma chars_app (a b : string) : Spec.chars (a +:+ b) = Spec.chars a ++ Spec.chars b.
Proof.
  induction a as [|x a IH]; rewrite ?append_cons, ?append_nil_l; simpl;
    [reflexivity | f_equal; exact IH].
Qed.

Lemma encodeURIComponent_cons (c : ascii) (r : string) :
  JsString.encodeURIComponent (String c r)
  = JsString.encodeURIComponent (String c EmptyString) +:+ JsString.encodeURIComponent r.
Proof.
  simpl. destruct (JsString.uri_unreserved c); [reflexivity|].
  destruct (JsString.code c <? 128); rewrite ?append_assoc; reflexivity.
Qed.

Lemma escape_is_segment (c : ascii) :
  forallb Props.segment_char (Spec.chars (JsString.encodeURIComponent (String c EmptyString)))
  = true.
Proof. destruct c as [[|] [|] [|] [|] [|] [|] [|] [|]]; vm_compute; reflexivity. Qed.

Lemma segment_char_not_reserved (c : ascii) :
  Props.segment_char c = true ->
  ~ In c ("/" :: "?" :: "#" :: "&" :: "=" :: "@" :: ":" :: " " :: nil)%char.
Proof.
  intros H Hin. simpl in Hin.
  repeat (destruct Hin as [<-|Hin]; [vm_compute in H; discriminate|]). exact Hin.
Qed.

(** What begins with the escape of [c] tells [c] and what follows it. *)
Lemma escape_is_read_back :
  exists head : string -> option (ascii * string),
    forall (c : ascii) (rest : string),
      head (JsString.encodeURIComponent (String c EmptyString) +:+ rest) = Some (c, rest).
Proof.
  pose (hex := fun h : ascii =>
                 let n := JsString.code h in if n <? 58 then n - 48 else n - 55).
  pose (byte := fun h1 h2 : ascii => hex h1 * 16 + hex h2).
  exists (fun s =>
            match s with
            | String p (String h1 (String h2 r)) =>
                if Ascii.eqb p "%"%char then
                  if byte h1 h2 <? 128 then Some (ascii_of_nat (Z.to_nat (byte h1 h2)), r)
                  else
                    match r with
                    | String _ (String h3 (String h4 r')) =>
                        Some (ascii_of_nat (Z.to_nat ((byte h1 h2 - 192) * 64 + (byte h3 h4 - 128))), r')
                    | _ => None
                    end
                else Some (p, String h1 (String h2 r))
            | String p r => Some (p, r)
            | EmptyString => None
            end).
  intros c rest.
  destruct c as [[|] [|] [|] [|] [|] [|] [|] [|]];
    try (vm_compute; destruct rest as [|? [|? ?]]; reflexivity).
Qed.

Lemma escape_not_empty (c : ascii) (rest : string) :
  JsString.encodeURIComponent (String c EmptyString) +:+ rest <> EmptyString.
Proof. destruct c as [[|] [|] [|] [|] [|] [|] [|] [|]]; vm_compute; discriminate. Qed.

Lemma encodeURIComponent_injective (s1 s2 : string) :
  JsString.encodeURIComponent s1 = JsString.encodeURIComponent s2 -> s1 = s2.
Proof.
  destruct escape_is_read_back as [head Hhead].
  revert s2. induction s1 as [|c1 r1 IH]; intros [|c2 r2] H.
  - reflexivity.
  - rewrite encodeURIComponent_cons in H. symmetry in H.
    exfalso. exact (escape_not_empty _ _ H).
  - rewrite encodeURIComponent_cons in H.
    exfalso. exact (escape_not_empty _ _ H).
  - rewrite (encodeURIComponent_cons c1), (encodeURIComponent_cons c2) in H.
    apply (f_equal head) in H. rewrite !Hhead in H. injection H as -> H.
    rewrite (IH r2 H). reflexivity.
Qed.

Lemma encodeURIComponent_segment (s : string) :
  forallb Props.segment_char (Spec.chars (JsString.encodeURIComponent s)) = true.
Proof.
  induction s as [|c r IH]; [reflexivity|].
  rewrite encodeURIComponent_cons, chars_app, forallb_app, escape_is_segment, IH.
  reflexivity.
Qed.

Lemma append_cancel_l (p a b : string) : p +:+ a = p +:+ b -> a = b.
Proof.
  induction p as [|x p IH]; rewrite ?append_cons, ?append_nil_l; [auto|].
  intros [= H]. auto.
Qed.

Lemma append_cancel_r (a b q : string) : a +:+ q = b +:+ q -> a = b.
Proof.
  intros H.
  assert (Hlen : String.length a = String.length b).
  { apply (f_equal String.length) in H. rewrite !append_length in H. lia. }
  exact (proj1 (append_same_length a b q q H Hlen)).
Qed.

(** X4.  In the URL of the live page and of the profile page the account
    name is written with [encodeURIComponent]: what is written consists of
    unreserved characters and percent escapes only, so it has no slash,
    question mark, hash, ampersand, equals sign, at sign, colon or space,
    and stays one segment of the path; and two names are fetched from the
    same URL only when they are the same name. *)
Theorem account_name_is_one_path_segment (user : string) :
  CheckLive.live_url user
  = "https://www.tiktok.com/@" +:+ JsString.encodeURIComponent user +:+ "/live"
  /\ UserInfo.profile_url user
     = "https://www.tiktok.com/@" +:+ JsString.encodeURIComponent user
  /\ forallb Props.segment_char (Spec.chars (JsString.encodeURIComponent user)) = true
  /\ (forall c : ascii,
        In c (Spec.chars (JsString.encodeURIComponent user)) ->
        ~ In c ("/" :: "?" :: "#" :: "&" :: "=" :: "@" :: ":" :: " " :: nil)%char)
  /\ (forall other : string,
        CheckLive.live_url other = CheckLive.live_url user -> other = user)
  /\ (forall other : string,
        UserInfo.profile_url other = UserInfo.profile_url user -> other = user).
Proof.
  split; [reflexivity|]. split; [reflexivity|].
  split; [apply encodeURIComponent_segment|]. split; [|split].
  - intros c Hin. apply segment_char_not_reserved.
    pose proof (encodeURIComponent_segment user) as H.
    rewrite forallb_forall in H. exact (H c Hin).
  - intros other H. unfold CheckLive.live_url in H.
    apply append_cancel_l, append_cancel_r in H.
    exact (encodeURIComponent_injective _ _ H).
  - intros other H. unfold UserInfo.profile_url in H.
    apply append_cancel_l in H. exact (encodeURIComponent_injective _ _ H).
Qed.

End Urls.

(** ** What each route leaves alone *)

Section Frames.
Import Js Http Sys.

Lemma check_live_world (req : request) (w : World) :
  snd (CheckLive.handler req w) = w
  \/ exists url : string, snd (CheckLive.handler req w) = with_fetched (fetched w ++ url :: nil) w.
Proof.
  unfold CheckLive.handler. destruct (Account.valid_username _); [|left; reflexivity].
  right. unfold mbind, M_bind, fetch, mret, M_ret. simpl.
  destruct (upstream _ _ _); simpl; eauto.
Qed.

Lemma after_miss_eq (username : string) (w : World) :
  UserInfo.after_miss username w =
  let wf := with_fetched (fetched w ++ UserInfo.profile_url username :: nil) w in
  match upstream (outside w) (length (fetched w)) (UserInfo.profile_url username) with
  | NetworkError name message =>
      (UserInfo.server_error (UserInfo.error_text name message), wf)
  | Page code html =>
      if negb ((200 <=? code) && (code <=? 299)) then
        (Response code UserInfo.cors
           (Some (("username", VStr username)
                  :: ("error", VStr ("TikTok HTTP " +:+ JsString.of_int code))
                  :: ("userId", VNull) :: ("country", VNull)
                  :: ("source", VStr "tiktok") :: nil)), wf)
      else
        match UserInfo.lookup html username with
        | inl e => (UserInfo.server_error e, wf)
        | inr (userId, country) =>
            match UserInfo.dataOut username userId country with
            | inl e => (UserInfo.server_error e, wf)
            | inr d =>
                (Response 200
                   (UserInfo.cors
                    ++ ("Cache-Control", "s-maxage=3600, stale-while-revalidate=86400") :: nil)
                   (Some d),
                 with_cache (<[ UserInfo.key_of username
                                := CacheEntry (now (outside w) (clock_reads w)) d ]> (cache w))
                            (with_clock_reads (S (clock_reads w)) wf))
            end
        end
  end.
Proof.
  unfold UserInfo.after_miss, mbind, M_bind, fetch, mret, M_ret, UserInfo.cache_set, Date_now.
  cbv zeta.
  destruct (upstream _ _ _) as [name message|code html]; [reflexivity|].
  destruct (negb _); [reflexivity|].
  destruct (UserInfo.lookup html username) as [e|[userId country]]; [reflexivity|].
  destruct (UserInfo.dataOut username userId country) as [e|d]; reflexivity.
Qed.

(** The four ways the user-info route goes. *)
Lemma user_info_cases (req : request) (w : World) :
  let username := UserInfo.username_of (query_username req) in
  let key := UserInfo.key_of username in
  (String.eqb (method req) "OPTIONS" = true
   /\ UserInfo.handler req w = (Response 204 UserInfo.cors None, w))
  \/ (String.eqb (method req) "OPTIONS" = false /\ username = EmptyString
      /\ UserInfo.handler req w
         = (Response 400 UserInfo.cors (Some (("error", VStr "Missing username") :: nil)), w))
  \/ (UserInfo.asks_for req username
      /\ exists h : cache_entry,
           fst (UserInfo.cache_get key w) = Some h
           /\ UserInfo.handler req w = (UserInfo.hit_response h, snd (UserInfo.cache_get key w)))
  \/ (UserInfo.asks_for req username
      /\ fst (UserInfo.cache_get key w) = None
      /\ UserInfo.handler req w
         = UserInfo.after_miss username (snd (UserInfo.cache_get key w))).
Proof.
  intros username key.
  destruct (String.eqb (method req) "OPTIONS") eqn:Hm.
  - left. split; [reflexivity|]. unfold UserInfo.handler. rewrite Hm. reflexivity.
  - right. destruct username as [|c r] eqn:Hu.
    + left. split; [reflexivity|]. split; [reflexivity|].
      unfold UserInfo.handler. rewrite Hm. fold username. rewrite Hu. reflexivity.
    + right.
      assert (Hreq : UserInfo.asks_for req (String c r)).
      { split; [exact Hm|]. split; [exact Hu | discriminate]. }
      destruct (fst (UserInfo.cache_get key w)) as [h|] eqn:Hget.
      * left. split; [exact Hreq|]. exists h. split; [reflexivity|].
        exact (handler_hit req (String c r) w h Hreq Hget).
      * right. split; [exact Hreq|]. split; [reflexivity|].
        exact (handler_miss req (String c r) w Hreq Hget).
Qed.

(** The world after the cache read differs in the clock count only. *)
Lemma cache_get_clock (k : string) (w : World) :
  snd (UserInfo.cache_get k w) = w
  \/ snd (UserInfo.cache_get k w) = with_clock_reads (S (clock_reads w)) w.
Proof.
  unfold UserInfo.cache_get. destruct (cache w !! k); simpl; auto.
Qed.

Lemma snoc_not_same {A : Type} (l : list A) (x : A) : l ++ x :: nil <> l.
Proof.
  intros H. apply (f_equal (@length A)) in H. rewrite length_app in H. simpl in H. lia.
Qed.

End Frames.

(** ** The answers of the user-info route *)

Section UserInfoAnswers.
Import Js Http Sys UserInfo.

(** X5.  How a failure of the upstream is reported.  When the fetch of
    the page is rejected, the live-status route answers 500 with the
    message of the error, and the user-info route answers 500
    [Server error] with the text of the error as detail.  When the
    upstream answers with a status outside 200 to 299, the user-info route
    passes this status on, with the error [TikTok HTTP] and the status and
    with [userId] and [country] null.  In each case the page has been
    asked for once and the cache is as it was. *)
Theorem upstream_failures_are_reported :
  (forall (req : request) (username : string) (w : World) (name message : string),
      Account.valid_username (query_username req) = Some username ->
      upstream (outside w) (length (fetched w)) (CheckLive.live_url (Account.user_of username))
      = NetworkError name message ->
      CheckLive.handler req w
      = (json 500 (("error", VStr message) :: nil),
         with_fetched (fetched w ++ CheckLive.live_url (Account.user_of username) :: nil) w))
  /\ (forall (req : request) (username : string) (w : World) (name message : string),
        asks_for req username ->
        fst (cache_get (key_of username) w) = None ->
        upstream (outside w) (length (fetched w)) (profile_url username)
        = NetworkError name message ->
        fst (handler req w)
        = Response 500 cors
            (Some (("error", VStr "Server error")
                   :: ("detail", VStr (error_text name message)) :: nil))
        /\ fetched (snd (handler req w)) = fetched w ++ profile_url username :: nil
        /\ cache (snd (handler req w)) = cache w)
  /\ (forall (req : request) (username : string) (w : World) (code : Z) (html : string),
        asks_for req username ->
        fst (cache_get (key_of username) w) = None ->
        upstream (outside w) (length (fetched w)) (profile_url username) = Page code html ->
        code < 200 \/ 299 < code ->
        fst (handler req w)
        = Response code cors
            (Some (("username", VStr username)
                   :: ("error", VStr ("TikTok HTTP " +:+ JsString.of_int code))
                   :: ("userId", VNull) :: ("country", VNull)
                   :: ("source", VStr "tiktok") :: nil))
        /\ fetched (snd (handler req w)) = fetched w ++ profile_url username :: nil
        /\ cache (snd (handler req w)) = cache w).
Proof.
  split; [|split].
  - intros req username w name message Hv Hup. unfold CheckLive.handler. rewrite Hv.
    unfold mbind, M_bind, fetch, mret, M_ret. simpl. rewrite Hup. reflexivity.
  - intros req username w name message Hreq Hget Hup.
    rewrite (handler_miss req username w Hreq Hget), after_miss_eq. cbv zeta.
    destruct (cache_get_world (key_of username) w) as (Hc & Hf & Ho & _).
    rewrite Ho, Hf, Hup. simpl. rewrite Hc. auto.
  - intros req username w code html Hreq Hget Hup Hcode.
    rewrite (handler_miss req username w Hreq Hget), after_miss_eq. cbv zeta.
    destruct (cache_get_world (key_of username) w) as (Hc & Hf & Ho & _).
    rewrite Ho, Hf, Hup.
    assert (Hok : negb ((200 <=? code) && (code <=? 299)) = true).
    { apply negb_true_iff, andb_false_iff.
      destruct Hcode as [H|H]; [left; apply Z.leb_gt | right; apply Z.leb_gt]; exact H. }
    rewrite Hok. simpl. rewrite Hc. auto.
Qed.

(** X6.  Every answer of the user-info route carries the three CORS
    headers, whatever the method, the name and the outcome are.  The
    header [Cache-Control] is added to them exactly on an answer 200 made
    from a page that has just been fetched; an answer from the cache has
    the CORS headers only. *)
Theorem user_info_answers_carry_cors (req : request) (w : World) :
  let r := fst (handler req w) in
  let w' := snd (handler req w) in
  let cache_control := ("Cache-Control", "s-maxage=3600, stale-while-revalidate=86400") in
  (headers r = cors \/ headers r = cors ++ cache_control :: nil)
  /\ (headers r = cors ++ cache_control :: nil <->
      status r = 200 /\ fetched w' <> fetched w).
Proof.
  intros r w' cache_control. subst r w'.
  destruct (user_info_cases req w) as [[_ ->]|[(_ & _ & ->)|[(_ & h & Hh & ->)|(_ & Hn & ->)]]];
    cbv zeta.
  - simpl. split; [auto|]. split; [discriminate | intros [H _]; discriminate].
  - simpl. split; [auto|]. split; [discriminate | intros [H _]; discriminate].
  - simpl. split; [auto|]. split; [discriminate|]. intros [_ H]. exfalso. apply H.
    apply (cache_get_world (key_of (username_of (query_username req))) w).
  - rewrite after_miss_eq. cbv zeta.
    destruct (upstream _ _ _) as [name message|code html].
    + simpl. split; [auto|]. split; [discriminate | intros [H _]; discriminate].
    + destruct (negb ((200 <=? code) && (code <=? 299))) eqn:Hcode.
      * simpl. split; [auto|]. split; [discriminate|]. intros [-> _]. discriminate.
      * destruct (lookup html _) as [e|[userId country]].
        -- simpl. split; [auto|]. split; [discriminate | intros [H _]; discriminate].
        -- destruct (dataOut _ userId country) as [e|d].
           ++ simpl. split; [auto|]. split; [discriminate | intros [H _]; discriminate].
           ++ simpl. split; [auto|]. split; [|reflexivity]. intros _. split; [reflexivity|].
              destruct (cache_get_world (key_of (username_of (query_username req))) w)
                as (_ & -> & _). apply snoc_not_same.
Qed.

(** X7.  The user-info route writes its cache only when it answers 200
    from a page it has just fetched: an answer other than 200 leaves the
    cache as it was (a failed lookup is not remembered), and so does a run
    that fetches nothing.  No run changes the entry of a key other than
    the lower-cased name it was asked for. *)
Theorem user_info_cache_is_written_with_a_result (req : request) (w : World) :
  let r := fst (handler req w) in
  let w' := snd (handler req w) in
  (status r <> 200 -> cache w' = cache w)
  /\ (fetched w' = fetched w -> cache w' = cache w)
  /\ (forall k : string,
        k <> key_of (username_of (query_username req)) -> cache w' !! k = cache w !! k).
Proof.
  intros r w'. subst r w'.
  destruct (user_info_cases req w) as [[_ ->]|[(_ & _ & ->)|[(_ & h & Hh & ->)|(_ & Hn & ->)]]];
    cbv zeta; try (simpl; auto; fail).
  - destruct (cache_get_world (key_of (username_of (query_username req))) w) as (Hc & _).
    simpl. rewrite Hc. auto.
  - destruct (cache_get_world (key_of (username_of (query_username req))) w)
      as (Hc & Hf & _).
    rewrite after_miss_eq. cbv zeta.
    destruct (upstream _ _ _) as [name message|code html]; [simpl; rewrite Hc; auto|].
    destruct (negb _); [simpl; rewrite Hc; auto|].
    destruct (lookup html _) as [e|[userId country]]; [simpl; rewrite Hc; auto|].
    destruct (dataOut _ userId country) as [e|d]; [simpl; rewrite Hc; auto|].
    simpl. split; [congruence|]. split.
    + rewrite Hf. intros H. exfalso. exact (snoc_not_same _ _ H).
    + intros k Hk. rewrite Hc. apply lookup_insert_ne. congruence.
Qed.

Lemma text_or_null_value (x v : value) : text_or_null x = inr v -> Props.null_or_text v.
Proof.
  unfold text_or_null. destruct (truthy x).
  - destruct (ToString x) as [[s|l]|]; [| |discriminate]; intros [= <-]; right;
      [left | right]; eauto.
  - intros [= <-]. left. reflexivity.
Qed.

Lemma dataOut_result (username : string) (userId country : value) (d : list (string * value)) :
  dataOut username userId country = inr d -> Props.result_of username d.
Proof.
  unfold dataOut.
  destruct (text_or_null userId) as [e|i] eqn:Hi; [discriminate|].
  destruct (text_or_null country) as [e|c] eqn:Hc; [discriminate|].
  intros [= <-]. exists i, c. split; [reflexivity|].
  split; [exact (text_or_null_value _ _ Hi) | exact (text_or_null_value _ _ Hc)].
Qed.

Lemma user_info_keeps_consistent (req : request) (w : World) :
  Props.cache_consistent (cache w) -> Props.cache_consistent (cache (snd (handler req w))).
Proof.
  intros Hcons.
  destruct (user_info_cases req w) as [[_ ->]|[(_ & _ & ->)|[(_ & h & Hh & ->)|(_ & Hn & ->)]]];
    try exact Hcons.
  - simpl. rewrite (proj1 (cache_get_world _ w)). exact Hcons.
  - destruct (cache_get_world (key_of (username_of (query_username req))) w) as (Hc & _).
    rewrite after_miss_eq. cbv zeta.
    destruct (upstream _ _ _) as [name message|code html]; [simpl; rewrite Hc; exact Hcons|].
    destruct (negb _); [simpl; rewrite Hc; exact Hcons|].
    destruct (lookup html _) as [e|[userId country]]; [simpl; rewrite Hc; exact Hcons|].
    destruct (dataOut _ userId country) as [e|d] eqn:Hd; [simpl; rewrite Hc; exact Hcons|].
    simpl. rewrite Hc. intros k h.
    destruct (decide (k = key_of (username_of (query_username req)))) as [->|Hk].
    + rewrite lookup_insert_eq. intros [= <-]. simpl.
      exists (username_of (query_username req)). split; [|reflexivity].
      exact (dataOut_result _ _ _ _ Hd).
    + rewrite lookup_insert_ne by congruence. apply Hcons.
Qed.

(** X8.  The cache of a process that has just started is empty, and every
    query of the user-info route keeps this true of the cache: each entry
    holds a result object (the four fields [username], [userId],
    [country] and [source], the second and third being [null] or a
    string) made for a name whose lower-cased form is the key of the
    entry. *)
Theorem cache_holds_results_under_their_keys :
  (forall o : Outside, Props.cache_consistent (cache (Scenario.fresh o)))
  /\ forall (req : request) (w : World),
       Props.cache_consistent (cache w) ->
       Props.cache_consistent (cache (snd (handler req w))).
Proof.
  split.
  - intros o k h H. simpl in H. rewrite lookup_empty in H. discriminate.
  - exact user_info_keeps_consistent.
Qed.

(** X9.  On a process whose cache holds results under their keys, an
    answer 200 of the user-info route is a result object for the name
    asked for, up to the case of its letters: either it was just read from
    upstream, carries the name as the caller wrote it and has no field
    [cached]; or it comes from the cache, nothing was fetched, and it ends
    with [cached: true].  So the field [cached] tells whether the answer
    was fetched. *)
Theorem user_info_answer_is_a_result (req : request) (w : World) :
  Props.cache_consistent (cache w) ->
  status (fst (handler req w)) = 200 ->
  let username := username_of (query_username req) in
  let w' := snd (handler req w) in
  exists (name : string) (d : list (string * value)),
    Props.result_of name d /\ key_of name = key_of username
    /\ ((body (fst (handler req w)) = Some d /\ name = username
         /\ fetched w' = fetched w ++ profile_url username :: nil)
        \/ (body (fst (handler req w)) = Some (d ++ ("cached", VBool true) :: nil)
            /\ fetched w' = fetched w)).
Proof.
  intros Hcons H200 username w'. subst w'. revert H200.
  destruct (user_info_cases req w) as [[_ ->]|[(_ & _ & ->)|[(_ & h & Hh & ->)|(_ & Hn & ->)]]];
    try (simpl; discriminate).
  - intros _. fold username in Hh.
    assert (Hentry : cache w !! key_of username = Some h).
    { unfold cache_get in Hh. destruct (cache w !! key_of username) as [h'|]; [|discriminate].
      simpl in Hh. destruct (_ <? _); [|discriminate]. injection Hh as ->. reflexivity. }
    destruct (Hcons _ _ Hentry) as (name & Hres & Hkey).
    exists name, (data h). split; [exact Hres|]. split; [exact Hkey|]. right.
    split; [|apply (cache_get_world (key_of username) w)].
    destruct Hres as (i & c & Hd & _). simpl. rewrite Hd. reflexivity.
  - fold username. destruct (cache_get_world (key_of username) w) as (_ & Hf & _).
    rewrite after_miss_eq. cbv zeta.
    destruct (upstream _ _ _) as [name message|code html]; [simpl; discriminate|].
    destruct (negb ((200 <=? code) && (code <=? 299))) eqn:Hcode.
    + simpl. intros ->. discriminate.
    + destruct (lookup html _) as [e|[userId country]]; [simpl; discriminate|].
      destruct (dataOut _ userId country) as [e|d] eqn:Hd; [simpl; discriminate|].
      intros _. exists username, d. split; [exact (dataOut_result _ _ _ _ Hd)|].
      split; [reflexivity|]. left. simpl. rewrite Hf. auto.
Qed.

(** A first query for [foo] on a fresh process, and a second one for
    [FOO]: the first is fetched, the second carries [cached: true]. *)
Lemma user_info_answer_is_a_result_witness :
  let w := Scenario.fresh (Scenario.serving Scenario.live_page nil) in
  let w1 := snd (handler (Scenario.get_request "foo") w) in
  (exists (name : string) (d : list (string * value)),
      Props.result_of name d /\ key_of name = "foo"
      /\ ((body (fst (handler (Scenario.get_request "foo") w)) = Some d /\ name = "foo"
           /\ fetched w1 = "https://www.tiktok.com/@foo" :: nil)
          \/ (body (fst (handler (Scenario.get_request "foo") w))
              = Some (d ++ ("cached", VBool true) :: nil)
              /\ fetched w1 = nil)))
  /\ exists (name : string) (d : list (string * value)),
       Props.result_of name d /\ key_of name = "foo"
       /\ ((body (fst (handler (Scenario.get_request "FOO") w1)) = Some d /\ name = "FOO"
            /\ fetched (snd (handler (Scenario.get_request "FOO") w1))
               = fetched w1 ++ "https://www.tiktok.com/@FOO" :: nil)
           \/ (body (fst (handler (Scenario.get_request "FOO") w1))
               = Some (d ++ ("cached", VBool true) :: nil)
               /\ fetched (snd (handler (Scenario.get_request "FOO") w1)) = fetched w1)).
Proof.
  intros w w1.
  assert (Hw : Props.cache_consistent (cache w)).
  { intros k h H. simpl in H. rewrite lookup_empty in H. discriminate. }
  assert (Hw1 : Props.cache_consistent (cache w1)).
  { apply user_info_keeps_consistent. exact Hw. }
  split.
  - apply (user_info_answer_is_a_result (Scenario.get_request "foo") w Hw).
    vm_compute. reflexivity.
  - apply (user_info_answer_is_a_result (Scenario.get_request "FOO") w1 Hw1).
    vm_compute. reflexivity.
Defined.

End UserInfoAnswers.

(** ** The lookup in the user table of the state document *)

Section UserTable.
Import Js Http Sys UserInfo.

(** [x || null] is [x] or [null]; so the test [if (!country)] passes only
    on [null], where [pickCountryFromText] gives [null] again. *)
Lemma or_null_falsy (x : value) : truthy (or x VNull) = false -> or x VNull = VNull.
Proof. unfold or. destruct (truthy x) eqn:H; [congruence | reflexivity]. Qed.

Lemma country_kept (c : value) (text : string) :
  (if truthy (or c VNull) then or c VNull else pickCountryFromText text) = or c VNull.
Proof.
  destruct (truthy (or c VNull)) eqn:H; [reflexivity|].
  rewrite (or_null_falsy c H). reflexivity.
Qed.

(** The loop passes over the entries that do not match and stops at the
    first that does. *)
Lemma scan_first (maybe : value) (username : string) (before after : list text) (k : text) :
  (forall k' : text, In k' before -> uniqueId_is (get_text maybe k') username = inr false) ->
  uniqueId_is (get_text maybe k) username = inr true ->
  scan maybe username (before ++ k :: after)
  = inr (Some (id_of (get_text maybe k), region_of (get_text maybe k))).
Proof.
  intros Hbefore Hk.
  induction before as [|b before IH]; simpl.
  - rewrite Hk. reflexivity.
  - rewrite (Hbefore b (or_introl eq_refl)).
    apply IH. intros k' Hin. apply Hbefore. right. exact Hin.
Qed.

Lemma scan_none (maybe : value) (username : string) (keys : list text) :
  (forall k' : text, In k' keys -> uniqueId_is (get_text maybe k') username = inr false) ->
  scan maybe username keys = inr None.
Proof.
  intros H. induction keys as [|b keys IH]; simpl; [reflexivity|].
  rewrite (H b (or_introl eq_refl)).
  apply IH. intros k' Hin. apply H. right. exact Hin.
Qed.

(** The comparison of the loop, by what the [uniqueId] of the entry is. *)
Lemma uniqueId_text (u : value) (s username : string) :
  opt_get u "uniqueId" = VStr s ->
  uniqueId_is u username
  = inr (String.eqb (JsString.toLowerCase s) (JsString.toLowerCase username)).
Proof. intros H. unfold uniqueId_is. rewrite H. reflexivity. Qed.

Lemma uniqueId_wide (u : value) (l : list Z) (username : string) :
  opt_get u "uniqueId" = VWide l ->
  uniqueId_is u username
  = inr (bool_decide (JsString.lower_units l = Some (JsString.toLowerCase username))).
Proof.
  intros H. unfold uniqueId_is. rewrite H. f_equal.
  destruct (JsString.lower_units l) as [s|].
  - destruct (String.eqb_spec s (JsString.toLowerCase username)) as [->|Hne].
    + rewrite bool_decide_eq_true_2; reflexivity.
    + rewrite bool_decide_eq_false_2; [reflexivity | congruence].
  - rewrite bool_decide_eq_false_2; [reflexivity | discriminate].
Qed.

Lemma uniqueId_missing (u : value) (username : string) :
  nullish (opt_get u "uniqueId") = true -> uniqueId_is u username = inr false.
Proof.
  intros H. unfold uniqueId_is.
  destruct (opt_get u "uniqueId"); try discriminate; reflexivity.
Qed.

(** A read of an object finds the own property of that name, or else the
    member of [Object.prototype] of that name. *)
Lemma get_object (o : list (string * value)) (k : string) :
  get (VObj o) k
  = match assoc k o with
    | Some entry => entry
    | None => if member Object_prototype k then VBuiltin else VUndefined
    end.
Proof. reflexivity. Qed.

Lemma get_object_wide (o : list (text * value)) (k : string) :
  get (VObjW o) k
  = match assoc_text (Narrow k) o with
    | Some entry => entry
    | None => if member Object_prototype k then VBuiltin else VUndefined
    end.
Proof. reflexivity. Qed.

(** X10.  Where the state document of the profile page has a user table
    (a truthy value under [UserModule.users], or else under
    [UserPage.users]), the account is looked up in three steps.  The table
    is read under the name, or else under [@] and the name.  On an object
    such a read gives the entry of that name when the table has one, and
    otherwise what [Object.prototype] has under that name ([constructor],
    [toString] and the like), which is truthy.  When what is read is
    truthy it is taken, and the entries are not tried: a member of
    [Object.prototype] has none of the fields read, so that the answer
    then has [null] twice, whatever the entries are.  When what is read is
    falsy the entries are tried in the order of [Object.keys], and the
    first whose [uniqueId] is a string equal to the name up to the case of
    its letters is taken; the entries before it have no [uniqueId] or
    another string.  From what is taken the answer has [id] (or else
    [idStr]) and [region] (or else [country]), [null] where both are
    missing.  When no entry matches, both are [null]. *)
Theorem profile_is_found_in_the_user_table
    (html text : string) (data table : value) (username : string) :
  Markup.match_info html = Some text ->
  Json.parse text = Some data ->
  or (or (opt_get (opt_get data "UserModule") "users")
         (opt_get (opt_get data "UserPage") "users")) VNull = table ->
  truthy table = true ->
  let direct := or (get table username) (get table ("@" +:+ username)) in
  let uid (k : Js.text) := opt_get (get_text table k) "uniqueId" in
  let name := JsString.toLowerCase username in
  let matches (k : Js.text) :=
    (exists s : string, uid k = VStr s /\ JsString.toLowerCase s = name)
    \/ (exists l : list Z, uid k = VWide l /\ JsString.lower_units l = Some name) in
  let other (k : Js.text) :=
    (exists s : string, uid k = VStr s /\ JsString.toLowerCase s <> name)
    \/ (exists l : list Z, uid k = VWide l /\ JsString.lower_units l <> Some name)
    \/ nullish (uid k) = true in
  (forall (o : list (string * value)) (k : string),
      table = VObj o ->
      get table k = match assoc k o with
                    | Some entry => entry
                    | None => if member Object_prototype k then VBuiltin else VUndefined
                    end)
  /\ (forall (o : list (Js.text * value)) (k : string),
        table = VObjW o ->
        get table k = match assoc_text (Narrow k) o with
                      | Some entry => entry
                      | None => if member Object_prototype k then VBuiltin else VUndefined
                      end)
  /\ (truthy direct = true ->
      lookup html username = inr (id_of direct, region_of direct))
  /\ (direct = VBuiltin -> lookup html username = inr (VNull, VNull))
  /\ (truthy direct = false ->
      forall (before after : list Js.text) (k : Js.text),
        keys table = before ++ k :: after ->
        (forall k' : Js.text, In k' before -> other k') ->
        matches k ->
        lookup html username
        = inr (id_of (get_text table k), region_of (get_text table k)))
  /\ (truthy direct = false ->
      (forall k' : Js.text, In k' (keys table) -> other k') ->
      lookup html username = inr (VNull, VNull)).
Proof.
  intros Hm Hp Ht Htruthy direct uid name matches other.
  assert (Hpassed : forall k' : Js.text, other k' ->
            uniqueId_is (get_text table k') username = inr false).
  { intros k' [(s & Hs & Hne)|[(l & Hl & Hne)|Hnone]].
    - rewrite (uniqueId_text _ s username Hs). f_equal.
      apply String.eqb_neq. exact Hne.
    - rewrite (uniqueId_wide _ l username Hl). f_equal.
      apply bool_decide_eq_false_2. exact Hne.
    - exact (uniqueId_missing _ username Hnone). }
  assert (Hfound : forall k : Js.text, matches k ->
            uniqueId_is (get_text table k) username = inr true).
  { intros k [(s & Hs & Heq)|(l & Hl & Heq)].
    - rewrite (uniqueId_text _ s username Hs). f_equal.
      apply String.eqb_eq. exact Heq.
    - rewrite (uniqueId_wide _ l username Hl). f_equal.
      apply bool_decide_eq_true_2. exact Heq. }
  assert (Hlookup : lookup html username =
            match
              (if truthy direct then inr (id_of direct, region_of direct)
               else match scan table username (keys table) with
                    | inl e => inl e
                    | inr (Some p) => inr p
                    | inr None => inr (VNull, VNull)
                    end)
            with
            | inl e => inl e
            | inr (userId, country) =>
                inr (userId, if truthy country then country else pickCountryFromText text)
            end).
  { unfold lookup. rewrite Hm.
    destruct text as [|c r]; [rewrite parse_empty in Hp; discriminate|].
    change (negb (JsString.is_empty (String c r))) with true. cbv iota.
    unfold safeJsonParse. rewrite Hp. cbv zeta. rewrite Ht, Htruthy. reflexivity. }
  rewrite Hlookup. split; [|split; [|split; [|split; [|split]]]].
  - intros o k ->. apply get_object.
  - intros o k ->. apply get_object_wide.
  - intros ->. unfold region_of. rewrite country_kept. reflexivity.
  - intros ->. reflexivity.
  - intros -> before after k Hkeys Hbefore Hk.
    rewrite Hkeys, (scan_first table username before after k).
    + unfold region_of. rewrite country_kept. reflexivity.
    + intros k' Hin. apply Hpassed. apply Hbefore. exact Hin.
    + apply Hfound. exact Hk.
  - intros -> Hall. rewrite (scan_none table username (keys table)); [reflexivity|].
    intros k' Hin. apply Hpassed. apply Hall. exact Hin.
Qed.

(** The table of the sample page has the one entry [foo]; asked for
    [FOO], the route finds it by its [uniqueId]. *)
Lemma profile_is_found_in_the_user_table_witness :
  lookup Scenario.live_page "FOO" = inr (VStr "42", VStr "FR").
Proof.
  assert (H : exists (text : string) (data table : value),
             Markup.match_info Scenario.live_page = Some text
             /\ Json.parse text = Some data
             /\ or (or (opt_get (opt_get data "UserModule") "users")
                       (opt_get (opt_get data "UserPage") "users")) VNull = table
             /\ truthy table = true
             /\ keys table = Narrow "foo" :: nil
             /\ opt_get (get_text table (Narrow "foo")) "uniqueId" = VStr "foo"
             /\ truthy (or (get table "FOO") (get table "@FOO")) = false
             /\ id_of (get_text table (Narrow "foo")) = VStr "42"
             /\ region_of (get_text table (Narrow "foo")) = VStr "FR").
  { eexists _, _, _. split; [vm_compute; reflexivity|]. split; [vm_compute; reflexivity|].
    split; [vm_compute; reflexivity|]. repeat split. }
  destruct H as (text & data & table & Hm & Hp & Ht & Htr & Hkeys & Hid & Hdirect & Hi & Hr).
  destruct (profile_is_found_in_the_user_table Scenario.live_page text data table "FOO"
              Hm Hp Ht Htr) as (_ & _ & _ & _ & Hscan & _).
  rewrite (Hscan Hdirect nil nil (Narrow "foo") Hkeys).
  - rewrite Hi, Hr. reflexivity.
  - intros k' [].
  - left. exists "foo". split; [exact Hid | reflexivity].
Defined.

(** A table whose one entry has [constructor] as its [uniqueId], asked for
    [constructor]: the read under the name finds the member of
    [Object.prototype], and the entry is not tried.  And an entry whose
    [uniqueId] is written with the Kelvin sign is found under the name
    [k]. *)
Example inherited_member_hides_the_entry :
  let page := JsString.dq
    "<script id='SIGI_STATE' type='application/json'>{'UserModule':{'users':{'7':{'id':'7','region':'FR','uniqueId':'constructor'},'8':{'id':'8','uniqueId':'\u212a'}}}}</script>" in
  lookup page "constructor" = inr (VNull, VNull)
  /\ lookup page "Constructor" = inr (VStr "7", VStr "FR")
  /\ lookup page "k" = inr (VStr "8", VNull).
Proof. repeat split; vm_compute; reflexivity. Qed.

End UserTable.

(** ** The state each route leaves alone *)

Section Isolation.
Import Js Http Sys.

Lemma steady_refl (w : World) : Props.steady w w.
Proof. unfold Props.steady, Props.keeps_cache, Props.keeps_chat. repeat split; auto. Qed.

Lemma steady_trans (w1 w2 w3 : World) : Props.steady w1 w2 -> Props.steady w2 w3 -> Props.steady w1 w3.
Proof.
  unfold Props.steady, Props.keeps_cache, Props.keeps_chat.
  intros (Hc & (Hl & Hw & Hn) & Ho & Hf) (Hc' & (Hl' & Hw' & Hn') & Ho' & Hf').
  repeat split; try congruence. set_solver.
Qed.

Lemma steady_bind {A B : Type} (m : M A) (f : A -> M B) (w : World) :
  Props.steady w (snd (m w)) -> (forall (x : A) (w1 : World), Props.steady w1 (snd (f x w1))) ->
  Props.steady w (snd ((m ≫= f) w)).
Proof.
  intros Hm Hf. unfold mbind, M_bind. destruct (m w) as [x w1]. simpl in Hm.
  exact (steady_trans _ _ _ Hm (Hf x w1)).
Qed.

Lemma steady_ret {A : Type} (x : A) (w : World) : Props.steady w (snd ((mret x : M A) w)).
Proof. apply steady_refl. Qed.

Lemma steady_Date_now (w : World) : Props.steady w (snd (Date_now w)).
Proof. unfold Props.steady, Props.keeps_cache, Props.keeps_chat. simpl. repeat split; auto. Qed.

Lemma steady_fetch (url : string) (w : World) : Props.steady w (snd (fetch url w)).
Proof. unfold Props.steady, Props.keeps_cache, Props.keeps_chat. simpl. repeat split; auto. Qed.

Lemma steady_spawn (args : list value) (output : string) (w : World) :
  Props.steady w (snd (spawn_ffmpeg args output w)).
Proof.
  unfold Props.steady, Props.keeps_cache, Props.keeps_chat, spawn_ffmpeg. simpl.
  destruct (match ended _ with Closed (Some 0) => true | _ => _ end); simpl;
    repeat split; auto; set_solver.
Qed.

Lemma steady_runFfmpeg (args : list value) (output : string) (w : World) :
  Props.steady w (snd (Record.runFfmpeg args output w)).
Proof.
  unfold Record.runFfmpeg. apply steady_bind; [apply steady_spawn|].
  intros e w1. apply steady_ret.
Qed.

Lemma steady_ensure_dir (dir : string) (w : World) :
  Props.steady w (snd (Record.ensure_dir dir w)).
Proof.
  unfold Record.ensure_dir, mbind, M_bind, existsSync, mkdirSync, mret, M_ret. simpl.
  destruct (bool_decide (dir ∈ files w)); [apply steady_refl|].
  destruct (mkdir (outside w) dir); [apply steady_refl|].
  unfold Props.steady, Props.keeps_cache, Props.keeps_chat. simpl. repeat split; auto. set_solver.
Qed.

Lemma steady_capture (user : string) (flvUrl : value) (rd ad : string) (w : World) :
  Props.steady w (snd (Record.capture user flvUrl rd ad w)).
Proof.
  unfold Record.capture. apply steady_bind; [apply steady_Date_now|].
  intros t w1. cbv zeta. apply steady_bind; [apply steady_runFfmpeg|].
  intros [m|] w2; [apply steady_ret|].
  apply steady_bind; [apply steady_runFfmpeg|].
  intros [m|] w3; apply steady_ret.
Qed.

Lemma steady_record (user rd ad : string) (w : World) :
  Props.steady w (snd (Record.record user rd ad w)).
Proof.
  unfold Record.record. apply steady_bind; [apply steady_fetch|].
  intros [name message|code html] w1; [apply steady_ret|].
  destruct (Record.resolve_streams html) as [reason|streams]; [apply steady_ret|].
  destruct (nullish streams); [apply steady_ret|].
  destruct (negb _); [apply steady_ret | apply steady_capture].
Qed.

Lemma steady_record_handler (req : request) (w : World) :
  Props.steady w (snd (Record.handler req w)).
Proof.
  unfold Record.handler. destruct (negb _); [apply steady_ret|].
  destruct (Account.valid_username _) as [username|]; [|apply steady_ret].
  pose proof (steady_ensure_dir (Path.join (cwd (outside w)) "recordings") w) as H1.
  destruct (Record.ensure_dir (Path.join (cwd (outside w)) "recordings") w) as [[m1|] w1];
    simpl in H1; [exact H1|].
  pose proof (steady_ensure_dir (Path.join (cwd (outside w)) "audio") w1) as H2.
  destruct (Record.ensure_dir (Path.join (cwd (outside w)) "audio") w1) as [[m2|] w2];
    simpl in H2; [exact (steady_trans _ _ _ H1 H2)|].
  exact (steady_trans _ _ _ H1 (steady_trans _ _ _ H2 (steady_record _ _ _ w2))).
Qed.

Lemma user_info_frame (req : request) (w : World) :
  let w' := snd (UserInfo.handler req w) in
  Props.keeps_chat w w' /\ Props.keeps_files w w' /\ outside w' = outside w.
Proof.
  unfold Props.keeps_chat, Props.keeps_files.
  assert (Hget : forall k : string,
             let w0 := snd (UserInfo.cache_get k w) in
             commentLogs w0 = commentLogs w /\ commentWatchers w0 = commentWatchers w
             /\ connects w0 = connects w /\ files w0 = files w /\ spawned w0 = spawned w
             /\ outside w0 = outside w).
  { intros k. destruct (cache_get_clock k w) as [-> | ->]; simpl; repeat split. }
  destruct (user_info_cases req w) as [[_ ->]|[(_ & _ & ->)|[(_ & h & Hh & ->)|(_ & Hn & ->)]]];
    cbv zeta; try (simpl; repeat split; fail).
  - simpl. destruct (Hget (UserInfo.key_of (UserInfo.username_of (query_username req))))
      as (? & ? & ? & ? & ? & ?). repeat split; auto.
  - destruct (Hget (UserInfo.key_of (UserInfo.username_of (query_username req))))
      as (H1 & H2 & H3 & H4 & H5 & H6).
    rewrite after_miss_eq. cbv zeta.
    destruct (upstream _ _ _) as [name message|code html]; [simpl; repeat split; auto|].
    destruct (negb _); [simpl; repeat split; auto|].
    destruct (UserInfo.lookup html _) as [e|[userId country]]; [simpl; repeat split; auto|].
    destruct (UserInfo.dataOut _ userId country) as [e|d]; simpl; repeat split; auto.
Qed.

Lemma start_comments_frame (req : request) (w : World) :
  let w' := snd (StartComments.handler req w) in
  Props.keeps_cache w w' /\ Props.keeps_files w w' /\ Props.keeps_fetched w w'
  /\ clock_reads w' = clock_reads w /\ outside w' = outside w.
Proof.
  unfold Props.keeps_cache, Props.keeps_files, Props.keeps_fetched, StartComments.handler.
  destruct (Account.valid_username _) as [username|]; [|simpl; repeat split].
  unfold mbind, M_bind, mret, M_ret, StartComments.init_globals, StartComments.set_log,
    connect_chat, StartComments.set_watcher. simpl.
  destruct (found_truthy _); simpl; [repeat split|].
  destruct (connect _ _ _); simpl; repeat split.
Qed.

Lemma listener_frame (user : string) (d : StartComments.chat_data) (w w' : World) :
  StartComments.listener user d w = Some w' ->
  Props.keeps_cache w w' /\ Props.keeps_files w w' /\ Props.keeps_fetched w w'
  /\ commentWatchers w' = commentWatchers w /\ connects w' = connects w
  /\ outside w' = outside w.
Proof.
  unfold Props.keeps_cache, Props.keeps_files, Props.keeps_fetched, StartComments.listener.
  destruct (commentLogs w) as [logs|]; [|discriminate].
  destruct (dict_get logs user); try discriminate; intros [= <-]; simpl; repeat split.
Qed.

Lemma chat_frame (user : string) (d : StartComments.chat_data) (w w' : World) :
  StartComments.chat user d w = Some w' ->
  Props.keeps_cache w w' /\ Props.keeps_files w w' /\ Props.keeps_fetched w w'
  /\ commentWatchers w' = commentWatchers w /\ connects w' = connects w
  /\ outside w' = outside w.
Proof.
  intros H.
  assert (Hcases : StartComments.listener user d w = Some w' \/ w = w').
  { unfold StartComments.chat in H. destruct (commentWatchers w) as [watchers|].
    - destruct (watchers !! user); [left; exact H | right; congruence].
    - right. congruence. }
  destruct Hcases as [Hl | <-]; [exact (listener_frame user d w w' Hl)|].
  unfold Props.keeps_cache, Props.keeps_files, Props.keeps_fetched. repeat split.
Qed.

(** X11.  Each route changes the part of the process that is its own and
    nothing else.  The live-status route only fetches.  The user-info
    route touches neither the chat logs and connections nor the files and
    ffmpeg runs.  The start-comments route touches neither the cache nor
    the files, fetches nothing and does not read the clock.  The get-logs
    route changes nothing at all.  The record route touches neither the
    cache nor the chat logs and connections, and removes no file.  A chat
    event touches neither the cache nor the files, fetches nothing, and
    stores or opens no connection. *)
Theorem routes_keep_to_their_own_state (req : request) (w : World) :
  (let w' := snd (CheckLive.handler req w) in
   Props.keeps_cache w w' /\ Props.keeps_chat w w' /\ Props.keeps_files w w'
   /\ clock_reads w' = clock_reads w)
  /\ (let w' := snd (UserInfo.handler req w) in
      Props.keeps_chat w w' /\ Props.keeps_files w w')
  /\ (let w' := snd (StartComments.handler req w) in
      Props.keeps_cache w w' /\ Props.keeps_files w w' /\ Props.keeps_fetched w w'
      /\ clock_reads w' = clock_reads w)
  /\ snd (GetLogs.handler req w) = w
  /\ (let w' := snd (Record.handler req w) in
      Props.keeps_cache w w' /\ Props.keeps_chat w w' /\ files w ⊆ files w')
  /\ forall (user : string) (d : StartComments.chat_data) (w' : World),
       StartComments.chat user d w = Some w' ->
       Props.keeps_cache w w' /\ Props.keeps_files w w' /\ Props.keeps_fetched w w'
       /\ commentWatchers w' = commentWatchers w /\ connects w' = connects w.
Proof.
  split; [|split; [|split; [|split; [|split]]]]; cbv zeta.
  - unfold Props.keeps_cache, Props.keeps_chat, Props.keeps_files.
    destruct (check_live_world req w) as [-> | [url ->]]; simpl; repeat split.
  - destruct (user_info_frame req w) as (H1 & H2 & _). auto.
  - destruct (start_comments_frame req w) as (H1 & H2 & H3 & H4 & _). auto.
  - unfold GetLogs.handler. destruct (Account.valid_username _); reflexivity.
  - destruct (steady_record_handler req w) as (H1 & H2 & _ & H3). auto.
  - intros user d w' H. destruct (chat_frame user d w w' H) as (H1 & H2 & H3 & H4 & H5 & _).
    auto.
Qed.

End Isolation.

(** ** Listeners and their logs over several requests *)

Section Listeners.
Import Js Http Sys StartComments.







Lemma bounded_insert (logs : gmap string (list log_entry)) (user : string)
      (l : list log_entry) :
  (forall (u : string) (l' : list log_entry),
      logs !! u = Some l' -> Z.of_nat (length l') <= LOG_CAP) ->
  Z.of_nat (length l) <= LOG_CAP ->
  forall (u : string) (l' : list log_entry),
    <[ user := l ]> logs !! u = Some l' -> Z.of_nat (length l') <= LOG_CAP.
Proof.
  intros Hlogs Hl u l'. destruct (decide (u = user)) as [->|Hne].
  - rewrite lookup_insert_eq. intros [= <-]. exact Hl.
  - rewrite lookup_insert_ne by congruence. apply Hlogs.
Qed.

Lemma bounded_same (w w' : World) :
  commentLogs w' = commentLogs w -> Props.logs_bounded w -> Props.logs_bounded w'.
Proof. intros H Hb logs u l Hl. rewrite H in Hl. exact (Hb logs u l Hl). Qed.

Lemma start_comments_bounded (req : request) (w : World) :
  Props.logs_bounded w -> Props.logs_bounded (snd (handler req w)).
Proof.
  intros Hb. unfold handler.
  destruct (Account.valid_username _) as [username|]; [|exact Hb].
  unfold mbind, M_bind, mret, M_ret, init_globals, set_log, connect_chat, set_watcher.
  assert (Hnil : Z.of_nat (length (@nil log_entry)) <= LOG_CAP) by (unfold LOG_CAP; simpl; lia).
  assert (Hempty : forall (u : string) (l' : list log_entry),
             (∅ : gmap string (list log_entry)) !! u = Some l' ->
             Z.of_nat (length l') <= LOG_CAP)
    by (intros u l'; rewrite lookup_empty; discriminate).
  destruct (commentLogs w) as [ls|] eqn:Hls; destruct (commentWatchers w) as [ws|]; simpl;
    (destruct (found_truthy _); simpl;
     [ intros logs u l [= <-]; first [exact (Hb ls u l Hls) | apply Hempty]
     | destruct (connect _ _ _); simpl; intros logs u l [= <-];
       first [ apply (bounded_insert ls _ nil (fun u' l' => Hb ls u' l' Hls) Hnil)
             | apply (bounded_insert ∅ _ nil Hempty Hnil) ] ]).
Qed.

Lemma chat_bounded (user : string) (d : chat_data) (w w' : World) :
  Props.logs_bounded w -> chat user d w = Some w' -> Props.logs_bounded w'.
Proof.
  intros Hb H.
  assert (Hcases : listener user d w = Some w' \/ w = w').
  { unfold chat in H. destruct (commentWatchers w) as [watchers|].
    - destruct (watchers !! user); [left; exact H | right; congruence].
    - right. congruence. }
  destruct Hcases as [Hl | <-]; [|exact Hb].
  unfold listener in Hl. destruct (commentLogs w) as [logs|] eqn:Hlogs; [|discriminate].
  assert (Hall : forall (u : string) (l' : list log_entry),
             logs !! u = Some l' -> Z.of_nat (length l') <= LOG_CAP)
    by (intros u l'; apply (Hb logs u l' Hlogs)).
  assert (Hnil : Z.of_nat (length (@nil log_entry)) <= LOG_CAP) by (unfold LOG_CAP; simpl; lia).
  unfold dict_get in Hl. destruct (logs !! user) as [l|] eqn:Hu.
  - injection Hl as <-. intros logs' u l' [= <-].
    apply (bounded_insert logs user _ Hall). apply push_capped_length. exact (Hall user l Hu).
  - destruct (member Object_prototype user); [discriminate|].
    injection Hl as <-. intros logs' u l' [= <-].
    apply (bounded_insert logs user _ Hall). apply push_capped_length. exact Hnil.
Qed.

(** X14.  No log ever holds more than 10000 entries: this is true of a
    process that has just started, and every request to one of the five
    routes and every chat event keeps it true. *)
Theorem logs_stay_within_the_cap :
  (forall o : Outside, Props.logs_bounded (Scenario.fresh o))
  /\ forall w : World,
       Props.logs_bounded w ->
       (forall req : request, Props.logs_bounded (snd (CheckLive.handler req w)))
       /\ (forall req : request, Props.logs_bounded (snd (UserInfo.handler req w)))
       /\ (forall req : request, Props.logs_bounded (snd (handler req w)))
       /\ (forall req : request, Props.logs_bounded (snd (GetLogs.handler req w)))
       /\ (forall req : request, Props.logs_bounded (snd (Record.handler req w)))
       /\ (forall (user : string) (d : chat_data) (w' : World),
             chat user d w = Some w' -> Props.logs_bounded w').
Proof.
  split; [intros o logs u l H; discriminate|].
  intros w Hb. split; [|split; [|split; [|split; [|split]]]].
  - intros req. apply (bounded_same w); [|exact Hb].
    destruct (check_live_world req w) as [-> | [url ->]]; reflexivity.
  - intros req. apply (bounded_same w); [|exact Hb].
    apply (user_info_frame req w).
  - intros req. exact (start_comments_bounded req w Hb).
  - intros req. apply (bounded_same w); [|exact Hb].
    unfold GetLogs.handler. destruct (Account.valid_username _); reflexivity.
  - intros req. apply (bounded_same w); [|exact Hb].
    apply (steady_record_handler req w).
  - intros user d w'. exact (chat_bounded user d w w' Hb).
Qed.

End Listeners.

(** ** The directories and the files of a capture *)

Section CaptureFiles.
Import Js Http Sys Record.

Lemma record_sends (user rd ad : string) (w : World) :
  exists r : response, fst (record user rd ad w) = Sent r.
Proof.
  rewrite record_eq. cbv zeta.
  destruct (upstream _ _ _) as [name message|code html]; [unfold failed; simpl; eauto|].
  destruct (resolve_streams html) as [reason|streams]; [unfold failed; simpl; eauto|].
  destruct (nullish streams); [unfold failed; simpl; eauto|].
  destruct (negb _); [unfold failed; simpl; eauto|].
  rewrite capture_eq. cbv zeta.
  destruct (runFfmpeg _ _ _) as [[m|] w1]; [unfold failed; simpl; eauto|].
  destruct (runFfmpeg _ _ _) as [[m|] w2]; unfold failed; simpl; eauto.
Qed.

(** X15.  On a POST with a valid name the record route makes sure of its
    two directories before it does anything else: whenever it sends an
    answer, be it a failure of the capture, the directories [recordings]
    and [audio] under the working directory are on disk afterwards, and
    every file that was on disk is still there. *)
Theorem capture_directories_are_made_first
    (req : request) (username : string) (w : World) (r : response) :
  method req = "POST" ->
  Account.valid_username (query_username req) = Some username ->
  fst (handler req w) = Sent r ->
  let w' := snd (handler req w) in
  Path.join (cwd (outside w)) "recordings" ∈ files w'
  /\ Path.join (cwd (outside w)) "audio" ∈ files w'
  /\ files w ⊆ files w'.
Proof.
  intros Hm Hv Hsent w'. subst w'.
  destruct (steady_record_handler req w) as (_ & _ & _ & Hgrow).
  split; [|split; [|exact Hgrow]]; revert Hsent;
    rewrite (record_handler_eq req username w Hm Hv); cbv zeta;
    set (rd := Path.join (cwd (outside w)) "recordings");
    set (ad := Path.join (cwd (outside w)) "audio").
  - destruct (ensure_dir_cases rd w) as [[H1 ->]|[(H1 & _ & ->)|(_ & msg & _ & ->)]];
      [| |discriminate].
    + destruct (ensure_dir ad w) as [[m2|] w2] eqn:H2; [discriminate|]. intros _.
      pose proof (steady_ensure_dir ad w) as Hs. rewrite H2 in Hs.
      destruct Hs as (_ & _ & _ & Hf).
      destruct (steady_record (Account.user_of username) rd ad w2) as (_ & _ & _ & Hf').
      exact (in_bigger _ _ rd Hf' (in_bigger _ _ rd Hf H1)).
    + destruct (ensure_dir ad (with_files ({[ rd ]} ∪ files w) w)) as [[m2|] w2] eqn:H2;
        [discriminate|]. intros _.
      pose proof (steady_ensure_dir ad (with_files ({[ rd ]} ∪ files w) w)) as Hs.
      rewrite H2 in Hs. destruct Hs as (_ & _ & _ & Hf).
      destruct (steady_record (Account.user_of username) rd ad w2) as (_ & _ & _ & Hf').
      exact (in_bigger _ _ rd Hf' (in_bigger _ _ rd Hf (in_added (files w) rd))).
  - destruct (ensure_dir rd w) as [[m1|] w1]; [discriminate|].
    destruct (ensure_dir_cases ad w1) as [[H2 ->]|[(H2 & _ & ->)|(_ & msg & _ & ->)]];
      [| |discriminate]; intros ?.
    + destruct (steady_record (Account.user_of username) rd ad w1) as (_ & _ & _ & Hf').
      exact (in_bigger _ _ ad Hf' H2).
    + destruct (steady_record (Account.user_of username) rd ad
                  (with_files ({[ ad ]} ∪ files w1) w1)) as (_ & _ & _ & Hf').
      exact (in_bigger _ _ ad Hf' (in_added (files w1) ad)).
Qed.

(** The capture of the sample page: it is answered, so both directories
    are there. *)
Lemma capture_directories_are_made_first_witness :
  let w' := snd (handler (Scenario.post_request "@Foo ") Scenario.live_world) in
  "/app/recordings" ∈ files w' /\ "/app/audio" ∈ files w'.
Proof.
  assert (H : exists r : response,
             fst (handler (Scenario.post_request "@Foo ") Scenario.live_world) = Sent r)
    by (eexists; vm_compute; reflexivity).
  destruct H as [r Hr]. intros w'.
  assert (Hrd : Path.join (cwd (outside Scenario.live_world)) "recordings" = "/app/recordings")
    by (vm_compute; reflexivity).
  assert (Had : Path.join (cwd (outside Scenario.live_world)) "audio" = "/app/audio")
    by (vm_compute; reflexivity).
  rewrite <- Hrd, <- Had.
  destruct (capture_directories_are_made_first (Scenario.post_request "@Foo ") "@Foo "
              Scenario.live_world r eq_refl eq_refl Hr) as (H1 & H2 & _).
  split; [exact H1 | exact H2].
Defined.

(** X16.  The two directories are made outside the [try] of the route.
    When the directory [recordings] is missing and cannot be made, the
    error of [mkdirSync] escapes the handler: no answer is sent and the
    process is as it was.  When [recordings] is there or can be made and
    [audio] is missing and cannot be made, the error escapes as well,
    after [recordings] has been made: nothing has been fetched and no
    ffmpeg run has been started. *)
Theorem directory_failure_escapes_the_handler
    (req : request) (username : string) (w : World) (msg : string) :
  method req = "POST" ->
  Account.valid_username (query_username req) = Some username ->
  let rd := Path.join (cwd (outside w)) "recordings" in
  let ad := Path.join (cwd (outside w)) "audio" in
  (rd ∉ files w -> mkdir (outside w) rd = Some msg -> handler req w = (Uncaught msg, w))
  /\ (rd ∈ files w \/ mkdir (outside w) rd = None ->
      ad ∉ files w -> ad <> rd -> mkdir (outside w) ad = Some msg ->
      let w' := snd (handler req w) in
      fst (handler req w) = Uncaught msg
      /\ rd ∈ files w' /\ fetched w' = fetched w /\ spawned w' = spawned w).
Proof.
  intros Hm Hv rd ad. rewrite (record_handler_eq req username w Hm Hv). cbv zeta.
  fold rd. fold ad. split.
  - intros Hout Hfail.
    destruct (ensure_dir_cases rd w) as [[H1 _]|[(_ & H1 & _)|(_ & m & H1 & ->)]].
    + contradiction.
    + congruence.
    + congruence.
  - intros Hrd Hout Hne Hfail.
    destruct (ensure_dir_cases rd w) as [[H1 ->]|[(H1 & _ & ->)|(H1 & m & H1' & _)]].
    + destruct (ensure_dir_cases ad w) as [[H2 _]|[(_ & H2 & _)|(_ & m & H2 & ->)]].
      * contradiction.
      * congruence.
      * simpl. split; [congruence | auto].
    + pose proof (not_in_added (files w) ad rd Hout Hne) as Hout1.
      destruct (ensure_dir_cases ad (with_files ({[ rd ]} ∪ files w) w))
        as [[H2 _]|[(_ & H2 & _)|(_ & m & H2 & ->)]].
      * contradiction.
      * simpl in H2. congruence.
      * simpl in H2. simpl. split; [congruence|].
        split; [apply in_added | auto].
    + exfalso. destruct Hrd as [Hin | Hok]; [contradiction | congruence].
Qed.

(** A capture on a disk that cannot be written. *)
Lemma directory_failure_escapes_the_handler_witness :
  handler (Scenario.post_request "@Foo ") Cases.read_only_world
  = (Uncaught "EROFS: read-only file system", Cases.read_only_world).
Proof.
  apply (proj1 (directory_failure_escapes_the_handler (Scenario.post_request "@Foo ") "@Foo "
                  Cases.read_only_world "EROFS: read-only file system"
                  eq_refl eq_refl)).
  - change (files Cases.read_only_world) with (∅ : gset string). apply not_elem_of_empty.
  - reflexivity.
Defined.

End CaptureFiles.

(** ** The paths of the two files *)

Section CapturePaths.
Import Js Http Sys Record.

Lemma no_slash_app (a b : string) :
  Props.no_slash (a +:+ b) = Props.no_slash a && Props.no_slash b.
Proof. unfold Props.no_slash. rewrite chars_app, forallb_app. reflexivity. Qed.

Lemma split_rev_segment (seg rest cur : string) (acc : list string) :
  Props.no_slash seg = true ->
  Path.split_rev (seg +:+ rest) cur acc = Path.split_rev rest (cur +:+ seg) acc.
Proof.
  revert cur. induction seg as [|c seg IH]; intros cur H.
  - rewrite append_nil_l. f_equal. clear. induction cur as [|x cur IH]; [reflexivity|].
    rewrite append_cons. f_equal. exact IH.
  - unfold Props.no_slash in H. simpl in H. apply andb_true_iff in H. destruct H as [Hc H].
    rewrite append_cons. simpl. destruct (Ascii.eqb c "/"); [discriminate|].
    rewrite (IH (cur +:+ String c EmptyString) H), append_assoc. reflexivity.
Qed.

Lemma plain_no_slash (s : string) : Props.plain_segment s = true -> Props.no_slash s = true.
Proof.
  unfold Props.plain_segment. intros H.
  repeat (apply andb_true_iff in H; destruct H as [H _]). exact H.
Qed.

Lemma split_rev_absolute (segs : list string) :
  forallb Props.plain_segment segs = true ->
  forall (cur : string) (acc : list string),
    Path.split_rev (Props.absolute segs) cur acc = rev acc ++ cur :: segs.
Proof.
  induction segs as [|s segs IH]; intros H cur acc; simpl.
  - reflexivity.
  - simpl in H. apply andb_true_iff in H. destruct H as [Hs H].
    rewrite ?append_cons, ?append_nil_l. simpl.
    rewrite (split_rev_segment s _ _ _ (plain_no_slash s Hs)), append_nil_l.
    rewrite (IH H). simpl. rewrite <- app_assoc. reflexivity.
Qed.

Lemma push_plain (stack : list string) (seg : string) :
  Props.plain_segment seg = true -> Path.push_segment true stack seg = seg :: stack.
Proof.
  unfold Props.plain_segment, Path.push_segment. intros H.
  apply andb_true_iff in H. destruct H as [H H3].
  apply andb_true_iff in H. destruct H as [H H2].
  apply andb_true_iff in H. destruct H as [_ H1].
  apply negb_true_iff in H1, H2, H3. rewrite H1, H2, H3. reflexivity.
Qed.

Lemma fold_push_plain (segs stack : list string) :
  forallb Props.plain_segment segs = true ->
  fold_left (Path.push_segment true) segs stack = rev segs ++ stack.
Proof.
  revert stack. induction segs as [|s segs IH]; intros stack H; simpl; [reflexivity|].
  simpl in H. apply andb_true_iff in H. destruct H as [Hs H].
  rewrite (push_plain stack s Hs), (IH _ H), <- app_assoc. reflexivity.
Qed.

Lemma absolute_join (s : string) (segs : list string) :
  Props.absolute (s :: segs) = "/" +:+ Js.join "/" (s :: segs).
Proof.
  revert s. induction segs as [|t segs IH]; intros s.
  - simpl. rewrite ?append_cons, ?append_nil_l. f_equal.
    clear. induction s as [|x s IH]; [reflexivity|]. rewrite append_cons. f_equal. exact IH.
  - change (Props.absolute (s :: t :: segs)) with ("/" +:+ s +:+ Props.absolute (t :: segs)).
    rewrite IH. reflexivity.
Qed.

Lemma absolute_snoc (segs : list string) (s : string) :
  Props.absolute (segs ++ s :: nil) = Props.absolute segs +:+ "/" +:+ s.
Proof.
  induction segs as [|t segs IH]; simpl.
  - rewrite ?append_cons, ?append_nil_l. f_equal.
    clear. induction s as [|x s IH]; [reflexivity|]. rewrite append_cons. f_equal. exact IH.
  - rewrite IH, ?append_cons, ?append_nil_l, append_assoc. reflexivity.
Qed.

Lemma join_not_empty (s : string) (segs : list string) :
  s <> EmptyString -> JsString.is_empty (Js.join "/" (s :: segs)) = false.
Proof.
  intros H. destruct s as [|c s]; [congruence|]. destruct segs; reflexivity.
Qed.

Lemma plain_not_empty (s : string) : Props.plain_segment s = true -> s <> EmptyString.
Proof.
  unfold Props.plain_segment. intros H ->. simpl in H. discriminate.
Qed.

Lemma last_plain (segs : list string) (s : string) :
  forallb Props.plain_segment (s :: segs) = true ->
  exists (init : list string) (z : string),
    s :: segs = init ++ z :: nil /\ z <> EmptyString.
Proof.
  intros H. destruct (exists_last (l := s :: segs)) as (init & z & Heq); [discriminate|].
  exists init, z. split; [exact Heq|].
  rewrite Heq, forallb_app in H. apply andb_true_iff in H. destruct H as [_ H].
  simpl in H. rewrite andb_true_r in H. exact (plain_not_empty z H).
Qed.

(** [path.normalize] keeps an absolute path of plain segments. *)
Lemma normalize_absolute (s : string) (segs : list string) :
  forallb Props.plain_segment (s :: segs) = true ->
  Path.normalize (Props.absolute (s :: segs)) = Props.absolute (s :: segs).
Proof.
  intros H. unfold Path.normalize.
  assert (Hsplit : Path.split (Props.absolute (s :: segs)) = EmptyString :: s :: segs).
  { unfold Path.split. rewrite (split_rev_absolute _ H). reflexivity. }
  assert (Hends : Path.ends_with_slash (Props.absolute (s :: segs)) = false).
  { unfold Path.ends_with_slash. rewrite Hsplit.
    destruct (last_plain segs s H) as (init & z & Heq & Hz).
    rewrite Heq. change (EmptyString :: init ++ z :: nil)
      with ((EmptyString :: init) ++ z :: nil).
    rewrite rev_app_distr. simpl.
    destruct (rev init ++ EmptyString :: nil) eqn:Hr.
    - destruct (rev init); discriminate.
    - destruct z; [congruence | reflexivity]. }
  assert (Hne : JsString.is_empty (Props.absolute (s :: segs)) = false) by reflexivity.
  assert (Habs : match Props.absolute (s :: segs) with
                 | EmptyString => false
                 | String c _ => Ascii.eqb c "/"%char
                 end = true) by reflexivity.
  rewrite Hne, Habs, Hends, Hsplit.
  change (fold_left (Path.push_segment true) (EmptyString :: s :: segs) nil)
    with (fold_left (Path.push_segment true) (s :: segs) nil).
  rewrite (fold_push_plain _ _ H), app_nil_r, rev_involutive.
  assert (Hs : s <> EmptyString).
  { simpl in H. apply andb_true_iff in H. destruct H as [H _]. exact (plain_not_empty s H). }
  rewrite (join_not_empty s segs Hs). symmetry. apply absolute_join.
Qed.

(** [path.join] of such a path and one more plain segment puts a slash
    between them. *)
Lemma join_absolute (s : string) (segs : list string) (b : string) :
  forallb Props.plain_segment (s :: segs) = true -> Props.plain_segment b = true ->
  Path.join (Props.absolute (s :: segs)) b = Props.absolute (s :: segs) +:+ "/" +:+ b.
Proof.
  intros H Hb. unfold Path.join.
  assert (Hne : JsString.is_empty (Props.absolute (s :: segs)) = false) by reflexivity.
  assert (Hbe : JsString.is_empty b = false).
  { destruct b; [discriminate | reflexivity]. }
  rewrite Hne, Hbe, <- absolute_snoc.
  change ((s :: segs) ++ b :: nil) with (s :: (segs ++ b :: nil)).
  apply normalize_absolute.
  change (s :: segs ++ b :: nil) with ((s :: segs) ++ b :: nil).
  rewrite forallb_app, H. simpl. rewrite Hb. reflexivity.
Qed.

(** The decimal text of an integer has no slash. *)
Lemma of_uint_no_slash (d : Decimal.uint) :
  Props.no_slash (DecimalString.NilEmpty.string_of_uint d) = true.
Proof. induction d; simpl; auto. Qed.

Lemma of_int_no_slash (z : Z) : Props.no_slash (JsString.of_int z) = true.
Proof.
  assert (H : forall y : Z, Props.no_slash (JsString.of_Z y) = true).
  { intros y. unfold JsString.of_Z, NilZero.string_of_uint.
    destruct (N.to_uint (Z.to_N y)); try apply of_uint_no_slash. reflexivity. }
  unfold JsString.of_int. destruct (z <? 0); [|apply H].
  unfold Props.no_slash in *. simpl. apply H.
Qed.

(** The name of a file of a capture is a plain segment when the account
    name has no slash. *)
Lemma file_name_plain (user : string) (t : Z) (ext : string) :
  Props.no_slash user = true -> Props.no_slash ext = true ->
  (2 <= String.length ext)%nat ->
  Props.plain_segment (user +:+ "_" +:+ JsString.of_int t +:+ ext) = true.
Proof.
  intros Hu He Hlen. unfold Props.plain_segment.
  set (name := user +:+ "_" +:+ JsString.of_int t +:+ ext).
  assert (Hslash : Props.no_slash name = true).
  { unfold name. rewrite !no_slash_app, Hu, of_int_no_slash, He. reflexivity. }
  assert (Hlong : (3 <= String.length name)%nat).
  { unfold name. rewrite !append_length. simpl. lia. }
  rewrite Hslash.
  destruct name as [|c1 [|c2 [|c3 r]]]; simpl in Hlong; try lia.
  simpl. destruct (Ascii.eqb c1 "."); [|reflexivity].
  destruct (Ascii.eqb c2 "."); reflexivity.
Qed.

Lemma capture_path (s : string) (segs : list string) (dir user ext : string) (t : Z) :
  forallb Props.plain_segment (s :: segs) = true -> Props.plain_segment dir = true ->
  Props.no_slash user = true -> Props.no_slash ext = true -> (2 <= String.length ext)%nat ->
  Path.join (Path.join (Props.absolute (s :: segs)) dir)
            ((user +:+ "_" +:+ JsString.of_int t) +:+ ext)
  = Props.absolute (s :: segs) +:+ "/" +:+ dir +:+ "/"
    +:+ (user +:+ "_" +:+ JsString.of_int t) +:+ ext.
Proof.
  intros H Hd Hu He Hlen.
  rewrite (join_absolute s segs dir H Hd), <- absolute_snoc.
  change ((s :: segs) ++ dir :: nil) with (s :: (segs ++ dir :: nil)).
  rewrite join_absolute.
  - change (s :: segs ++ dir :: nil) with ((s :: segs) ++ dir :: nil).
    rewrite absolute_snoc, !append_assoc. reflexivity.
  - change (s :: segs ++ dir :: nil) with ((s :: segs) ++ dir :: nil).
    rewrite forallb_app, H. simpl. rewrite Hd. reflexivity.
  - rewrite !append_assoc. apply file_name_plain; assumption.
Qed.

Lemma ensure_dir_world (dir : string) (w : World) :
  let w1 := snd (ensure_dir dir w) in
  outside w1 = outside w /\ clock_reads w1 = clock_reads w
  /\ fetched w1 = fetched w /\ spawned w1 = spawned w.
Proof.
  destruct (ensure_dir_cases dir w) as [[_ ->]|[(_ & _ & ->)|(_ & msg & _ & ->)]];
    simpl; auto.
Qed.

(** X17.  For an account name without a slash, and a working directory
    that is an absolute path of plain segments, a complete capture writes
    its two files directly into the two directories, under the account
    name, an underscore and the time of the capture in milliseconds: the
    answer 200 names [<cwd>/recordings/<user>_<time>.mp4] and
    [<cwd>/audio/<user>_<time>.wav], and both files are on disk. *)
Theorem capture_files_are_named_after_the_account
    (req : request) (username : string) (w : World) (r : response)
    (s : string) (segs : list string) :
  method req = "POST" ->
  Account.valid_username (query_username req) = Some username ->
  cwd (outside w) = Props.absolute (s :: segs) ->
  forallb Props.plain_segment (s :: segs) = true ->
  Props.no_slash (Account.user_of username) = true ->
  fst (handler req w) = Sent r -> status r = 200 ->
  let name := Account.user_of username +:+ "_"
              +:+ JsString.of_int (now (outside w) (clock_reads w)) in
  let videoPath := cwd (outside w) +:+ "/recordings/" +:+ name +:+ ".mp4" in
  let audioPath := cwd (outside w) +:+ "/audio/" +:+ name +:+ ".wav" in
  (exists flvUrl : value,
      body r = Some (("message", VStr "Recording complete") :: ("flvUrl", flvUrl)
                     :: ("videoPath", VStr videoPath) :: ("audioPath", VStr audioPath) :: nil))
  /\ videoPath ∈ files (snd (handler req w))
  /\ audioPath ∈ files (snd (handler req w)).
Proof.
  intros Hm Hv Hcwd Hplain Huser Hsent H200 name videoPath audioPath.
  assert (Hvideo : Path.join (Path.join (cwd (outside w)) "recordings") (name +:+ ".mp4")
                   = videoPath).
  { unfold videoPath, name. rewrite Hcwd.
    rewrite (capture_path s segs "recordings" _ ".mp4" _ Hplain eq_refl Huser eq_refl);
      [reflexivity | simpl; lia]. }
  assert (Haudio : Path.join (Path.join (cwd (outside w)) "audio") (name +:+ ".wav")
                   = audioPath).
  { unfold audioPath, name. rewrite Hcwd.
    rewrite (capture_path s segs "audio" _ ".wav" _ Hplain eq_refl Huser eq_refl);
      [reflexivity | simpl; lia]. }
  clearbody videoPath audioPath. revert Hsent.
  rewrite (record_handler_eq req username w Hm Hv). cbv zeta.
  set (rd := Path.join (cwd (outside w)) "recordings") in *.
  set (ad := Path.join (cwd (outside w)) "audio") in *.
  destruct (ensure_dir_world rd w) as (Ho1 & Hc1 & _).
  destruct (ensure_dir rd w) as [[m1|] w1]; [discriminate|]. simpl in Ho1, Hc1.
  destruct (ensure_dir_world ad w1) as (Ho2 & Hc2 & _).
  destruct (ensure_dir ad w1) as [[m2|] w2]; [discriminate|]. simpl in Ho2, Hc2.
  rewrite record_eq. cbv zeta.
  assert (Hfail : forall reason : string, failed reason = Sent r -> False).
  { intros reason [= <-]. discriminate. }
  destruct (upstream _ _ _) as [nm message|code html]; [intros H; destruct (Hfail _ H)|].
  destruct (resolve_streams html) as [reason|streams]; [intros H; destruct (Hfail _ H)|].
  destruct (nullish streams); [intros H; destruct (Hfail _ H)|].
  destruct (negb _); [intros H; destruct (Hfail _ H)|].
  set (wf := with_fetched _ w2).
  pose proof (capture_cases (Account.user_of username) (flvUrl_of streams) rd ad wf) as Hc.
  cbv zeta in Hc.
  change (outside wf) with (outside w2) in Hc. change (clock_reads wf) with (clock_reads w2) in Hc.
  rewrite Ho2, Ho1, Hc2, Hc1 in Hc. fold name in Hc. rewrite Hvideo, Haudio in Hc.
  destruct (ffmpeg_error _) as [e1|].
  - destruct Hc as [-> _]. intros H. destruct (Hfail _ H).
  - destruct (ffmpeg_error _) as [e2|].
    + destruct Hc as [-> _]. intros H. destruct (Hfail _ H).
    + destruct Hc as (-> & _ & Hv1 & Ha1). intros [= <-]. simpl. eauto.
Qed.

(** The capture of the sample page for [@Foo ] at the first reading of the
    clock. *)
Lemma capture_files_are_named_after_the_account_witness :
  "/app/recordings/Foo_1700000000000.mp4"
    ∈ files (snd (handler (Scenario.post_request "@Foo ") Scenario.live_world))
  /\ "/app/audio/Foo_1700000000000.wav"
    ∈ files (snd (handler (Scenario.post_request "@Foo ") Scenario.live_world)).
Proof.
  assert (H : exists r : response,
             fst (handler (Scenario.post_request "@Foo ") Scenario.live_world) = Sent r
             /\ status r = 200)
    by (eexists; split; vm_compute; reflexivity).
  destruct H as (r & Hr & H200).
  assert (Hv : cwd (outside Scenario.live_world) +:+ "/recordings/"
               +:+ (Account.user_of "@Foo " +:+ "_"
                    +:+ JsString.of_int (now (outside Scenario.live_world)
                                             (clock_reads Scenario.live_world)))
               +:+ ".mp4"
               = "/app/recordings/Foo_1700000000000.mp4") by (vm_compute; reflexivity).
  assert (Ha : cwd (outside Scenario.live_world) +:+ "/audio/"
               +:+ (Account.user_of "@Foo " +:+ "_"
                    +:+ JsString.of_int (now (outside Scenario.live_world)
                                             (clock_reads Scenario.live_world)))
               +:+ ".wav"
               = "/app/audio/Foo_1700000000000.wav") by (vm_compute; reflexivity).
  rewrite <- Hv, <- Ha.
  destruct (capture_files_are_named_after_the_account (Scenario.post_request "@Foo ") "@Foo "
              Scenario.live_world r "app" nil eq_refl eq_refl eq_refl eq_refl eq_refl Hr H200)
    as (_ & H1 & H2).
  split; [exact H1 | exact H2].
Defined.

End CapturePaths.

(** ** What the two patterns match *)

Section Patterns.
Import Js Markup.

Lemma positions_from_nil (p s : string) (i j : nat) :
  Spec.positions_from p s i = nil -> Spec.positions_from p s j = nil.
Proof.
  revert i j. induction s as [|c s IH]; intros i j; simpl.
  - destruct (JsString.strip_prefix p EmptyString); [discriminate | reflexivity].
  - destruct (JsString.strip_prefix p (String c s)); [discriminate|]. simpl. apply IH.
Qed.

Lemma positions_from_cons (p : string) (c : ascii) (s : string) (i : nat) :
  Spec.positions_from p (String c s) i
  = match JsString.strip_prefix p (String c s) with
    | Some _ => i :: nil
    | None => nil
    end ++ Spec.positions_from p s (S i).
Proof. reflexivity. Qed.

Lemma strip_prefix_longer (p s rest : string) :
  JsString.strip_prefix p (s +:+ rest) = None -> JsString.strip_prefix p s = None.
Proof.
  intros H. destruct (JsString.strip_prefix p s) as [r|] eqn:Hs; [|reflexivity].
  apply strip_prefix_Some in Hs. subst s.
  rewrite append_assoc, strip_prefix_append in H. discriminate.
Qed.

(** What the lazy star and the closing tag match: the text up to the
    first closing tag. *)
Lemma lazy_until_close_Some (class : ascii -> bool) (s text : string) :
  lazy_until_close class s = Some text ->
  exists post : string,
    s = text +:+ close_tag +:+ post /\ Spec.positions close_tag text = nil.
Proof.
  revert text. induction s as [|c s IH]; intros text.
  - discriminate.
  - rewrite lazy_until_close_cons.
    destruct (JsString.strip_prefix close_tag (String c s)) as [post|] eqn:Hhere.
    + intros [= <-]. exists post. rewrite append_nil_l.
      split; [apply strip_prefix_Some; exact Hhere | reflexivity].
    + destruct (class c); [|discriminate].
      destruct (lazy_until_close class s) as [body|]; [|discriminate].
      intros [= <-]. destruct (IH body eq_refl) as (post & -> & Hnone).
      exists post. split; [reflexivity|].
      unfold Spec.positions. rewrite positions_from_cons.
      rewrite <- append_cons in Hhere.
      rewrite (strip_prefix_longer _ _ _ Hhere).
      exact (positions_from_nil _ _ 0 1 Hnone).
Qed.

(** It matches whenever characters of the class lead to a closing tag. *)
Lemma lazy_until_close_succeeds (class : ascii -> bool) (body rest : string) :
  forallb class (Spec.chars body) = true ->
  lazy_until_close class (body +:+ close_tag +:+ rest) <> None.
Proof.
  induction body as [|c body IH]; intros H.
  - rewrite append_nil_l, lazy_until_close_here. discriminate.
  - simpl in H. apply andb_true_iff in H. destruct H as [Hc H].
    rewrite append_cons, lazy_until_close_cons.
    destruct (JsString.strip_prefix close_tag _); [discriminate|].
    rewrite Hc. specialize (IH H).
    destruct (lazy_until_close class (body +:+ close_tag +:+ rest)); [discriminate|congruence].
Qed.

Lemma after_attributes_Some (s rest : string) :
  after_attributes s = Some rest ->
  exists attrs : string,
    s = attrs +:+ ">" +:+ rest
    /\ forallb (fun c => negb (Ascii.eqb c ">"%char)) (Spec.chars attrs) = true.
Proof.
  induction s as [|c s IH]; simpl; [discriminate|].
  destruct (Ascii.eqb_spec c ">"%char) as [->|Hne].
  - intros [= <-]. exists EmptyString. auto.
  - intros H. destruct (IH H) as (attrs & -> & Hattrs).
    exists (String c attrs). split; [reflexivity|]. simpl. rewrite Hattrs.
    destruct (Ascii.eqb_spec c ">"%char); [contradiction | reflexivity].
Qed.

Lemma search_cons (f : string -> option string) (c : ascii) (s : string) :
  search f (String c s)
  = match f (String c s) with Some body => Some body | None => search f s end.
Proof. reflexivity. Qed.

Lemma search_finds (f : string -> option string) (pre t : string) :
  f t <> None -> search f (pre +:+ t) <> None.
Proof.
  intros H. induction pre as [|c pre IH].
  - rewrite append_nil_l. destruct t as [|c t].
    + simpl. destruct (f EmptyString); congruence.
    + rewrite search_cons. destruct (f (String c t)); congruence.
  - rewrite append_cons, search_cons.
    destruct (f (String c (pre +:+ t))); [discriminate | exact IH].
Qed.

Lemma all_any (s : string) : forallb any (Spec.chars s) = true.
Proof. induction s; simpl; auto. Qed.

(** X18.  What a pattern captures is the content of a state element of
    the markup.  For the pattern of the live-status and record routes the
    markup is some text, the opening [<script id="SIGI_STATE"], attributes
    without a [>], the [>], the captured text, [</script>] and a rest; the
    captured text has no line terminator.  For the pattern of the
    user-info route the markup is some text, the opening tag with its
    [type="application/json"], the captured text, [</script>] and a rest.
    In both the captured text ends before the first closing tag: it
    contains no [</script>]. *)
Theorem captured_text_is_the_content_of_the_element :
  (forall html text : string,
      match_live html = Some text ->
      exists pre attrs post : string,
        html = pre +:+ marker +:+ attrs +:+ ">" +:+ text +:+ close_tag +:+ post
        /\ forallb (fun c => negb (Ascii.eqb c ">"%char)) (Spec.chars attrs) = true
        /\ forallb dot (Spec.chars text) = true
        /\ Spec.positions close_tag text = nil)
  /\ (forall html text : string,
        match_info html = Some text ->
        exists pre post : string,
          html = pre +:+ json_open_tag +:+ text +:+ close_tag +:+ post
          /\ Spec.positions close_tag text = nil).
Proof.
  split.
  - intros html text H. unfold match_live in H.
    destruct (search_Some _ _ _ H) as (pre & b & -> & Hb). unfold live_pattern_at in Hb.
    destruct (JsString.strip_prefix marker b) as [r|] eqn:Hr; [|discriminate].
    apply strip_prefix_Some in Hr. subst b.
    destruct (after_attributes r) as [r'|] eqn:Ha; [|discriminate].
    destruct (after_attributes_Some r r' Ha) as (attrs & -> & Hattrs).
    pose proof (lazy_until_close_class dot r' text Hb) as Hdot.
    destruct (lazy_until_close_Some dot r' text Hb) as (post & -> & Hnone).
    exists pre, attrs, post. auto.
  - intros html text H. unfold match_info in H.
    destruct (search_Some _ _ _ H) as (pre & b & -> & Hb). unfold info_pattern_at in Hb.
    destruct (JsString.strip_prefix json_open_tag b) as [r|] eqn:Hr; [|discriminate].
    apply strip_prefix_Some in Hr. subst b.
    destruct (lazy_until_close_Some any r text Hb) as (post & -> & Hnone).
    exists pre, post. auto.
Qed.

(** X19.  A pattern finds a state element whenever the markup has one.
    The pattern of the live-status and record routes finds nothing
    exactly when the markup has nowhere the opening
    [<script id="SIGI_STATE"], attributes without a [>], the [>], a text
    without line terminator and [</script>].  The pattern of the
    user-info route finds nothing exactly when the markup has nowhere its
    opening tag followed, at any distance, by [</script>]. *)
Theorem patterns_find_every_state_element :
  (forall html : string,
      match_live html = None <->
      ~ exists pre attrs body post : string,
          html = pre +:+ marker +:+ attrs +:+ ">" +:+ body +:+ close_tag +:+ post
          /\ forallb (fun c => negb (Ascii.eqb c ">"%char)) (Spec.chars attrs) = true
          /\ forallb dot (Spec.chars body) = true)
  /\ (forall html : string,
        match_info html = None <->
        ~ exists pre body post : string,
            html = pre +:+ json_open_tag +:+ body +:+ close_tag +:+ post).
Proof.
  split; intros html; split.
  - intros Hnone (pre & attrs & body & post & -> & Hattrs & Hdot).
    revert Hnone. unfold match_live. apply search_finds.
    unfold live_pattern_at. rewrite strip_prefix_append.
    rewrite (after_attributes_skips attrs _ Hattrs).
    exact (lazy_until_close_succeeds dot body post Hdot).
  - intros Hno. destruct (match_live html) as [text|] eqn:Hm; [|reflexivity].
    exfalso. apply Hno.
    unfold match_live in Hm.
    destruct (search_Some _ _ _ Hm) as (pre & b & -> & Hb). unfold live_pattern_at in Hb.
    destruct (JsString.strip_prefix marker b) as [r|] eqn:Hr; [|discriminate].
    apply strip_prefix_Some in Hr. subst b.
    destruct (after_attributes r) as [r'|] eqn:Ha; [|discriminate].
    destruct (after_attributes_Some r r' Ha) as (attrs & -> & Hattrs).
    pose proof (lazy_until_close_class dot r' text Hb) as Hdot.
    destruct (lazy_until_close_Some dot r' text Hb) as (post & -> & _).
    exists pre, attrs, text, post. auto.
  - intros Hnone (pre & body & post & ->).
    revert Hnone. unfold match_info. apply search_finds.
    unfold info_pattern_at. rewrite strip_prefix_append.
    exact (lazy_until_close_succeeds any body post (all_any body)).
  - intros Hno. destruct (match_info html) as [text|] eqn:Hm; [|reflexivity].
    exfalso. apply Hno.
    unfold match_info in Hm.
    destruct (search_Some _ _ _ Hm) as (pre & b & -> & Hb). unfold info_pattern_at in Hb.
    destruct (JsString.strip_prefix json_open_tag b) as [r|] eqn:Hr; [|discriminate].
    apply strip_prefix_Some in Hr. subst b.
    destruct (lazy_until_close_Some any r text Hb) as (post & -> & _).
    exists pre, text, post. reflexivity.
Qed.

End Patterns.

(** ** The live-status route and the record route on one page *)

Section OnePage.
Import Js Http Sys.

(** X20.  The live-status route and the record route read the same page
    with the same pattern.  So a page on which the live-status route finds
    a live room gets past the first two stages of the record route: the
    record route does not answer [SIGI_STATE missing] or
    [Failed to parse SIGI_STATE] for it; it resolves the manifest, or
    fails on the stream data. *)
Theorem live_page_gets_past_the_state_stages (html : string) :
  CheckLive.live (CheckLive.resolve html) = true ->
  (exists streams : value, Record.resolve_streams html = inr streams)
  \/ Record.resolve_streams html = inl "No stream data found"
  \/ Record.resolve_streams html = inl "Failed to parse stream data".
Proof.
  unfold CheckLive.resolve, Record.resolve_streams.
  destruct (Markup.match_live html) as [text|]; [|discriminate].
  destruct (JsString.is_empty text); [discriminate|]. simpl negb. cbv iota.
  destruct (Json.parse text) as [data|]; [|discriminate].
  intros _. destruct (negb (truthy (Record.stream_data data))); [auto|].
  destruct (Record.streams_of (Record.stream_data data)); eauto.
Qed.

(** The sample page is live. *)
Lemma live_page_gets_past_the_state_stages_witness :
  (exists streams : value, Record.resolve_streams Scenario.live_page = inr streams)
  \/ Record.resolve_streams Scenario.live_page = inl "No stream data found"
  \/ Record.resolve_streams Scenario.live_page = inl "Failed to parse stream data".
Proof.
  apply (live_page_gets_past_the_state_stages Scenario.live_page).
  vm_compute. reflexivity.
Defined.

End OnePage.

(** ** What the user-info route refuses *)

Section UserInfoRefusals.
Import Js Http Sys UserInfo.

Lemma strip_at_empty (s : string) :
  JsString.strip_at s = EmptyString <-> s = EmptyString \/ s = "@".
Proof.
  destruct s as [|c r]; simpl; [tauto|].
  destruct (Ascii.eqb_spec c "@"%char) as [->|Hne].
  - split; [intros ->; auto | intros [H|H]; congruence].
  - split; [discriminate | intros [H|[= H _]]; [discriminate | contradiction]].
Qed.

(** No answer of the route to a name it accepts is the refusal. *)
Lemma after_miss_is_no_refusal (username : string) (w : World) :
  fst (after_miss username w)
  <> Response 400 cors (Some (("error", VStr "Missing username") :: nil)).
Proof.
  rewrite after_miss_eq. cbv zeta.
  destruct (upstream _ _ _) as [name message|code html]; [discriminate|].
  destruct (negb _); [discriminate|].
  destruct (lookup html username) as [e|[userId country]]; [discriminate|].
  destruct (dataOut username userId country) as [e|d]; discriminate.
Qed.

(** X21.  The user-info route answers a preflight request at once: 204,
    no body, nothing read or changed.  Any other request is answered with
    the refusal 400 [Missing username] exactly when the name, after
    trimming, is empty or is a lone [@]: the parameter is absent, or white
    space only, or an [@] within white space.  A refusal leaves the
    process as it was.  A request that is not refused goes on to the
    cache, read under the lower-cased name: when the read gives an entry
    the route answers with it, and when it gives none the route goes on
    with the name and fetches the profile page of the name. *)
Theorem user_info_refuses_an_empty_name (req : request) (w : World) :
  let raw := usernameRaw (query_username req) in
  let username := username_of (query_username req) in
  let refusal := Response 400 cors (Some (("error", VStr "Missing username") :: nil)) in
  let read := cache_get (key_of username) w in
  (method req = "OPTIONS" -> handler req w = (Response 204 cors None, w))
  /\ (method req <> "OPTIONS" ->
      (fst (handler req w) = refusal <-> raw = EmptyString \/ raw = "@")
      /\ (raw = EmptyString \/ raw = "@" -> handler req w = (refusal, w))
      /\ (raw <> EmptyString -> raw <> "@" ->
          (forall h : cache_entry,
              fst read = Some h -> handler req w = (hit_response h, snd read))
          /\ (fst read = None ->
              handler req w = after_miss username (snd read)
              /\ fetched (snd (handler req w)) = fetched w ++ profile_url username :: nil)))
  /\ (forall s : string,
        usernameRaw (QString s) = EmptyString <-> Props.white s = true)
  /\ usernameRaw QAbsent = EmptyString.
Proof.
  intros raw username refusal read. split; [|split; [|split]].
  - intros Hm. unfold handler. rewrite Hm. reflexivity.
  - intros Hm.
    assert (Hneq : String.eqb (method req) "OPTIONS" = false) by (apply String.eqb_neq; exact Hm).
    assert (Hrefused : raw = EmptyString \/ raw = "@" -> handler req w = (refusal, w)).
    { intros Hraw. apply strip_at_empty in Hraw.
      unfold handler. rewrite Hneq. unfold username_of. fold raw. rewrite Hraw. reflexivity. }
    assert (Hgoes : raw <> EmptyString -> raw <> "@" ->
              (forall h : cache_entry,
                  fst read = Some h -> handler req w = (hit_response h, snd read))
              /\ (fst read = None -> handler req w = after_miss username (snd read))).
    { intros H1 H2.
      assert (Hreq : asks_for req username).
      { split; [exact Hneq|]. split; [reflexivity|].
        unfold username, username_of. fold raw. rewrite strip_at_empty. tauto. }
      split.
      - intros h Hh. exact (handler_hit req username w h Hreq Hh).
      - intros Hnone. exact (handler_miss req username w Hreq Hnone). }
    split; [|split].
    + split; [|intros Hraw; rewrite (Hrefused Hraw); reflexivity].
      intros Hans.
      destruct (string_dec raw EmptyString) as [He|He]; [left; exact He|].
      destruct (string_dec raw "@") as [Ha|Ha]; [right; exact Ha|].
      exfalso. destruct (Hgoes He Ha) as [Hhit Hmiss].
      destruct (fst read) as [h|] eqn:Hread.
      * rewrite (Hhit h eq_refl) in Hans. discriminate Hans.
      * rewrite (Hmiss eq_refl) in Hans. exact (after_miss_is_no_refusal _ _ Hans).
    + exact Hrefused.
    + intros H1 H2. destruct (Hgoes H1 H2) as [Hhit Hmiss]. split; [exact Hhit|].
      intros Hnone. split; [exact (Hmiss Hnone)|].
      rewrite (Hmiss Hnone), (proj1 (after_miss_fetches username _)). f_equal.
      exact (proj1 (proj2 (cache_get_world (key_of username) w))).
  - intros s. apply trim_empty.
  - reflexivity.
Qed.

End UserInfoRefusals.

(** ** Logs and the listeners that fill them *)

Section LogsAndListeners.
Import Js Http Sys StartComments.

Lemma listeners_same (w w' : World) :
  commentLogs w' = commentLogs w -> commentWatchers w' = commentWatchers w ->
  Props.logs_have_listeners w -> Props.logs_have_listeners w'.
Proof.
  intros Hl Hw H logs u l Hlogs Hu Hne. rewrite Hl in Hlogs. rewrite Hw.
  exact (H logs u l Hlogs Hu Hne).
Qed.

Lemma start_comments_listeners (req : request) (w : World) :
  Props.logs_have_listeners w -> Props.logs_have_listeners (snd (handler req w)).
Proof.
  intros H. unfold handler.
  destruct (Account.valid_username _) as [username|]; [|exact H].
  set (user := Account.user_of username).
  unfold mbind, M_bind, mret, M_ret, init_globals, set_log, connect_chat, set_watcher.
  assert (Hold : forall (u : string) (l : list log_entry),
             default ∅ (commentLogs w) !! u = Some l -> l <> nil ->
             exists c : connection, default ∅ (commentWatchers w) !! u = Some c).
  { intros u l Hu Hne. destruct (commentLogs w) as [logs|] eqn:Hlogs; simpl in Hu.
    - destruct (H logs u l Hlogs Hu Hne) as (ws & c & -> & Hc). exists c. exact Hc.
    - rewrite lookup_empty in Hu. discriminate. }
  assert (Hreset : forall (u : string) (l : list log_entry),
             <[ user := nil ]> (default ∅ (commentLogs w)) !! u = Some l -> l <> nil ->
             exists c : connection, default ∅ (commentWatchers w) !! u = Some c).
  { intros u l Hu Hne. destruct (decide (u = user)) as [->|Hother].
    - rewrite lookup_insert_eq in Hu. congruence.
    - rewrite lookup_insert_ne in Hu by congruence. exact (Hold u l Hu Hne). }
  clear H. revert Hold Hreset.
  destruct (commentLogs w) as [ls|]; destruct (commentWatchers w) as [ws|]; simpl;
    intros Hold Hreset;
    (destruct (found_truthy _); simpl;
     [ intros logs u l [= <-] Hu Hne; destruct (Hold u l Hu Hne) as [c Hc]; eauto
     | destruct (connect _ _ _); simpl; intros logs u l [= <-] Hu Hne;
       destruct (Hreset u l Hu Hne) as [c Hc];
       [ eauto
       | destruct (decide (u = user)) as [->|Hother];
         [ eexists _, _; split; [reflexivity | rewrite lookup_insert_eq; reflexivity]
         | eexists _, c; split;
           [reflexivity | rewrite lookup_insert_ne by congruence; exact Hc] ] ] ]).
Qed.

Lemma chat_listeners (user : string) (d : chat_data) (w w' : World) :
  Props.logs_have_listeners w -> chat user d w = Some w' -> Props.logs_have_listeners w'.
Proof.
  intros H Hchat. unfold chat in Hchat.
  destruct (commentWatchers w) as [watchers|] eqn:Hw; [|injection Hchat as <-; exact H].
  destruct (watchers !! user) as [c|] eqn:Hc; [|injection Hchat as <-; exact H].
  unfold listener in Hchat. destruct (commentLogs w) as [logs|] eqn:Hlogs; [|discriminate].
  assert (Hrun : w' = with_commentLogs
                        (Some (<[ user := push_capped
                                           match dict_get logs user with Own l => l | _ => nil end
                                           (entry_of (now (outside w) (clock_reads w)) d) ]> logs))
                        (with_clock_reads (S (clock_reads w)) w)).
  { destruct (dict_get logs user); simpl in Hchat; congruence. }
  subst w'. intros logs' u l [= <-] Hu Hne. simpl. rewrite Hw.
  destruct (decide (u = user)) as [->|Hother].
  - eauto.
  - rewrite lookup_insert_ne in Hu by congruence.
    destruct (H logs u l Hlogs Hu Hne) as (ws & c' & Hws & Hc'). rewrite Hw in Hws.
    injection Hws as <-. eauto.
Qed.

(** X22.  A log that holds an entry belongs to an account whose
    connection is stored: this is true of a process that has just started,
    and every request and every chat event keeps it true.  On such a
    process the start-comments route discards nothing: when its test finds
    no watcher for the account, the log it replaces by the empty array was
    absent or empty. *)
Theorem logs_belong_to_listeners :
  (forall o : Outside, Props.logs_have_listeners (Scenario.fresh o))
  /\ (forall w : World,
        Props.logs_have_listeners w ->
        (forall req : request, Props.logs_have_listeners (snd (CheckLive.handler req w)))
        /\ (forall req : request, Props.logs_have_listeners (snd (UserInfo.handler req w)))
        /\ (forall req : request, Props.logs_have_listeners (snd (handler req w)))
        /\ (forall req : request, Props.logs_have_listeners (snd (GetLogs.handler req w)))
        /\ (forall req : request, Props.logs_have_listeners (snd (Record.handler req w)))
        /\ (forall (user : string) (d : chat_data) (w' : World),
              chat user d w = Some w' -> Props.logs_have_listeners w'))
  /\ (forall (w : World) (user : string),
        Props.logs_have_listeners w -> watcher_exists w user = false ->
        default ∅ (commentLogs w) !! user = None
        \/ default ∅ (commentLogs w) !! user = Some nil).
Proof.
  split; [intros o logs u l H; discriminate|]. split.
  - intros w H. split; [|split; [|split; [|split; [|split]]]].
    + intros req.
      destruct (check_live_world req w) as [Hw | [url Hw]]; rewrite Hw;
        apply (listeners_same w); auto.
    + intros req. destruct (user_info_frame req w) as ((Hl & Hw & _) & _).
      exact (listeners_same w _ Hl Hw H).
    + intros req. exact (start_comments_listeners req w H).
    + intros req. apply (listeners_same w); auto;
        unfold GetLogs.handler; destruct (Account.valid_username _); reflexivity.
    + intros req. destruct (steady_record_handler req w) as (_ & (Hl & Hw & _) & _).
      exact (listeners_same w _ Hl Hw H).
    + intros user d w'. exact (chat_listeners user d w w' H).
  - intros w user H Hnone.
    destruct (default ∅ (commentLogs w) !! user) as [[|e l]|] eqn:Hu; auto.
    exfalso. destruct (commentLogs w) as [logs|] eqn:Hlogs; simpl in Hu.
    + destruct (H logs user (e :: l) Hlogs Hu) as (ws & c & Hws & Hc); [discriminate|].
      rewrite (watcher_exists_stored w ws user c Hws Hc) in Hnone. discriminate.
    + rewrite lookup_empty in Hu. discriminate.
Qed.

End LogsAndListeners.

(** ** The bound of the JSON reader *)

Section JsonBound.
Import Js Json.

Local Abbreviation len := (@length Z).

Lemma skip_ws_length (s : list Z) : (len (skip_ws s) <= len s)%nat.
Proof.
  induction s as [|c s IH]; simpl; [lia|]. destruct (is_ws c); simpl; lia.
Qed.

Lemma skip_ws_cons (s : list Z) (c : Z) (r : list Z) :
  skip_ws s = c :: r -> (len r < len s)%nat.
Proof.
  intros H. pose proof (skip_ws_length s) as Hl. rewrite H in Hl. simpl in Hl. lia.
Qed.

Lemma cons_unit_rest (c : Z) (p : option (list Z * list Z)) (str rest : list Z) :
  cons_unit c p = Some (str, rest) -> exists str' : list Z, p = Some (str', rest).
Proof. destruct p as [[s r]|]; simpl; [|discriminate]. intros [= _ <-]. eauto. Qed.

Lemma parse_string_body_cons (u : Z) (r : list Z) :
  parse_string_body (u :: r) =
  if u =? JsString.code JsString.quote then Some (nil, r)
  else if is_char "\" u then
    match r with
    | e :: r' =>
        if e =? JsString.code JsString.quote
        then cons_unit (JsString.code JsString.quote) (parse_string_body r')
        else if is_char "\" e then cons_unit (JsString.code "\") (parse_string_body r')
        else if is_char "/" e then cons_unit (JsString.code "/") (parse_string_body r')
        else if is_char "b" e then cons_unit 8 (parse_string_body r')
        else if is_char "f" e then cons_unit 12 (parse_string_body r')
        else if is_char "n" e then cons_unit 10 (parse_string_body r')
        else if is_char "r" e then cons_unit 13 (parse_string_body r')
        else if is_char "t" e then cons_unit 9 (parse_string_body r')
        else if is_char "u" e then
          match r' with
          | h1 :: h2 :: h3 :: h4 :: r'' =>
              match hex4 h1 h2 h3 h4 with
              | Some n => cons_unit n (parse_string_body r'')
              | None => None
              end
          | _ => None
          end
        else None
    | nil => None
    end
  else if u <? 32 then None
  else cons_unit u (parse_string_body r).
Proof. reflexivity. Qed.

Lemma parse_string_body_length (n : nat) :
  forall s str rest : list Z,
    (len s <= n)%nat -> parse_string_body s = Some (str, rest) -> (len rest < len s)%nat.
Proof.
  induction n as [|n IH]; intros s str rest Hn.
  - destruct s; [discriminate | simpl in Hn; lia].
  - destruct s as [|c r]; [discriminate|]. simpl in Hn. rewrite parse_string_body_cons.
    destruct (c =? JsString.code JsString.quote); [intros [= _ <-]; simpl; lia|].
    destruct (is_char "\" c).
    + destruct r as [|e r']; [discriminate|]. simpl in Hn.
      assert (Hnext : forall (x : Z) (t : list Z),
                 (len t <= len r')%nat ->
                 cons_unit x (parse_string_body t) = Some (str, rest) ->
                 (len rest < len (c :: e :: r'))%nat).
      { intros x t Ht H. destruct (cons_unit_rest _ _ _ _ H) as [str' H'].
        assert (len rest < len t)%nat by (apply (IH t str' rest); [lia | exact H']).
        simpl. lia. }
      repeat (match goal with
              | |- (if ?b then _ else _) = _ -> _ => destruct b
              end; [apply Hnext; lia|]).
      destruct (is_char "u" e); [|discriminate].
      destruct r' as [|h1 [|h2 [|h3 [|h4 r'']]]]; try discriminate.
      destruct (hex4 h1 h2 h3 h4) as [k|]; [|discriminate].
      intros H. apply (Hnext k r''); [simpl; lia | exact H].
    + destruct (c <? 32); [discriminate|].
      intros H. destruct (cons_unit_rest _ _ _ _ H) as [str' H'].
      assert (len rest < len r)%nat by (apply (IH r str' rest); [lia | exact H']).
      simpl. lia.
Qed.

Lemma parse_digits_length (s : list Z) :
  forall (acc count v n : Z) (rest : list Z),
    parse_digits s acc count = (v, n, rest) -> (len rest <= len s)%nat.
Proof.
  induction s as [|c s IH]; intros acc count v n rest; simpl.
  - intros [= _ _ <-]. simpl. lia.
  - destruct (is_digit c).
    + intros H. apply IH in H. lia.
    + intros [= _ _ <-]. simpl. lia.
Qed.

Lemma parse_number_length (s : list Z) (x : JsNumber.number) (rest : list Z) :
  parse_number s = Some (x, rest) -> (len rest <= len s)%nat.
Proof.
  unfold parse_number.
  set (sign := match s with
               | c :: r => if is_char "-" c then (true, r) else (false, s)
               | nil => (false, s)
               end).
  assert (Hsign : (len (snd sign) <= len s)%nat).
  { unfold sign. destruct s as [|c r]; simpl; [lia|].
    destruct (is_char "-" c); simpl; lia. }
  destruct sign as [neg s1]. simpl in Hsign.
  set (int_part := match s1 with
                   | c :: r =>
                       if is_char "0" c then Some (0, r)
                       else if is_digit c then
                              let '(v, _, rest0) := parse_digits s1 0 0 in Some (v, rest0)
                            else None
                   | nil => None
                   end).
  assert (Hint : forall (i : Z) (s2 : list Z), int_part = Some (i, s2) -> (len s2 <= len s1)%nat).
  { unfold int_part. intros i s2. destruct s1 as [|c r]; [discriminate|].
    destruct (is_char "0" c); [intros [= _ <-]; simpl; lia|].
    destruct (is_digit c); [|discriminate].
    destruct (parse_digits (c :: r) 0 0) as [[v k] rest0] eqn:Hd.
    intros [= _ <-]. exact (parse_digits_length _ _ _ _ _ _ Hd). }
  destruct int_part as [[i s2]|]; [|discriminate].
  specialize (Hint i s2 eq_refl).
  set (frac_part := match s2 with
                    | c :: r =>
                        if is_char "." c then
                          let '(v, n, rest0) := parse_digits r i 0 in
                          if n =? 0 then None else Some (v, n, rest0)
                        else Some (i, 0, s2)
                    | nil => Some (i, 0, s2)
                    end).
  assert (Hfrac : forall (m k : Z) (s3 : list Z),
             frac_part = Some (m, k, s3) -> (len s3 <= len s2)%nat).
  { unfold frac_part. intros m k s3. destruct s2 as [|c r]; [intros [= _ _ <-]; lia|].
    destruct (is_char "." c); [|intros [= _ _ <-]; lia].
    destruct (parse_digits r i 0) as [[v n] rest0] eqn:Hd.
    destruct (n =? 0); [discriminate|]. intros [= _ _ <-].
    pose proof (parse_digits_length _ _ _ _ _ _ Hd). simpl. lia. }
  destruct frac_part as [[[m k] s3]|]; [|discriminate].
  specialize (Hfrac m k s3 eq_refl).
  set (exp_part := match s3 with
                   | c :: r =>
                       if is_char "e" c || is_char "E" c then
                         let '(eneg, r1) :=
                           match r with
                           | sg :: r' =>
                               if is_char "-" sg then (true, r')
                               else if is_char "+" sg then (false, r')
                               else (false, r)
                           | nil => (false, r)
                           end in
                         let '(v, n, rest0) := parse_digits r1 0 0 in
                         if n =? 0 then None else Some ((if eneg then - v else v), rest0)
                       else Some (0, s3)
                   | nil => Some (0, s3)
                   end).
  assert (Hexp : forall (ex : Z) (s4 : list Z),
             exp_part = Some (ex, s4) -> (len s4 <= len s3)%nat).
  { unfold exp_part. intros ex s4. destruct s3 as [|c r]; [intros [= _ <-]; lia|].
    destruct (is_char "e" c || is_char "E" c); [|intros [= _ <-]; lia].
    set (signed := match r with
                   | sg :: r' =>
                       if is_char "-" sg then (true, r')
                       else if is_char "+" sg then (false, r')
                       else (false, r)
                   | nil => (false, r)
                   end).
    assert (Hs : (len (snd signed) <= len r)%nat).
    { unfold signed. destruct r as [|sg r']; simpl; [lia|].
      destruct (is_char "-" sg); [simpl; lia|].
      destruct (is_char "+" sg); simpl; lia. }
    destruct signed as [eneg r1]. simpl in Hs.
    destruct (parse_digits r1 0 0) as [[v n] rest0] eqn:Hd.
    destruct (n =? 0); [discriminate|]. intros [= _ <-].
    pose proof (parse_digits_length _ _ _ _ _ _ Hd). simpl. lia. }
  destruct exp_part as [[ex s4]|]; [|discriminate].
  specialize (Hexp ex s4 eq_refl). intros [= _ <-]. lia.
Qed.

Lemma strip_units_length (p : list Z) :
  forall s rest : list Z, JsString.strip_units p s = Some rest -> (len rest <= len s)%nat.
Proof.
  induction p as [|a p IH]; intros s rest; simpl.
  - intros [= <-]. lia.
  - destruct s as [|b s]; [discriminate|]. destruct (a =? b); [|discriminate].
    intros H. apply IH in H. simpl. lia.
Qed.

Lemma literal_length (word : string) (v x : value) (s rest : list Z) :
  literal word v s = Some (x, rest) -> (len rest <= len s)%nat.
Proof.
  unfold literal.
  destruct (JsString.strip_units (JsString.units word) s) as [r|] eqn:H; [|discriminate].
  intros [= _ <-]. exact (strip_units_length _ _ _ H).
Qed.

Lemma parse_elements_S (f : nat) (s : list Z) (acc : list value) :
  parse_elements (S f) s acc =
  match parse_value f s with
  | Some (v, rest) =>
      match skip_ws rest with
      | c :: r =>
          if is_char "," c then parse_elements f (skip_ws r) (acc ++ v :: nil)
          else if is_char "]" c then Some (VArr (acc ++ v :: nil), r)
          else None
      | nil => None
      end
  | None => None
  end.
Proof. reflexivity. Qed.

Lemma parse_members_S (f : nat) (s : list Z) (acc : list (text * value)) :
  parse_members (S f) s acc =
  match s with
  | q :: r =>
      if q =? JsString.code JsString.quote then
        match parse_string_body r with
        | Some (key, rest) =>
            match skip_ws rest with
            | c :: r1 =>
                if is_char ":" c then
                  match parse_value f (skip_ws r1) with
                  | Some (v, rest') =>
                      match skip_ws rest' with
                      | c' :: r2 =>
                          if is_char "," c'
                          then parse_members f (skip_ws r2) (text_set acc (text_of_units key) v)
                          else if is_char "}" c'
                          then Some (make_object (text_set acc (text_of_units key) v), r2)
                          else None
                      | nil => None
                      end
                  | None => None
                  end
                else None
            | nil => None
            end
        | None => None
        end
      else None
  | nil => None
  end.
Proof. reflexivity. Qed.

Lemma parse_value_S (f : nat) (s : list Z) :
  parse_value (S f) s =
  match s with
  | nil => None
  | c :: r =>
      if is_char "{" c then
        match skip_ws r with
        | c' :: r' =>
            if is_char "}" c' then Some (VObj nil, r')
            else parse_members f (c' :: r') nil
        | nil => None
        end
      else if is_char "[" c then
        match skip_ws r with
        | c' :: r' =>
            if is_char "]" c' then Some (VArr nil, r')
            else parse_elements f (c' :: r') nil
        | nil => None
        end
      else if c =? JsString.code JsString.quote then
        match parse_string_body r with
        | Some (str, rest) => Some (of_text (text_of_units str), rest)
        | None => None
        end
      else if is_char "t" c then literal "true" (VBool true) s
      else if is_char "f" c then literal "false" (VBool false) s
      else if is_char "n" c then literal "null" VNull s
      else
        match parse_number s with
        | Some (n, rest) => Some (VNum n, rest)
        | None => None
        end
  end.
Proof. reflexivity. Qed.

(** A successful read consumes text, and succeeds with the same result
    under every bound that exceeds the number of characters consumed. *)
Lemma bound_is_enough (f : nat) :
  (forall (s : list Z) (v : value) (rest : list Z),
      parse_value f s = Some (v, rest) ->
      (len rest <= len s)%nat
      /\ forall g : nat, (len s - len rest < g)%nat -> parse_value g s = Some (v, rest))
  /\ (forall (s : list Z) (acc : list value) (v : value) (rest : list Z),
        parse_elements f s acc = Some (v, rest) ->
        (len rest < len s)%nat
        /\ forall g : nat,
             (len s - len rest < g)%nat -> parse_elements g s acc = Some (v, rest))
  /\ (forall (s : list Z) (acc : list (text * value)) (v : value) (rest : list Z),
        parse_members f s acc = Some (v, rest) ->
        (len rest < len s)%nat
        /\ forall g : nat,
             (len s - len rest < g)%nat -> parse_members g s acc = Some (v, rest)).
Proof.
  induction f as [|f (IHv & IHe & IHm)]; [repeat split; discriminate|].
  split; [|split].
  - intros s v rest. rewrite parse_value_S.
    destruct s as [|c r]; [discriminate|].
    destruct (is_char "{" c) eqn:Hbrace.
    { destruct (skip_ws r) as [|c' r'] eqn:Hws; [discriminate|].
      pose proof (skip_ws_cons r c' r' Hws) as Hl.
      destruct (is_char "}" c') eqn:Hclose.
      - intros [= <- <-]. simpl. split; [lia|].
        intros [|g] Hg; [lia|]. rewrite parse_value_S, Hbrace, Hws, Hclose. reflexivity.
      - intros H. destruct (IHm _ _ _ _ H) as [Hlt Hg]. simpl in Hlt |- *. split; [lia|].
        intros [|g] Hg'; [lia|]. rewrite parse_value_S, Hbrace, Hws, Hclose.
        apply Hg. simpl. lia. }
    destruct (is_char "[" c) eqn:Hbracket.
    { destruct (skip_ws r) as [|c' r'] eqn:Hws; [discriminate|].
      pose proof (skip_ws_cons r c' r' Hws) as Hl.
      destruct (is_char "]" c') eqn:Hclose.
      - intros [= <- <-]. simpl. split; [lia|].
        intros [|g] Hg; [lia|].
        rewrite parse_value_S, Hbrace, Hbracket, Hws, Hclose. reflexivity.
      - intros H. destruct (IHe _ _ _ _ H) as [Hlt Hg]. simpl in Hlt |- *. split; [lia|].
        intros [|g] Hg'; [lia|]. rewrite parse_value_S, Hbrace, Hbracket, Hws, Hclose.
        apply Hg. simpl. lia. }
    intros H.
    assert (Hlen : (len rest <= len (c :: r))%nat).
    { revert H. destruct (c =? JsString.code JsString.quote).
      - destruct (parse_string_body r) as [[str rest0]|] eqn:Hb; [|discriminate].
        intros [= _ <-]. pose proof (parse_string_body_length _ _ _ _ (Nat.le_refl _) Hb).
        simpl. lia.
      - destruct (is_char "t" c); [apply literal_length|].
        destruct (is_char "f" c); [apply literal_length|].
        destruct (is_char "n" c); [apply literal_length|].
        destruct (parse_number (c :: r)) as [[n rest0]|] eqn:Hn; [|discriminate].
        intros [= _ <-]. exact (parse_number_length _ _ _ Hn). }
    split; [exact Hlen|].
    intros [|g] Hg; [lia|]. rewrite parse_value_S, Hbrace, Hbracket. exact H.
  - intros s acc v rest. rewrite parse_elements_S.
    destruct (parse_value f s) as [[x rest1]|] eqn:Hx; [|discriminate].
    destruct (IHv _ _ _ Hx) as [Hl1 Hg1].
    destruct (skip_ws rest1) as [|c r] eqn:Hws; [discriminate|].
    pose proof (skip_ws_cons rest1 c r Hws) as Hl2.
    destruct (is_char "," c) eqn:Hcomma.
    + intros H. destruct (IHe _ _ _ _ H) as [Hlt Hg].
      pose proof (skip_ws_length r) as Hl3. split; [lia|].
      intros [|g] Hg'; [lia|]. rewrite parse_elements_S, (Hg1 g) by lia.
      rewrite Hws, Hcomma. apply Hg. lia.
    + destruct (is_char "]" c) eqn:Hclose; [|discriminate].
      intros [= <- <-]. split; [lia|].
      intros [|g] Hg'; [lia|]. rewrite parse_elements_S, (Hg1 g) by lia.
      rewrite Hws, Hcomma, Hclose. reflexivity.
  - intros s acc v rest. rewrite parse_members_S.
    destruct s as [|q r]; [discriminate|].
    destruct (q =? JsString.code JsString.quote) eqn:Hq; [|discriminate].
    destruct (parse_string_body r) as [[key rest0]|] eqn:Hkey; [|discriminate].
    pose proof (parse_string_body_length _ _ _ _ (Nat.le_refl _) Hkey) as Hl0.
    destruct (skip_ws rest0) as [|c r1] eqn:Hws0; [discriminate|].
    pose proof (skip_ws_cons rest0 c r1 Hws0) as Hl1.
    destruct (is_char ":" c) eqn:Hcolon; [|discriminate].
    pose proof (skip_ws_length r1) as Hl2.
    destruct (parse_value f (skip_ws r1)) as [[x rest1]|] eqn:Hx; [|discriminate].
    destruct (IHv _ _ _ Hx) as [Hl3 Hg1].
    destruct (skip_ws rest1) as [|c' r2] eqn:Hws1; [discriminate|].
    pose proof (skip_ws_cons rest1 c' r2 Hws1) as Hl4.
    destruct (is_char "," c') eqn:Hcomma.
    + intros H. destruct (IHm _ _ _ _ H) as [Hlt Hg].
      pose proof (skip_ws_length r2) as Hl5. simpl. split; [lia|].
      intros [|g] Hg'; [lia|].
      rewrite parse_members_S, Hq, Hkey, Hws0, Hcolon, (Hg1 g) by (simpl in Hg'; lia).
      rewrite Hws1, Hcomma. apply Hg. simpl in Hg'. lia.
    + destruct (is_char "}" c') eqn:Hclose; [|discriminate].
      intros [= <- <-]. simpl. split; [lia|].
      intros [|g] Hg'; [lia|].
      rewrite parse_members_S, Hq, Hkey, Hws0, Hcolon, (Hg1 g) by (simpl in Hg'; lia).
      rewrite Hws1, Hcomma, Hclose. reflexivity.
Qed.

(** [JSON.parse] is modelled by a reader with a bound on its recursion,
    set to the length of the text.  The bound never decides an answer: a
    text that the reader accepts under any bound at all is accepted by
    [parse_units], with the same value. *)
Lemma parse_units_under_any_bound (l : list Z) (v : value) :
  parse_units l = Some v <->
  exists (fuel : nat) (rest : list Z),
    parse_value fuel (skip_ws l) = Some (v, rest) /\ is_nil (skip_ws rest) = true.
Proof.
  unfold parse_units. split.
  - destruct (parse_value (S (len l)) (skip_ws l)) as [[x rest]|] eqn:H; [|discriminate].
    destruct (is_nil (skip_ws rest)) eqn:He; [|discriminate].
    intros [= <-]. eauto.
  - intros (fuel & rest & H & He).
    destruct (bound_is_enough fuel) as (Hv & _ & _).
    destruct (Hv _ _ _ H) as [_ Hg].
    rewrite (Hg (S (len l))), He; [reflexivity|].
    pose proof (skip_ws_length l). lia.
Qed.

End JsonBound.
